(** * nexus-ai: the document editor commands, the mind-map layout, the
      viewport transform, the dictation session and the notes of the
      application, embedded from the TypeScript sources and checked against
      the specification.

    Numbers.  The wheel and pan handlers of the viewport compute on IEEE
    binary64 doubles, as the program does; a drawn position is the real
    value of the doubles.  The fitting of the canvas and the geometric
    statements about the seeding of the layout are read over the real
    numbers; the layout algorithm itself is written once over an abstract
    number interface, so that its structural properties hold for any
    interpretation of the arithmetic, IEEE doubles included.

    Strings.  A string is a sequence of code units; the development uses the
    Standard Library's [string], whose characters stand for the code units
    0..255 (so [U+00A0], the no-break space, is the single character 160). *)

From Stdlib Require Import ZArith List Bool String Ascii DecimalString Lia.
From Stdlib Require Import Sorted Reals Lra Psatz SpecFloat.
Import ListNotations.

(* ================================================================== *)
(** * JavaScript numbers: binary64                                     *)
(* ================================================================== *)

Module Binary64.

(** The numbers of the program are IEEE 754 binary64 values; their
    operations are the Standard Library's specification of them
    ([SpecFloat]: 53 bits of precision, round to nearest, ties to even).
    This module gives each finite double its real value and bounds the
    rounding error of subtraction, multiplication and division. *)

Local Open Scope R_scope.

Definition prec : Z := 53.
Definition emax : Z := 1024.

Definition float : Type := spec_float.

Definition fadd : float -> float -> float := SFadd prec emax.
Definition fsub : float -> float -> float := SFsub prec emax.
Definition fmul : float -> float -> float := SFmul prec emax.
Definition fdiv : float -> float -> float := SFdiv prec emax.

Definition pow2 (e : Z) : R := powerRZ 2 e.

Definition val (f : float) : R :=
  match f with
  | S754_finite s m e => IZR (cond_Zopp s (Zpos m)) * pow2 e
  | _ => 0
  end.

Definition is_finite (f : float) : bool :=
  match f with
  | S754_finite _ _ _ | S754_zero _ => true
  | _ => false
  end.

Lemma pow2_pos (e : Z) : 0 < pow2 e.
Proof. apply powerRZ_lt. lra. Qed.

Lemma pow2_add (a b : Z) : pow2 (a + b) = pow2 a * pow2 b.
Proof. apply powerRZ_add. lra. Qed.

Lemma pow2_succ (a : Z) : pow2 (a + 1) = 2 * pow2 a.
Proof. rewrite pow2_add. change (pow2 1) with (2 * 1). lra. Qed.

Lemma pow2_IZR (n : Z) : (0 <= n)%Z -> pow2 n = IZR (2 ^ n).
Proof.
  intros Hn. unfold pow2. rewrite <- (Z2Nat.id n Hn).
  rewrite <- pow_powerRZ. apply pow_IZR.
Qed.

(** The real [x] lies in [[m, m + 1)], at the place the two bits say. *)
Definition inb (x : R) (mrs : shr_record) : Prop :=
  let m := IZR (shr_m mrs) in
  match shr_r mrs, shr_s mrs with
  | false, false => x = m
  | false, true => m < x < m + / 2
  | true, false => x = m + / 2
  | true, true => m + / 2 < x < m + 1
  end.

Lemma shr_1_inb (x : R) (mrs : shr_record) :
  (0 <= shr_m mrs)%Z -> inb x mrs ->
  (0 <= shr_m (shr_1 mrs))%Z /\ inb (x / 2) (shr_1 mrs).
Proof.
  destruct mrs as [m r s]. cbn [shr_m]. intros Hm Hx.
  destruct m as [|p|p]; [| | lia].
  - split; [cbn; lia |].
    unfold inb in *. cbn in *. destruct r, s; cbn; lra.
  - destruct p as [p|p|].
    + split; [cbn; lia |]. unfold inb in *. cbn [shr_1 shr_m shr_r shr_s] in *.
      rewrite Pos2Z.inj_xI in Hx. rewrite plus_IZR, mult_IZR in Hx.
      destruct r, s; cbn [orb]; lra.
    + split; [cbn; lia |]. unfold inb in *. cbn [shr_1 shr_m shr_r shr_s] in *.
      rewrite Pos2Z.inj_xO in Hx. rewrite mult_IZR in Hx.
      destruct r, s; cbn [orb]; lra.
    + split; [cbn; lia |]. unfold inb in *. cbn [shr_1 shr_m shr_r shr_s] in *.
      destruct r, s; cbn [orb]; lra.
Qed.

Lemma iter_shr_inb (n : positive) :
  forall (x : R) (mrs : shr_record),
    (0 <= shr_m mrs)%Z -> inb x mrs ->
    (0 <= shr_m (iter_pos shr_1 n mrs))%Z
    /\ inb (x / pow2 (Zpos n)) (iter_pos shr_1 n mrs).
Proof.
  induction n as [n IH|n IH|]; intros x mrs Hm Hx; cbn [iter_pos].
  - destruct (shr_1_inb x mrs Hm Hx) as [H1 H1'].
    destruct (IH _ _ H1 H1') as [H2 H2'].
    destruct (IH _ _ H2 H2') as [H3 H3'].
    split; [exact H3 |].
    replace (x / pow2 (Zpos n~1)) with (x / 2 / pow2 (Zpos n) / pow2 (Zpos n));
      [exact H3' |].
    rewrite Pos2Z.inj_xI.
    replace (2 * Zpos n + 1)%Z with (Zpos n + Zpos n + 1)%Z by lia.
    rewrite pow2_succ, pow2_add.
    pose proof (pow2_pos (Zpos n)). field. lra.
  - destruct (IH _ _ Hm Hx) as [H2 H2'].
    destruct (IH _ _ H2 H2') as [H3 H3'].
    split; [exact H3 |].
    replace (x / pow2 (Zpos n~0)) with (x / pow2 (Zpos n) / pow2 (Zpos n));
      [exact H3' |].
    rewrite Pos2Z.inj_xO.
    replace (2 * Zpos n)%Z with (Zpos n + Zpos n)%Z by lia.
    rewrite pow2_add.
    pose proof (pow2_pos (Zpos n)). field. lra.
  - destruct (shr_1_inb x mrs Hm Hx) as [H1 H1'].
    split; [exact H1 |].
    replace (pow2 1) with 2 by (change (pow2 1) with (2 * 1); lra).
    exact H1'.
Qed.

(** ** Digits *)

Lemma digits2_pos_spec (p : positive) :
  (2 ^ (Zpos (digits2_pos p) - 1) <= Zpos p < 2 ^ Zpos (digits2_pos p))%Z.
Proof.
  induction p as [p IH|p IH|]; cbn [digits2_pos].
  - rewrite Pos2Z.inj_succ.
    replace (Z.succ (Zpos (digits2_pos p)) - 1)%Z
      with (Z.succ (Zpos (digits2_pos p) - 1))%Z by lia.
    rewrite !Z.pow_succ_r by lia. lia.
  - rewrite Pos2Z.inj_succ.
    replace (Z.succ (Zpos (digits2_pos p)) - 1)%Z
      with (Z.succ (Zpos (digits2_pos p) - 1))%Z by lia.
    rewrite !Z.pow_succ_r by lia. lia.
  - cbn. lia.
Qed.

Lemma Zdigits2_spec (m : Z) :
  (0 < m)%Z ->
  (0 < Zdigits2 m)%Z
  /\ (2 ^ (Zdigits2 m - 1) <= m < 2 ^ Zdigits2 m)%Z.
Proof.
  destruct m as [|p|p]; try lia. intros _. cbn [Zdigits2].
  split; [lia | apply digits2_pos_spec].
Qed.

Lemma Zdigits2_le (m d : Z) :
  (0 < m)%Z -> (0 <= d)%Z -> (m < 2 ^ d)%Z -> (Zdigits2 m <= d)%Z.
Proof.
  intros Hm Hd Hlt. destruct (Zdigits2_spec m Hm) as [Hp [Hlo _]].
  destruct (Z.le_gt_cases (Zdigits2 m) d) as [H|H]; [exact H | exfalso].
  assert (2 ^ d <= 2 ^ (Zdigits2 m - 1))%Z by (apply Z.pow_le_mono_r; lia).
  lia.
Qed.

Lemma Zdigits2_ge (m d : Z) :
  (0 < m)%Z -> (2 ^ (d - 1) <= m)%Z -> (d <= Zdigits2 m)%Z.
Proof.
  intros Hm Hle. destruct (Zdigits2_spec m Hm) as [Hp [_ Hhi]].
  destruct (Z.le_gt_cases d (Zdigits2 m)) as [H|H]; [exact H | exfalso].
  assert (2 ^ Zdigits2 m <= 2 ^ (d - 1))%Z by (apply Z.pow_le_mono_r; lia).
  lia.
Qed.

Definition emin : Z := -1074.

Lemma fexp_eq (e : Z) : fexp prec emax e = Z.max (e - 53) emin.
Proof. reflexivity. Qed.

(** ** Shifting and rounding *)

Lemma shr_inb (mrs : shr_record) (e n : Z) (x : R) :
  (0 <= shr_m mrs)%Z -> inb x mrs ->
  (0 <= shr_m (fst (shr mrs e n)))%Z
  /\ snd (shr mrs e n) = (e + Z.max n 0)%Z
  /\ inb (x / pow2 (Z.max n 0)) (fst (shr mrs e n)).
Proof.
  intros Hm Hx. destruct n as [|p|p]; cbn [shr fst snd].
  - split; [exact Hm |]. split; [lia |].
    change (pow2 (Z.max 0 0)) with 1. now rewrite Rdiv_1_r.
  - destruct (iter_shr_inb p x mrs Hm Hx) as [H1 H2].
    split; [exact H1 |]. split; [lia |].
    now replace (Z.max (Zpos p) 0) with (Zpos p) by lia.
  - split; [exact Hm |]. split; [lia |].
    replace (Z.max (Zneg p) 0) with 0%Z by lia.
    change (pow2 0) with 1. now rewrite Rdiv_1_r.
Qed.

Lemma inb_of_loc (m : Z) (l : location) :
  loc_of_shr_record (shr_record_of_loc m l) = l
  /\ shr_m (shr_record_of_loc m l) = m.
Proof. destruct l as [|[]]; split; reflexivity. Qed.

Lemma inb_bounds (x : R) (mrs : shr_record) :
  inb x mrs -> IZR (shr_m mrs) <= x < IZR (shr_m mrs) + 1.
Proof. unfold inb. destruct (shr_r mrs), (shr_s mrs); cbn; lra. Qed.

Lemma inb_integer (z : Z) (mrs : shr_record) :
  inb (IZR z) mrs -> loc_of_shr_record mrs = loc_Exact.
Proof.
  destruct mrs as [m r s]. unfold inb. cbn [shr_m shr_r shr_s].
  destruct r, s; cbn [loc_of_shr_record]; intros H; try reflexivity;
    exfalso.
  - destruct H as [H1 H2].
    assert (IZR (2 * m + 1) < IZR (2 * z)) by (rewrite plus_IZR, !mult_IZR; lra).
    assert (IZR (2 * z) < IZR (2 * m + 2)) by (rewrite plus_IZR, !mult_IZR; lra).
    apply lt_IZR in H, H0. lia.
  - assert (IZR (2 * z) = IZR (2 * m + 1)) by (rewrite plus_IZR, !mult_IZR; lra).
    apply eq_IZR in H0. lia.
  - destruct H as [H1 H2].
    assert (IZR (2 * m) < IZR (2 * z)) by (rewrite !mult_IZR; lra).
    assert (IZR (2 * z) < IZR (2 * m + 1)) by (rewrite plus_IZR, !mult_IZR; lra).
    apply lt_IZR in H, H0. lia.
Qed.

Lemma round_nearest_even_inb (x : R) (mrs : shr_record) :
  inb x mrs ->
  let m2 := round_nearest_even (shr_m mrs) (loc_of_shr_record mrs) in
  (shr_m mrs <= m2 <= shr_m mrs + 1)%Z
  /\ Rabs (IZR m2 - x) <= / 2
  /\ (loc_of_shr_record mrs = loc_Exact -> IZR m2 = x).
Proof.
  destruct mrs as [m r s]. unfold inb. cbn [shr_m shr_r shr_s].
  intros Hx. destruct r, s; cbn [loc_of_shr_record round_nearest_even].
  - split; [lia |]. split; [| discriminate].
    rewrite plus_IZR. apply Rabs_le. lra.
  - split; [destruct (Z.even m); lia |]. split; [| discriminate].
    destruct (Z.even m); rewrite ?plus_IZR; apply Rabs_le; lra.
  - split; [lia |]. split; [| discriminate]. apply Rabs_le. lra.
  - split; [lia |]. split; [| now intros _].
    apply Rabs_le. lra.
Qed.

Lemma pow2_le (a b : Z) : (a <= b)%Z -> pow2 a <= pow2 b.
Proof.
  intros H. replace b with (a + (b - a))%Z by lia. rewrite pow2_add.
  assert (1 <= pow2 (b - a)).
  { rewrite pow2_IZR by lia. apply IZR_le.
    pose proof (Z.pow_pos_nonneg 2 (b - a)). lia. }
  pose proof (pow2_pos a). nra.
Qed.

Lemma pow2_sub (a b : Z) : pow2 (a - b) = pow2 a / pow2 b.
Proof.
  pose proof (pow2_pos b).
  replace a with (a - b + b)%Z at 2 by lia. rewrite pow2_add. field. lra.
Qed.

Definition sgn (s : bool) : R := if s then -1 else 1.

Lemma val_finite (s : bool) (m : positive) (e : Z) :
  val (S754_finite s m e) = sgn s * (IZR (Zpos m) * pow2 e).
Proof.
  unfold val, sgn. destruct s; cbn [cond_Zopp]; [| lra].
  rewrite opp_IZR. lra.
Qed.

(** The exponent of a finite number is at least [emin]. *)
Definition wf (f : float) : Prop :=
  match f with
  | S754_finite _ _ e => (emin <= e)%Z
  | _ => True
  end.

(** A number whose exponent is in range. *)
Definition ok (f : float) : Prop := wf f /\ f <> S754_nan.

(** [binary_round_aux] on the real [x * 2^ex], where [x] is in
    [[mx, mx + 1)] at the place [lx] says. *)
Lemma binary_round_aux_correct (sx : bool) (mx ex : Z) (lx : location)
      (x : R) :
  (0 <= mx)%Z ->
  inb x (shr_record_of_loc mx lx) ->
  let f := binary_round_aux prec emax sx mx ex lx in
  let fe := fexp prec emax (Zdigits2 mx + ex) in
  ok f
  /\ (is_finite f = true ->
      Rabs (val f - sgn sx * (x * pow2 ex)) <= / 2 * pow2 (Z.max ex fe)
      /\ (lx = loc_Exact -> (fe <= ex)%Z ->
          val f = sgn sx * (x * pow2 ex))).
Proof.
  intros Hmx Hx. cbv zeta.
  set (fe := fexp prec emax (Zdigits2 mx + ex)).
  assert (Hfe : (emin <= fe)%Z /\ (Zdigits2 mx + ex - 53 <= fe)%Z)
    by (subst fe; rewrite fexp_eq; lia).
  unfold binary_round_aux, shr_fexp. fold fe.
  set (n1 := (fe - ex)%Z).
  assert (Hrec : (0 <= shr_m (shr_record_of_loc mx lx))%Z)
    by (rewrite (proj2 (inb_of_loc mx lx)); exact Hmx).
  destruct (shr_inb (shr_record_of_loc mx lx) ex n1 x Hrec Hx)
    as (Hm' & He' & Hx').
  destruct (shr (shr_record_of_loc mx lx) ex n1) as [mrs' e'].
  cbn [fst snd] in Hm', He', Hx'.
  set (k := Z.max n1 0) in *.
  assert (Hk : (0 <= k)%Z /\ (Zdigits2 mx - 53 <= k)%Z /\ (ex + k = Z.max ex fe)%Z)
    by (subst k n1; lia).
  set (x' := x / pow2 k) in *.
  assert (HX : x * pow2 ex = x' * pow2 e').
  { subst x' e'. rewrite pow2_add. pose proof (pow2_pos k). field. lra. }
  destruct (round_nearest_even_inb x' mrs' Hx') as (Hm2 & Herr & Hexact).
  set (m2 := round_nearest_even (shr_m mrs') (loc_of_shr_record mrs')) in *.
  (* the rounded mantissa has at most 54 digits *)
  assert (Hx'lt : x' < pow2 53).
  { assert (Hxlt : x < pow2 (Zdigits2 mx)).
    { pose proof (inb_bounds _ _ Hx) as [_ Hb].
      rewrite (proj2 (inb_of_loc mx lx)) in Hb.
      destruct (Z.eq_dec mx 0) as [-> | Hnz].
      - cbn in Hb. change (pow2 (Zdigits2 0)) with 1. lra.
      - destruct (Zdigits2_spec mx ltac:(lia)) as [Hd [_ Hhi]].
        rewrite pow2_IZR by lia.
        apply Rlt_le_trans with (IZR (mx + 1)); [rewrite plus_IZR; lra |].
        apply IZR_le. lia. }
    assert (Hd0 : (0 <= Zdigits2 mx)%Z) by (destruct mx; cbn; lia).
    subst x'. pose proof (pow2_pos k) as Hkp.
    apply Rlt_le_trans with (pow2 (Zdigits2 mx) / pow2 k).
    - apply Rmult_lt_compat_r; [now apply Rinv_0_lt_compat | exact Hxlt].
    - rewrite <- pow2_sub. apply pow2_le. lia. }
  assert (Hm2le : (0 <= m2 <= 2 ^ 53)%Z).
  { split; [lia |].
    pose proof (inb_bounds _ _ Hx') as [Hlo _].
    assert (IZR (shr_m mrs') < IZR (2 ^ 53)).
    { rewrite <- pow2_IZR by lia. lra. }
    apply lt_IZR in H. lia. }
  assert (He'min : (emin <= e')%Z) by lia.
  (* the second shift *)
  assert (Hcases :
            (m2 < 2 ^ 53)%Z
            /\ shr (shr_record_of_loc m2 loc_Exact) e'
                   (fexp prec emax (Zdigits2 m2 + e') - e')
               = (Build_shr_record m2 false false, e')
            \/ m2 = (2 ^ 53)%Z
               /\ shr (shr_record_of_loc m2 loc_Exact) e'
                      (fexp prec emax (Zdigits2 m2 + e') - e')
                  = (Build_shr_record (2 ^ 52) false false, (e' + 1)%Z)).
  { destruct (Z.eq_dec m2 (2 ^ 53)) as [E | Hne].
    - right. split; [exact E |]. rewrite E.
      change (Zdigits2 (2 ^ 53)) with 54%Z. rewrite fexp_eq.
      replace (Z.max (54 + e' - 53) emin - e')%Z with 1%Z by lia.
      reflexivity.
    - left. split; [lia |].
      assert (Hn2 : (fexp prec emax (Zdigits2 m2 + e') - e' <= 0)%Z).
      { rewrite fexp_eq. destruct (Z.eq_dec m2 0) as [-> | Hnz].
        - cbn [Zdigits2]. lia.
        - pose proof (Zdigits2_le m2 53 ltac:(lia) ltac:(lia) ltac:(lia)).
          lia. }
      destruct (fexp prec emax (Zdigits2 m2 + e') - e')%Z; try lia;
        reflexivity. }
  assert (Hfinal :
    forall m'' e'',
      (IZR m'' * pow2 e'' = IZR m2 * pow2 e') -> (0 <= m'')%Z ->
      (emin <= e'')%Z ->
      let f := match m'' with
               | Z0 => S754_zero sx
               | Zpos m => if (e'' <=? emax - prec)%Z
                           then S754_finite sx m e'' else S754_infinity sx
               | Zneg _ => S754_nan
               end in
      ok f
      /\ (is_finite f = true ->
          Rabs (val f - sgn sx * (x * pow2 ex)) <= / 2 * pow2 (Z.max ex fe)
          /\ (lx = loc_Exact -> (fe <= ex)%Z ->
              val f = sgn sx * (x * pow2 ex)))).
  { intros m'' e'' Hval Hm'' He''. cbv zeta.
    assert (Hgoal : forall v, v = sgn sx * (IZR m2 * pow2 e') ->
               Rabs (v - sgn sx * (x * pow2 ex)) <= / 2 * pow2 (Z.max ex fe)
               /\ (lx = loc_Exact -> (fe <= ex)%Z ->
                   v = sgn sx * (x * pow2 ex))).
    { intros v ->. rewrite HX. split.
      - replace (sgn sx * (IZR m2 * pow2 e') - sgn sx * (x' * pow2 e'))
          with (sgn sx * ((IZR m2 - x') * pow2 e')) by ring.
        rewrite Rabs_mult.
        replace (Rabs (sgn sx)) with 1
          by (unfold sgn; destruct sx;
              [rewrite Rabs_left | rewrite Rabs_right]; lra).
        rewrite Rabs_mult, (Rabs_right (pow2 e'))
          by (left; apply pow2_pos).
        replace (Z.max ex fe) with e' by lia.
        pose proof (pow2_pos e'). nra.
      - intros -> Hle.
        assert (Hk0 : k = 0%Z) by (subst k n1; lia).
        assert (Hxm : x' = IZR mx).
        { subst x'. rewrite Hk0. change (pow2 0) with 1.
          unfold inb in Hx. cbn in Hx. rewrite Hx. field. }
        rewrite Hxm in Hx'. apply inb_integer in Hx'.
        rewrite (Hexact Hx'), Hxm. reflexivity. }
    destruct m'' as [|q|q]; [| | lia].
    - split; [split; [exact I | discriminate] |]. intros _. apply Hgoal.
      cbn [val]. rewrite <- Hval. cbn. ring.
    - destruct (e'' <=? emax - prec)%Z;
        [| split; [split; [exact I | discriminate] | discriminate]].
      split; [split; [exact He'' | discriminate] |]. intros _. apply Hgoal.
      rewrite val_finite, Hval. reflexivity. }
  destruct Hcases as [[Hlt ->] | [E ->]]; cbn [shr_m].
  - apply Hfinal; [reflexivity | lia | lia].
  - apply Hfinal; [| lia | lia].
    rewrite E, pow2_succ. change (IZR (2 ^ 53)) with (2 * IZR (2 ^ 52)).
    ring.
Qed.

(** The unit roundoff and the smallest spacing. *)
Definition u : R := pow2 (-53).
Definition eta : R := pow2 (-1075).

Lemma u_pos : 0 < u. Proof. apply pow2_pos. Qed.
Lemma eta_pos : 0 < eta. Proof. apply pow2_pos. Qed.

Lemma half_pow2 (e : Z) : / 2 * pow2 e = pow2 (e - 1).
Proof.
  rewrite pow2_sub. change (pow2 1) with (2 * 1). pose proof (pow2_pos e).
  field.
Qed.

(** The error of [binary_round_aux] is relative, up to the smallest
    spacing, when the shift loses digits only by rounding. *)
Lemma binary_round_aux_accurate (sx : bool) (mx ex : Z) (lx : location)
      (x : R) :
  (0 <= mx)%Z ->
  inb x (shr_record_of_loc mx lx) ->
  lx = loc_Exact \/ (ex <= fexp prec emax (Zdigits2 mx + ex))%Z ->
  let f := binary_round_aux prec emax sx mx ex lx in
  is_finite f = true ->
  Rabs (val f - sgn sx * (x * pow2 ex)) <= u * (x * pow2 ex)
  \/ Rabs (val f - sgn sx * (x * pow2 ex)) <= eta
     /\ fexp prec emax (Zdigits2 mx + ex) = emin.
Proof.
  intros Hmx Hx Hcase f Hfin.
  destruct (binary_round_aux_correct sx mx ex lx x Hmx Hx)
    as (_ & Hc). fold f in Hc. destruct (Hc Hfin) as (Herr & Hexact).
  set (fe := fexp prec emax (Zdigits2 mx + ex)) in *.
  assert (Hx0 : 0 <= x * pow2 ex).
  { pose proof (inb_bounds _ _ Hx) as [Hlo _].
    rewrite (proj2 (inb_of_loc mx lx)) in Hlo.
    pose proof (pow2_pos ex). apply IZR_le in Hmx.
    apply Rmult_le_pos; lra. }
  destruct (Z_lt_le_dec fe ex) as [Hlt | Hle].
  - (* no shift: exact *)
    destruct Hcase as [-> | Hc']; [| lia].
    left. rewrite (Hexact eq_refl ltac:(lia)).
    replace (sgn sx * (x * pow2 ex) - sgn sx * (x * pow2 ex)) with 0 by ring.
    rewrite Rabs_R0. pose proof u_pos. nra.
  - replace (Z.max ex fe) with fe in Herr by lia.
    rewrite half_pow2 in Herr.
    destruct (Z.eq_dec fe emin) as [E | Hne].
    + right. split; [| exact E]. rewrite E in Herr. exact Herr.
    + left. eapply Rle_trans; [exact Herr |].
      assert (Hfe : fe = (Zdigits2 mx + ex - 53)%Z)
        by (subst fe; rewrite fexp_eq in *; lia).
      assert (Hpos : (0 < mx)%Z).
      { destruct (Z.eq_dec mx 0) as [-> | ]; [| lia].
        cbn [Zdigits2] in Hfe. lia. }
      destruct (Zdigits2_spec mx Hpos) as [Hd [Hlo _]].
      pose proof (inb_bounds _ _ Hx) as [Hxlo _].
      rewrite (proj2 (inb_of_loc mx lx)) in Hxlo.
      apply IZR_le in Hlo. rewrite <- pow2_IZR in Hlo by lia.
      rewrite Hfe. unfold u.
      replace (Zdigits2 mx + ex - 53 - 1)%Z
        with (-53 + ((Zdigits2 mx - 1) + ex))%Z by lia.
      rewrite (pow2_add (-53)), (pow2_add (Zdigits2 mx - 1)).
      pose proof (pow2_pos (-53)). pose proof (pow2_pos ex).
      apply Rmult_le_compat_l; [lra |].
      apply Rmult_le_compat_r; lra.
Qed.

(** ** Aligning mantissas *)

Lemma iter_xO (m d : positive) :
  Zpos (Pos.iter xO m d) = (Zpos m * 2 ^ Zpos d)%Z.
Proof.
  induction d as [|d IH] using Pos.peano_ind.
  - cbn. lia.
  - rewrite Pos.iter_succ, Pos2Z.inj_xO, IH, Pos2Z.inj_succ.
    rewrite Z.pow_succ_r by lia. lia.
Qed.

Lemma shl_align_value (mx : positive) (ex ex' : Z) :
  let '(mz, ez) := shl_align mx ex ex' in
  (ez = Z.min ex ex')%Z
  /\ Zpos mz = (Zpos mx * 2 ^ (ex - ez))%Z.
Proof.
  unfold shl_align. destruct (ex' - ex)%Z as [|d|d] eqn:E.
  - split; [lia |]. replace (ex - ex)%Z with 0%Z by lia. lia.
  - split; [lia |]. replace (ex - ex)%Z with 0%Z by lia. lia.
  - split; [lia |]. rewrite iter_xO. f_equal. f_equal. lia.
Qed.

Lemma Zdigits2_shift (m k : Z) :
  (0 < m)%Z -> (0 <= k)%Z -> Zdigits2 (m * 2 ^ k) = (Zdigits2 m + k)%Z.
Proof.
  intros Hm Hk. destruct (Zdigits2_spec m Hm) as [Hd [Hlo Hhi]].
  assert (Hpk : (0 < 2 ^ k)%Z) by (apply Z.pow_pos_nonneg; lia).
  assert (Hmk : (0 < m * 2 ^ k)%Z) by lia.
  apply Z.le_antisymm.
  - apply Zdigits2_le; [exact Hmk | lia |].
    rewrite Z.pow_add_r by lia. nia.
  - apply Zdigits2_ge; [exact Hmk |].
    replace (Zdigits2 m + k - 1)%Z with ((Zdigits2 m - 1) + k)%Z by lia.
    rewrite Z.pow_add_r by lia. nia.
Qed.

(** [binary_round] of an integer at an exponent not below [emin]. *)
Lemma binary_round_correct (sx : bool) (mx : positive) (ex : Z) :
  (emin <= ex)%Z ->
  let f := binary_round prec emax sx mx ex in
  let X := IZR (Zpos mx) * pow2 ex in
  ok f
  /\ (is_finite f = true -> Rabs (val f - sgn sx * X) <= u * X).
Proof.
  intros Hex. cbv zeta. unfold binary_round.
  set (fe := fexp prec emax (Zpos (digits2_pos mx) + ex)).
  pose proof (shl_align_value mx ex fe) as Hsh.
  destruct (shl_align mx ex fe) as [mz ez]. destruct Hsh as [Hez Hmz].
  assert (Hinb : inb (IZR (Zpos mz)) (shr_record_of_loc (Zpos mz) loc_Exact))
    by reflexivity.
  assert (Hval : IZR (Zpos mz) * pow2 ez = IZR (Zpos mx) * pow2 ex).
  { rewrite Hmz, mult_IZR, <- pow2_IZR by lia.
    rewrite Rmult_assoc, <- pow2_add. f_equal. f_equal. lia. }
  destruct (binary_round_aux_correct sx (Zpos mz) ez loc_Exact
              (IZR (Zpos mz)) ltac:(lia) Hinb) as [Hwf _].
  split; [exact Hwf |]. intros Hfin.
  assert (Hfez : fexp prec emax (Zdigits2 (Zpos mz) + ez)
                 = fe).
  { rewrite Hmz, Zdigits2_shift by lia. subst fe.
    change (Zdigits2 (Zpos mx)) with (Zpos (digits2_pos mx)).
    f_equal. lia. }
  destruct (binary_round_aux_accurate sx (Zpos mz) ez loc_Exact
              (IZR (Zpos mz)) ltac:(lia) Hinb (or_introl eq_refl) Hfin)
    as [Hrel | [Habs Hmin]].
  - rewrite Hval in Hrel. exact Hrel.
  - (* the spacing is the smallest one: the number was not shifted *)
    rewrite Hfez in Hmin.
    destruct (binary_round_aux_correct sx (Zpos mz) ez loc_Exact
                (IZR (Zpos mz)) ltac:(lia) Hinb) as [_ Hc].
    destruct (Hc Hfin) as [_ Hexact].
    rewrite Hfez in Hexact.
    rewrite <- Hval, (Hexact eq_refl ltac:(lia)).
    replace (sgn sx * (IZR (Zpos mz) * pow2 ez)
             - sgn sx * (IZR (Zpos mz) * pow2 ez)) with 0 by ring.
    rewrite Rabs_R0. pose proof u_pos. pose proof (pow2_pos ez).
    assert (0 < IZR (Zpos mz)) by (apply IZR_lt; lia).
    apply Rmult_le_pos; [lra |]. apply Rmult_le_pos; lra.
Qed.

Lemma binary_normalize_correct (m e : Z) (szero : bool) :
  (emin <= e)%Z ->
  let f := binary_normalize prec emax m e szero in
  ok f
  /\ (is_finite f = true ->
      Rabs (val f - IZR m * pow2 e) <= u * Rabs (IZR m * pow2 e)).
Proof.
  intros He. cbv zeta. destruct m as [|p|p]; cbn [binary_normalize].
  - split; [split; [exact I | discriminate] |]. intros _. cbn [val].
    replace (0 - 0 * pow2 e) with 0 by ring. rewrite Rabs_R0.
    pose proof u_pos. pose proof (Rabs_pos (0 * pow2 e)). nra.
  - destruct (binary_round_correct false p e He) as [Hwf Herr].
    split; [exact Hwf |]. intros Hfin. specialize (Herr Hfin).
    unfold sgn in Herr. rewrite Rmult_1_l in Herr.
    rewrite (Rabs_right (IZR (Zpos p) * pow2 e)); [exact Herr |].
    pose proof (pow2_pos e).
    assert (0 < IZR (Zpos p)) by (apply IZR_lt; lia). nra.
  - destruct (binary_round_correct true p e He) as [Hwf Herr].
    split; [exact Hwf |]. intros Hfin. specialize (Herr Hfin).
    unfold sgn in Herr.
    change (Zneg p) with (- Zpos p)%Z. rewrite opp_IZR.
    replace (- IZR (Zpos p) * pow2 e) with (- (IZR (Zpos p) * pow2 e)) by ring.
    rewrite Rabs_Ropp.
    rewrite (Rabs_right (IZR (Zpos p) * pow2 e)).
    + replace (val (binary_round prec emax true p e)
               - - (IZR (Zpos p) * pow2 e))
        with (val (binary_round prec emax true p e)
              - -1 * (IZR (Zpos p) * pow2 e)) by ring.
      exact Herr.
    + pose proof (pow2_pos e).
      assert (0 < IZR (Zpos p)) by (apply IZR_lt; lia). nra.
Qed.

Lemma val_aligned (s : bool) (m : positive) (e ez : Z) :
  (ez <= e)%Z ->
  val (S754_finite s m e)
  = IZR (cond_Zopp s (Zpos (fst (shl_align m e ez)))) * pow2 ez.
Proof.
  intros Hle. pose proof (shl_align_value m e ez) as H.
  destruct (shl_align m e ez) as [mz e0]. destruct H as [He0 Hmz].
  cbn [fst]. rewrite val_finite.
  replace e0 with ez in Hmz by lia.
  assert (E : IZR (Zpos mz) * pow2 ez = IZR (Zpos m) * pow2 e).
  { rewrite Hmz, mult_IZR, <- pow2_IZR by lia.
    rewrite Rmult_assoc, <- pow2_add. f_equal. f_equal. lia. }
  unfold sgn. destruct s; cbn [cond_Zopp]; rewrite ?opp_IZR; lra.
Qed.

(** Subtraction is correctly rounded; a result below the normal range is
    exact. *)
Lemma fsub_correct (a b : float) :
  wf a -> wf b -> is_finite a = true -> is_finite b = true ->
  ok (fsub a b)
  /\ (is_finite (fsub a b) = true ->
      Rabs (val (fsub a b) - (val a - val b)) <= u * Rabs (val a - val b)).
Proof.
  intros Ha Hb Fa Fb.
  assert (Hzero : forall v, Rabs (v - v) <= u * Rabs v).
  { intros v. replace (v - v) with 0 by ring. rewrite Rabs_R0.
    pose proof u_pos. pose proof (Rabs_pos v). nra. }
  destruct a as [sa| | |sa ma ea]; try discriminate;
    destruct b as [sb| | |sb mb eb]; try discriminate.
  - split; [destruct sa, sb; (split; [exact I | discriminate]) |]. intros _.
    replace (val (S754_zero sa) - val (S754_zero sb)) with 0
      by (cbn; ring).
    replace (val (fsub (S754_zero sa) (S754_zero sb))) with 0
      by (destruct sa, sb; reflexivity).
    apply Hzero.
  - split; [split; [exact Hb | discriminate] |]. intros _.
    change (fsub (S754_zero sa) (S754_finite sb mb eb))
      with (S754_finite (negb sb) mb eb).
    replace (val (S754_zero sa) - val (S754_finite sb mb eb))
      with (val (S754_finite (negb sb) mb eb)).
    + apply Hzero.
    + rewrite !val_finite. cbn [val]. unfold sgn. destruct sb; cbn; ring.
  - split; [split; [exact Ha | discriminate] |]. intros _.
    change (fsub (S754_finite sa ma ea) (S754_zero sb))
      with (S754_finite sa ma ea).
    replace (val (S754_finite sa ma ea) - val (S754_zero sb))
      with (val (S754_finite sa ma ea)) by (cbn [val]; ring).
    apply Hzero.
  - cbn [wf] in Ha, Hb.
    unfold fsub. cbn [SFsub].
    set (ez := Z.min ea eb).
    rewrite (val_aligned sa ma ea ez) by lia.
    rewrite (val_aligned sb mb eb ez) by lia.
    rewrite <- Rmult_minus_distr_r, <- minus_IZR.
    apply binary_normalize_correct. lia.
Qed.

Lemma sgn_xorb (a b : bool) : sgn (xorb a b) = sgn a * sgn b.
Proof. destruct a, b; cbn; lra. Qed.

(** Multiplication is correctly rounded, up to the smallest spacing. *)
Lemma fmul_correct (a b : float) :
  is_finite a = true -> is_finite b = true ->
  ok (fmul a b)
  /\ (is_finite (fmul a b) = true ->
      Rabs (val (fmul a b) - val a * val b)
      <= u * Rabs (val a * val b) + eta).
Proof.
  intros Fa Fb.
  assert (Hzero : forall v, v = 0 -> Rabs (0 - v) <= u * Rabs v + eta).
  { intros v ->. replace (0 - 0) with 0 by ring. rewrite Rabs_R0.
    pose proof u_pos. pose proof eta_pos. nra. }
  destruct a as [sa| | |sa ma ea]; try discriminate;
    destruct b as [sb| | |sb mb eb]; try discriminate;
    try (split; [split; [exact I | discriminate] |];
         intros _; apply Hzero; cbn [val]; ring).
  unfold fmul. cbn [SFmul].
  assert (Hinb : inb (IZR (Zpos (ma * mb)))
                     (shr_record_of_loc (Zpos (ma * mb)) loc_Exact))
    by reflexivity.
  destruct (binary_round_aux_correct (xorb sa sb) (Zpos (ma * mb))
              (ea + eb) loc_Exact _ ltac:(lia) Hinb) as [Hwf _].
  split; [exact Hwf |]. intros Hfin.
  assert (Hprod : val (S754_finite sa ma ea) * val (S754_finite sb mb eb)
                  = sgn (xorb sa sb)
                    * (IZR (Zpos (ma * mb)) * pow2 (ea + eb))).
  { rewrite !val_finite, sgn_xorb, Pos2Z.inj_mul, mult_IZR, pow2_add. ring. }
  assert (Habs : Rabs (val (S754_finite sa ma ea)
                       * val (S754_finite sb mb eb))
                 = IZR (Zpos (ma * mb)) * pow2 (ea + eb)).
  { rewrite Hprod, Rabs_mult.
    replace (Rabs (sgn (xorb sa sb))) with 1
      by (unfold sgn; destruct (xorb sa sb);
          [rewrite Rabs_left | rewrite Rabs_right]; lra).
    rewrite Rabs_right; [ring |].
    pose proof (pow2_pos (ea + eb)).
    assert (0 < IZR (Zpos (ma * mb))) by (apply IZR_lt; lia). nra. }
  rewrite Habs, Hprod. pose proof eta_pos. pose proof u_pos.
  destruct (binary_round_aux_accurate (xorb sa sb) (Zpos (ma * mb))
              (ea + eb) loc_Exact _ ltac:(lia) Hinb (or_introl eq_refl) Hfin)
    as [Hrel | [Habs' _]]; [lra |].
  assert (0 <= IZR (Zpos (ma * mb)) * pow2 (ea + eb)).
  { rewrite <- Habs. apply Rabs_pos. }
  nra.
Qed.

(** ** Division *)

Lemma new_location_inb (nb k q : Z) :
  (0 < nb)%Z -> (0 <= k < nb)%Z ->
  inb (IZR q + IZR k / IZR nb) (shr_record_of_loc q (new_location nb k)).
Proof.
  intros Hnb Hk.
  assert (Hnbr : 0 < IZR nb) by (apply IZR_lt; lia).
  assert (Hfrac : forall c : R, (c * IZR nb < IZR k -> c < IZR k / IZR nb)
                             /\ (IZR k < c * IZR nb -> IZR k / IZR nb < c)
                             /\ (IZR k = c * IZR nb -> IZR k / IZR nb = c)).
  { intros c. repeat split; intros H.
    - apply Rmult_lt_reg_r with (IZR nb); [exact Hnbr |].
      unfold Rdiv. rewrite Rmult_assoc, Rinv_l by lra. lra.
    - apply Rmult_lt_reg_r with (IZR nb); [exact Hnbr |].
      unfold Rdiv. rewrite Rmult_assoc, Rinv_l by lra. lra.
    - rewrite H. field. lra. }
  destruct (Hfrac 0) as (Hpos & _ & Hzero).
  destruct (Hfrac (/ 2)) as (Hgt & Hlt & Heq).
  destruct (Hfrac 1) as (_ & Hlt1 & _).
  assert (H1 : IZR k / IZR nb < 1).
  { apply Hlt1. rewrite Rmult_1_l. apply IZR_lt. lia. }
  unfold new_location.
  destruct (Z.even nb) eqn:Ev.
  - unfold new_location_even. destruct (Z.eqb_spec k 0) as [-> | Hk0].
    + unfold inb. cbn. unfold Rdiv. lra.
    + assert (0 < IZR k / IZR nb).
      { apply Hpos. rewrite Rmult_0_l. apply IZR_lt. lia. }
      destruct (Z.compare_spec (2 * k) nb) as [E | E | E];
        unfold inb; cbn [shr_record_of_loc shr_m shr_r shr_s].
      * rewrite Heq; [reflexivity |].
        rewrite <- E, mult_IZR. lra.
      * split; [lra |]. apply Rplus_lt_compat_l, Hlt.
        apply IZR_lt in E. rewrite mult_IZR in E. lra.
      * split; [| lra]. apply Rplus_lt_compat_l, Hgt.
        apply IZR_lt in E. rewrite mult_IZR in E. lra.
  - unfold new_location_odd. destruct (Z.eqb_spec k 0) as [-> | Hk0].
    + unfold inb. cbn. unfold Rdiv. lra.
    + assert (0 < IZR k / IZR nb).
      { apply Hpos. rewrite Rmult_0_l. apply IZR_lt. lia. }
      assert (Hodd : (2 * k <> nb)%Z).
      { intros E. rewrite <- E, Z.even_mul in Ev. discriminate. }
      destruct (Z.compare_spec (2 * k + 1) nb) as [E | E | E];
        unfold inb; cbn [shr_record_of_loc shr_m shr_r shr_s].
      * split; [lra |]. apply Rplus_lt_compat_l, Hlt.
        assert (IZR (2 * k) < IZR nb) by (apply IZR_lt; lia).
        rewrite mult_IZR in H0. lra.
      * split; [lra |]. apply Rplus_lt_compat_l, Hlt.
        assert (IZR (2 * k) < IZR nb) by (apply IZR_lt; lia).
        rewrite mult_IZR in H0. lra.
      * split; [| lra]. apply Rplus_lt_compat_l, Hgt.
        assert (IZR nb < IZR (2 * k)) by (apply IZR_lt; lia).
        rewrite mult_IZR in H0. lra.
Qed.

(** Division is correctly rounded, up to the smallest spacing. *)
Lemma fdiv_correct (a b : float) (sb : bool) (mb : positive) (eb : Z) :
  is_finite a = true -> b = S754_finite sb mb eb ->
  ok (fdiv a b)
  /\ (is_finite (fdiv a b) = true ->
      Rabs (val (fdiv a b) - val a / val b)
      <= u * Rabs (val a / val b) + eta).
Proof.
  intros Fa ->.
  destruct a as [sa| | |sa ma ea]; try discriminate.
  - split; [split; [exact I | discriminate] |]. intros _.
    cbn [fdiv SFdiv val].
    unfold Rdiv. rewrite Rmult_0_l.
    replace (0 - 0) with 0 by ring. rewrite Rabs_R0.
    pose proof u_pos. pose proof eta_pos. nra.
  - unfold fdiv. cbn [SFdiv]. unfold SFdiv_core_binary.
    set (d1 := Zdigits2 (Zpos ma)). set (d2 := Zdigits2 (Zpos mb)).
    set (E := (d1 + ea - (d2 + eb))%Z).
    set (e' := Z.min (fexp prec emax E) (ea - eb)).
    set (s := (ea - eb - e')%Z).
    assert (Hs : (0 <= s)%Z) by (subst s e'; lia).
    set (m' := match s with
               | 0%Z => Zpos ma
               | Zpos _ => Z.shiftl (Zpos ma) s
               | Zneg _ => 0%Z
               end).
    assert (Hm' : m' = (Zpos ma * 2 ^ s)%Z).
    { subst m'. destruct s as [|p|p]; [lia | | lia].
      now rewrite Z.shiftl_mul_pow2 by lia. }
    pose proof (Z_div_mod m' (Zpos mb) ltac:(lia)) as Hdiv.
    destruct (Z.div_eucl m' (Zpos mb)) as [q r]. destruct Hdiv as [Hqr Hr].
    assert (Hmbr : 0 < IZR (Zpos mb)) by (apply IZR_lt; lia).
    assert (Hmar : 0 < IZR (Zpos ma)) by (apply IZR_lt; lia).
    assert (Hps : (0 < 2 ^ s)%Z) by (apply Z.pow_pos_nonneg; lia).
    assert (Hq : (0 <= q)%Z) by nia.
    set (x := IZR q + IZR r / IZR (Zpos mb)).
    assert (Hx : x = IZR m' / IZR (Zpos mb)).
    { subst x. rewrite Hqr, plus_IZR, mult_IZR. field. lra. }
    pose proof (new_location_inb (Zpos mb) r q ltac:(lia) Hr) as Hinb.
    fold x in Hinb.
    (* the quotient as [x * 2^e'] *)
    assert (HX : x * pow2 e' = IZR (Zpos ma) * pow2 ea
                               / (IZR (Zpos mb) * pow2 eb)).
    { rewrite Hx, Hm', mult_IZR, <- pow2_IZR by lia.
      assert (Hea : pow2 ea = pow2 s * pow2 e' * pow2 eb).
      { rewrite <- !pow2_add. f_equal. subst s. lia. }
      rewrite Hea.
      pose proof (pow2_pos eb). pose proof (pow2_pos e').
      pose proof (pow2_pos s). field. split; lra. }
    assert (Hquot : val (S754_finite sa ma ea) / val (S754_finite sb mb eb)
                    = sgn (xorb sa sb) * (x * pow2 e')).
    { rewrite HX, !val_finite, sgn_xorb.
      pose proof (pow2_pos eb).
      unfold sgn. destruct sa, sb; field; split; lra. }
    assert (Hxpos : 0 < x * pow2 e').
    { rewrite HX. pose proof (pow2_pos ea). pose proof (pow2_pos eb).
      apply Rdiv_lt_0_compat; nra. }
    assert (Habs : Rabs (val (S754_finite sa ma ea)
                         / val (S754_finite sb mb eb)) = x * pow2 e').
    { rewrite Hquot, Rabs_mult.
      replace (Rabs (sgn (xorb sa sb))) with 1
        by (unfold sgn; destruct (xorb sa sb);
            [rewrite Rabs_left | rewrite Rabs_right]; lra).
      rewrite Rabs_right; lra. }
    destruct (binary_round_aux_correct (xorb sa sb) q e'
                (new_location (Zpos mb) r) x Hq Hinb) as [Hwf _].
    split; [exact Hwf |]. intros Hfin.
    rewrite Habs, Hquot. pose proof u_pos. pose proof eta_pos.
    (* the mantissa of the quotient is long enough *)
    assert (Hlong : (e' <= fexp prec emax (Zdigits2 q + e'))%Z).
    { rewrite fexp_eq.
      destruct (Z_le_gt_dec e' emin) as [Hle | Hgt]; [lia |].
      assert (He' : (e' <= E - 53)%Z)
        by (subst e'; rewrite fexp_eq in *; lia).
      (* x > 2^52 *)
      destruct (Zdigits2_spec (Zpos ma) ltac:(lia)) as [Hd1 [Hlo1 _]].
      destruct (Zdigits2_spec (Zpos mb) ltac:(lia)) as [Hd2 [_ Hhi2]].
      fold d1 in Hlo1, Hd1. fold d2 in Hhi2, Hd2.
      assert (Hbig : (2 ^ 52 * Zpos mb < m')%Z).
      { rewrite Hm'.
        assert (Hsd : (53 + d2 <= d1 + s)%Z) by (subst s E; lia).
        assert (H52 : (2 ^ 52 * 2 ^ d2 <= 2 ^ (d1 - 1) * 2 ^ s)%Z).
        { rewrite <- (Z.pow_add_r 2 52 d2) by lia.
          rewrite <- (Z.pow_add_r 2 (d1 - 1) s) by lia.
          apply Z.pow_le_mono_r; lia. }
        apply Z.lt_le_trans with (2 ^ 52 * 2 ^ d2)%Z;
          [apply Z.mul_lt_mono_pos_l; lia |].
        apply Z.le_trans with (2 ^ (d1 - 1) * 2 ^ s)%Z; [exact H52 |].
        apply Z.mul_le_mono_nonneg_r; lia. }
      assert (Hq52 : (2 ^ 52 <= q)%Z).
      { revert Hbig. rewrite Hqr. generalize (2 ^ 52)%Z. intros c Hc.
        destruct (Z_lt_le_dec q c); [exfalso; nia | lia]. }
      pose proof (Zdigits2_ge q 53 ltac:(lia) Hq52). lia. }
    assert (0 <= u * (x * pow2 e')) by (apply Rmult_le_pos; lra).
    destruct (binary_round_aux_accurate (xorb sa sb) q e'
                (new_location (Zpos mb) r) x Hq Hinb (or_intror Hlong) Hfin)
      as [Hrel | [Habs' _]]; lra.
Qed.

(** ** Finite numbers *)

(** A finite double: finite, with a mantissa of at most 53 bits and an
    exponent in range. *)
Definition finite_number (f : float) : bool :=
  is_finite f && valid_binary prec emax f.

(** Finite and not a zero. *)
Definition is_nonzero (f : float) : bool :=
  match f with
  | S754_finite _ _ _ => true
  | _ => false
  end.

Lemma finite_number_wf (f : float) :
  finite_number f = true -> is_finite f = true /\ wf f.
Proof.
  unfold finite_number. intros H. apply andb_true_iff in H as [Hf Hv].
  split; [exact Hf |]. destruct f as [| | |s m e]; try exact I.
  cbn [valid_binary wf] in *. unfold bounded in Hv.
  apply andb_true_iff in Hv as [Hc _]. unfold canonical_mantissa in Hc.
  apply Z.eqb_eq in Hc. rewrite fexp_eq in Hc. lia.
Qed.

Lemma fsub_finite_inv (a b : float) :
  is_finite (fsub a b) = true -> is_finite a = true /\ is_finite b = true.
Proof.
  destruct a as [sa|sa| |sa ma ea], b as [sb|sb| |sb mb eb]; cbn;
    try (intros; split; (reflexivity || discriminate));
    destruct sa, sb; cbn; intros; split; (reflexivity || discriminate).
Qed.

Lemma fmul_finite_inv (a b : float) :
  is_finite (fmul a b) = true -> is_finite a = true /\ is_finite b = true.
Proof.
  destruct a as [sa|sa| |sa ma ea], b as [sb|sb| |sb mb eb]; cbn;
    intros; split; (reflexivity || discriminate).
Qed.

Lemma val_nonzero (f : float) : is_nonzero f = true -> val f <> 0.
Proof.
  destruct f as [| | |s m e]; try discriminate. intros _.
  rewrite val_finite. pose proof (pow2_pos e).
  assert (0 < IZR (Zpos m)) by (apply IZR_lt; lia).
  unfold sgn. destruct s; nra.
Qed.

(** The number for an integer. *)
Definition ofZ (z : Z) : float := binary_normalize prec emax z 0 false.

Lemma u_small : 0 <= u <= / 1000.
Proof.
  split; [left; apply u_pos |].
  apply Rle_trans with (pow2 (-10)); [apply pow2_le; lia |].
  change (pow2 (-10)) with (/ (2 * (2 * (2 * (2 * (2 * (2 * (2 * (2 * (2 * (2 * 1))))))))))).
  apply Rinv_le_contravar; lra.
Qed.

(** The error analysis of the new translation, for operations with
    relative error [u] and absolute error [eta]. *)
Lemma zoom_error (u eta m x rho a r p x' : R) :
  0 <= u <= / 1000 -> 0 <= eta ->
  Rabs (a - (m - x)) <= u * Rabs (m - x) ->
  Rabs (r - rho) <= u * Rabs rho + eta ->
  Rabs (p - a * r) <= u * Rabs (a * r) + eta ->
  Rabs (x' - (m - p)) <= u * Rabs (m - p) ->
  Rabs (x' + (m - x) * rho - m)
  <= u * (Rabs m + 5 * (Rabs (m - x) * Rabs rho))
     + 2 * eta * (Rabs (m - x) + 1).
Proof.
  intros [Hu0 Hu] Heta Ha Hr Hp Hx.
  set (A := Rabs (m - x)) in *. set (P := Rabs rho) in *.
  set (M := Rabs m).
  assert (HA : 0 <= A) by apply Rabs_pos.
  assert (HP : 0 <= P) by apply Rabs_pos.
  assert (HM : 0 <= M) by apply Rabs_pos.
  assert (Hsmall : forall t, 0 <= t -> u * t <= / 1000 * t).
  { intros t Ht. apply Rmult_le_compat_r; assumption. }
  set (Q := A * P). set (Z := A * eta).
  assert (HQ : 0 <= Q) by (apply Rmult_le_pos; assumption).
  assert (HZ : 0 <= Z) by (apply Rmult_le_pos; assumption).
  set (W := u * Q).
  assert (HW : 0 <= W) by (apply Rmult_le_pos; assumption).
  pose proof (Hsmall W HW) as HuW. pose proof (Hsmall Z HZ) as HuZ.
  pose proof (Hsmall A HA) as HuA.
  (* |a| *)
  assert (Habs_a : Rabs a <= A + u * A).
  { replace a with ((m - x) + (a - (m - x))) by ring.
    eapply Rle_trans; [apply Rabs_triang |]. fold A. lra. }
  (* T = |a r - (m - x) rho| *)
  set (T := Rabs (a * r - (m - x) * rho)).
  assert (HT0 : 0 <= T) by apply Rabs_pos.
  assert (HT : T <= 2001 / 1000 * W + 1001 / 1000 * Z).
  { subst T.
    replace (a * r - (m - x) * rho)
      with (a * (r - rho) + (a - (m - x)) * rho) by ring.
    eapply Rle_trans; [apply Rabs_triang |]. rewrite !Rabs_mult. fold P.
    assert (H1 : Rabs a * Rabs (r - rho) <= (A + u * A) * (u * P + eta)).
    { apply Rmult_le_compat; try apply Rabs_pos; assumption. }
    assert (H2 : Rabs (a - (m - x)) * P <= u * A * P).
    { apply Rmult_le_compat_r; assumption. }
    assert (E : (A + u * A) * (u * P + eta) + u * A * P
                = 2 * W + u * W + Z + u * Z)
      by (subst W Q Z; ring).
    lra. }
  pose proof (Hsmall T HT0) as HuT.
  (* |a r| *)
  assert (Har : Rabs (a * r) <= Q + T).
  { replace (a * r) with ((m - x) * rho + (a * r - (m - x) * rho)) by ring.
    eapply Rle_trans; [apply Rabs_triang |]. rewrite Rabs_mult.
    fold A P Q T. lra. }
  (* |dp| *)
  assert (Hdp : Rabs (p - a * r) <= W + u * T + eta).
  { eapply Rle_trans; [exact Hp |].
    assert (u * Rabs (a * r) <= u * (Q + T))
      by (apply Rmult_le_compat_l; assumption).
    subst W. lra. }
  (* |m - p| *)
  assert (Hmp : Rabs (m - p) <= M + (Q + T) + (W + u * T + eta)).
  { replace (m - p) with (m + (- (a * r) + - (p - a * r))) by ring.
    eapply Rle_trans; [apply Rabs_triang |].
    eapply Rle_trans;
      [apply Rplus_le_compat_l, Rabs_triang |].
    rewrite !Rabs_Ropp. fold M. lra. }
  assert (Hdx : Rabs (x' - (m - p))
                <= u * (M + (Q + T) + (W + u * T + eta))).
  { eapply Rle_trans; [exact Hx |].
    apply Rmult_le_compat_l; assumption. }
  (* the deviation *)
  replace (x' + (m - x) * rho - m)
    with ((x' - (m - p)) + (- (p - a * r) + - (a * r - (m - x) * rho)))
    by ring.
  eapply Rle_trans; [apply Rabs_triang |].
  eapply Rle_trans; [apply Rplus_le_compat_l, Rabs_triang |].
  rewrite !Rabs_Ropp. fold T.
  assert (Hd : 0 <= W + u * T + eta)
    by (pose proof (Rmult_le_pos u T Hu0 HT0); lra).
  pose proof (Hsmall _ Hd) as Hud.
  pose proof (Hsmall eta Heta) as Hue.
  assert (E1 : u * (M + (Q + T) + (W + u * T + eta))
               = u * M + W + u * T + u * (W + u * T + eta))
    by (subst W; ring).
  assert (E2 : u * (M + 5 * Q) + 2 * eta * (A + 1)
               = u * M + 5 * W + 2 * Z + 2 * eta)
    by (subst W Z; ring).
  rewrite E2. lra.
Qed.

End Binary64.

(* ================================================================== *)
(** * Viewport controller (src/components/VisualizationModal.tsx)      *)
(* ================================================================== *)

Module Viewport.
Import Binary64.

Local Open Scope R_scope.

(** [useState({ scale: 1, x: 0, y: 0 })]; the numbers are doubles in the
    component, and real numbers where a drawn position is meant. *)
Record Transform (T : Type) : Type := mkTransform {
  scale : T;
  x : T;
  y : T
}.

Arguments mkTransform {T}.
Arguments scale {T}.
Arguments x {T}.
Arguments y {T}.


(** The fields of the wheel event that [handleWheel] reads, with the
    bounding rectangle of [e.currentTarget]. *)
Record WheelEvent : Type := mkWheelEvent {
  deltaY : float;
  clientX : float;
  clientY : float;
  rectLeft : float;
  rectTop : float
}.

(** The literals [0.001], [0.2] and [2]: the doubles nearest to them. *)
Definition c0_001 : float := S754_finite false 4611686018427388 (-62).
Definition c0_2 : float := S754_finite false 7205759403792794 (-55).
Definition c2 : float := S754_finite false 4503599627370496 (-51).

Example literals :
  c0_001 = fdiv (ofZ 1) (ofZ 1000)
  /\ c0_2 = fdiv (ofZ 2) (ofZ 10)
  /\ c2 = ofZ 2.
Proof. repeat split. Qed.

(** [Math.min(a, b)] and [Math.max(a, b)]: [NaN] when an argument is
    [NaN]; [-0] counts as smaller than [+0]. *)
Definition jsMin (a b : float) : float :=
  match SFcompare a b with
  | None => S754_nan
  | Some Lt => a
  | Some Gt => b
  | Some Eq =>
      match a, b with
      | S754_zero false, S754_zero true => b
      | _, _ => a
      end
  end.

Definition jsMax (a b : float) : float :=
  match SFcompare a b with
  | None => S754_nan
  | Some Lt => b
  | Some Gt => a
  | Some Eq =>
      match a, b with
      | S754_zero true, S754_zero false => b
      | _, _ => a
      end
  end.

Definition mouseX (e : WheelEvent) : float := fsub (clientX e) (rectLeft e).
Definition mouseY (e : WheelEvent) : float := fsub (clientY e) (rectTop e).

(** [nextScale], line 245. *)
Definition nextScale (transform : Transform float) (e : WheelEvent) : float :=
  let zoomIntensity := c0_001 in
  fsub (scale transform) (fmul (deltaY e) zoomIntensity).

(** [handleWheel], lines 240-256. *)
Definition handleWheel (transform : Transform float) (e : WheelEvent)
  : Transform float :=
  let scale' := jsMax c0_2 (jsMin (nextScale transform e) c2) in
  let x' := fsub (mouseX e)
                 (fmul (fsub (mouseX e) (x transform))
                       (fdiv scale' (scale transform))) in
  let y' := fsub (mouseY e)
                 (fmul (fsub (mouseY e) (y transform))
                       (fdiv scale' (scale transform))) in
  mkTransform scale' x' y'.

(** The numbers a transform holds, as real numbers. *)
Definition exact (t : Transform float) : Transform R :=
  mkTransform (val (scale t)) (val (x t)) (val (y t)).

(** The canvas is drawn with [translate(x px, y px) scale(scale)]: a world
    point is scaled, then translated. *)
Definition toScreenX (t : Transform R) (wx : R) : R := x t + scale t * wx.
Definition toScreenY (t : Transform R) (wy : R) : R := y t + scale t * wy.

(** The world point drawn at a given container coordinate. *)
Definition toWorldX (t : Transform R) (px : R) : R := (px - x t) / scale t.
Definition toWorldY (t : Transform R) (py : R) : R := (py - y t) / scale t.

(** The same two maps computed in doubles. *)
Definition toScreenX64 (t : Transform float) (wx : float) : float :=
  fadd (x t) (fmul (scale t) wx).
Definition toWorldX64 (t : Transform float) (px : float) : float :=
  fdiv (fsub px (x t)) (scale t).

(** The clamp, in the comparison of the numbers themselves. *)
Lemma clamp_between (n : float) :
  n <> S754_nan ->
  let s := jsMax c0_2 (jsMin n c2) in
  SFleb c0_2 s = true /\ SFleb s c2 = true /\ is_nonzero s = true.
Proof.
  intros Hn. cbv zeta.
  destruct n as [sn|sn| |sn mn en];
    [destruct sn; repeat split; reflexivity
    | destruct sn; repeat split; reflexivity
    | contradiction |].
  unfold jsMin.
  destruct (SFcompare (S754_finite sn mn en) c2) as [[]|] eqn:E2;
    cbv iota.
  - unfold jsMax.
    destruct (SFcompare c0_2 (S754_finite sn mn en)) as [c|] eqn:E1;
      [| destruct sn; discriminate E1].
    destruct c; cbv iota; unfold SFleb; rewrite ?E1, ?E2; repeat split.
  - unfold jsMax.
    destruct (SFcompare c0_2 (S754_finite sn mn en)) as [c|] eqn:E1;
      [| destruct sn; discriminate E1].
    destruct c; cbv iota; unfold SFleb; rewrite ?E1, ?E2; repeat split.
  - repeat split.
  - destruct sn; discriminate E2.
Qed.

Lemma nextScale_not_nan (t : Transform float) (e : WheelEvent) :
  finite_number (scale t) = true ->
  finite_number (deltaY e) = true ->
  nextScale t e <> S754_nan.
Proof.
  intros Hs Hd. unfold nextScale.
  destruct (finite_number_wf _ Hs) as [Fs Ws].
  destruct (finite_number_wf _ Hd) as [Fd _].
  destruct (fmul_correct (deltaY e) c0_001 Fd eq_refl) as [[Wm Nm] _].
  destruct (fmul (deltaY e) c0_001) as [sm|sm| |sm mm em] eqn:Em.
  - exact (proj2 (proj1 (fsub_correct _ (S754_zero sm) Ws I Fs eq_refl))).
  - destruct (scale t) as [| | |]; try discriminate; discriminate.
  - contradiction.
  - exact (proj2 (proj1 (fsub_correct _ _ Ws Wm Fs eq_refl))).
Qed.

(** The new translation on one axis: the deviation of the redrawn point
    from the pointer. *)
Lemma translation_error (m xt s' s : float) :
  wf m -> finite_number xt = true ->
  is_finite s' = true -> is_nonzero s = true ->
  let x' := fsub m (fmul (fsub m xt) (fdiv s' s)) in
  is_finite x' = true ->
  Rabs (val x' + val s' * ((val m - val xt) / val s) - val m)
  <= u * (Rabs (val m)
          + 5 * (Rabs (val m - val xt) * Rabs (val s' / val s)))
     + 2 * eta * (Rabs (val m - val xt) + 1).
Proof.
  intros Wm Hxt Fs' Hs. cbv zeta. intros Fx'.
  destruct (finite_number_wf _ Hxt) as [Fxt Wxt].
  destruct (fsub_finite_inv _ _ Fx') as [Fm Fp].
  destruct (fmul_finite_inv _ _ Fp) as [Fa Fr].
  destruct (fsub_correct m xt Wm Wxt Fm Fxt) as [_ Ea].
  specialize (Ea Fa).
  destruct s as [| | |ss ms es] eqn:Es; try discriminate.
  destruct (fdiv_correct s' (S754_finite ss ms es) ss ms es Fs' eq_refl)
    as [_ Er].
  specialize (Er Fr).
  destruct (fmul_correct _ _ Fa Fr) as [[Wp _] Ep]. specialize (Ep Fp).
  destruct (fsub_correct m _ Wm Wp Fm Fp) as [_ Ex]. specialize (Ex Fx').
  pose proof (val_nonzero (S754_finite ss ms es) eq_refl) as Hnz.
  replace (val s' * ((val m - val xt) / val (S754_finite ss ms es)))
    with ((val m - val xt) * (val s' / val (S754_finite ss ms es)))
    by (field; exact Hnz).
  apply (zoom_error u eta (val m) (val xt)
           (val s' / val (S754_finite ss ms es))
           (val (fsub m xt))
           (val (fdiv s' (S754_finite ss ms es)))
           (val (fmul (fsub m xt) (fdiv s' (S754_finite ss ms es)))));
    [exact u_small | left; exact eta_pos | exact Ea | exact Er
    | exact Ep | exact Ex].
Qed.

(** C6.  Zooming with the wheel, on the doubles the component computes
    with.  The new scale is the next scale clamped between 0.2 and 2, and the
    new translation is pointer - (pointer - old translation) * (new scale /
    old scale) on both axes, each operation rounded.  When the event's
    coordinates and the transform are finite numbers, the old scale is not
    zero and the new translation has not overflowed, the world point that was
    under the pointer before the zoom is drawn after it within a rounding
    error of the pointer, clamped scale or not: on each axis the deviation
    is at most [2^-53 * (|p| + 5 * |p - t| * |s' / s|)], for the pointer [p],
    the old translation [t] and the scales [s] and [s'], up to a term of the
    order of the smallest double, [2^-1074 * (|p - t| + 1)]. *)
Theorem handleWheel_zoom_within_rounding (t : Transform float)
        (e : WheelEvent) :
  finite_number (clientX e) = true -> finite_number (rectLeft e) = true ->
  finite_number (clientY e) = true -> finite_number (rectTop e) = true ->
  finite_number (deltaY e) = true ->
  finite_number (scale t) = true -> is_nonzero (scale t) = true ->
  finite_number (x t) = true -> finite_number (y t) = true ->
  let t' := handleWheel t e in
  is_finite (x t') = true -> is_finite (y t') = true ->
  let px := val (mouseX e) in
  let py := val (mouseY e) in
  let ratio := val (scale t') / val (scale t) in
  scale t' = jsMax c0_2 (jsMin (fsub (scale t) (fmul (deltaY e) c0_001)) c2)
  /\ SFleb c0_2 (scale t') = true /\ SFleb (scale t') c2 = true
  /\ x t' = fsub (mouseX e)
                 (fmul (fsub (mouseX e) (x t)) (fdiv (scale t') (scale t)))
  /\ y t' = fsub (mouseY e)
                 (fmul (fsub (mouseY e) (y t)) (fdiv (scale t') (scale t)))
  /\ Rabs (toScreenX (exact t') (toWorldX (exact t) px) - px)
     <= u * (Rabs px + 5 * (Rabs (px - val (x t)) * Rabs ratio))
        + 2 * eta * (Rabs (px - val (x t)) + 1)
  /\ Rabs (toScreenY (exact t') (toWorldY (exact t) py) - py)
     <= u * (Rabs py + 5 * (Rabs (py - val (y t)) * Rabs ratio))
        + 2 * eta * (Rabs (py - val (y t)) + 1).
Proof.
  intros Hcx Hrl Hcy Hrt Hd Hs Hnz Hx Hy t' Fx' Fy' px py ratio.
  destruct (clamp_between (nextScale t e) (nextScale_not_nan t e Hs Hd))
    as (Hlo & Hhi & Hnz').
  fold (scale t') in Hlo, Hhi.
  assert (Fs' : is_finite (scale t') = true).
  { unfold t', handleWheel. cbn [scale].
    destruct (jsMax c0_2 (jsMin (nextScale t e) c2)); try discriminate.
    reflexivity. }
  assert (Wmx : wf (mouseX e)).
  { destruct (finite_number_wf _ Hcx) as [F1 W1].
    destruct (finite_number_wf _ Hrl) as [F2 W2].
    exact (proj1 (proj1 (fsub_correct _ _ W1 W2 F1 F2))). }
  assert (Wmy : wf (mouseY e)).
  { destruct (finite_number_wf _ Hcy) as [F1 W1].
    destruct (finite_number_wf _ Hrt) as [F2 W2].
    exact (proj1 (proj1 (fsub_correct _ _ W1 W2 F1 F2))). }
  split; [reflexivity |].
  split; [exact Hlo |]. split; [exact Hhi |].
  split; [reflexivity |]. split; [reflexivity |]. split.
  - exact (translation_error (mouseX e) (x t) (scale t') (scale t)
             Wmx Hx Fs' Hnz Fx').
  - exact (translation_error (mouseY e) (y t) (scale t') (scale t)
             Wmy Hy Fs' Hnz Fy').
Qed.

(** The doubles 1, 14, 25 and 100. *)
Definition c1 : float := S754_finite false 4503599627370496 (-52).
Definition c14 : float := S754_finite false 7881299347898368 (-49).
Definition c25 : float := S754_finite false 7036874417766400 (-48).
Definition c100 : float := S754_finite false 7036874417766400 (-46).

(** [useState({ scale: 1, x: 0, y: 0 })] *)
Definition initialTransform : Transform float :=
  mkTransform c1 (S754_zero false) (S754_zero false).

(** A canvas at scale 1 moved 25 to the right, and one notch of the wheel
    with the pointer at (14, 0). *)
Definition movedRight : Transform float :=
  mkTransform c1 c25 (S754_zero false).
Definition notchAt14 : WheelEvent :=
  mkWheelEvent c100 c14 (S754_zero false) (S754_zero false) (S754_zero false).

Lemma pow2_neg (p : positive) : pow2 (Z.neg p) = / IZR (2 ^ Z.pos p).
Proof.
  rewrite <- (pow2_IZR (Z.pos p)) by lia.
  change (Z.neg p) with (0 - Z.pos p)%Z. rewrite pow2_sub.
  change (pow2 0) with 1. unfold Rdiv. lra.
Qed.

(** C6, witness: one notch of the wheel on the moved canvas. *)
Lemma handleWheel_zoom_within_rounding_witness :
  let t := movedRight in
  let e := notchAt14 in
  let t' := handleWheel t e in
  let px := val (mouseX e) in
  (finite_number (clientX e) = true /\ finite_number (rectLeft e) = true
   /\ finite_number (clientY e) = true /\ finite_number (rectTop e) = true
   /\ finite_number (deltaY e) = true
   /\ finite_number (scale t) = true /\ is_nonzero (scale t) = true
   /\ finite_number (x t) = true /\ finite_number (y t) = true
   /\ is_finite (x t') = true /\ is_finite (y t') = true)
  /\ Rabs (toScreenX (exact t') (toWorldX (exact t) px) - px)
     <= u * (Rabs px
             + 5 * (Rabs (px - val (x t))
                    * Rabs (val (scale t') / val (scale t))))
        + 2 * eta * (Rabs (px - val (x t)) + 1).
Proof.
  intros t e t' px.
  split; [repeat split |].
  exact (proj1 (proj2 (proj2 (proj2 (proj2 (proj2
           (handleWheel_zoom_within_rounding t e
              eq_refl eq_refl eq_refl eq_refl eq_refl eq_refl eq_refl
              eq_refl eq_refl eq_refl eq_refl))))))).
Defined.

(** C6, as the claim words it: the point is not drawn exactly under the
    pointer again.  On the moved canvas one notch of the wheel with the
    pointer at 14 gives the scale 0.9 and the translation 23.9 (as doubles),
    and the world point -11 that was under the pointer is then drawn at
    [14 - 15 * 2^-53]; redoing the two maps in doubles gives
    13.999999999999998. *)
Lemma zoom_moves_point_under_pointer :
  let t := movedRight in
  let e := notchAt14 in
  let t' := handleWheel t e in
  is_nonzero (scale t) = true
  /\ val (mouseX e) = 14
  /\ toScreenX (exact t') (toWorldX (exact t) (val (mouseX e)))
     = 14 - 15 * pow2 (-53)
  /\ toScreenX (exact t') (toWorldX (exact t) (val (mouseX e)))
     <> val (mouseX e)
  /\ toScreenX64 t' (toWorldX64 t (mouseX e))
     = S754_finite false 7881299347898367 (-49)
  /\ toScreenX64 t' (toWorldX64 t (mouseX e)) <> mouseX e.
Proof.
  cbv zeta.
  assert (Hm : val (mouseX notchAt14) = 14).
  { change (mouseX notchAt14) with c14. unfold val, c14. cbn [cond_Zopp].
    rewrite (pow2_neg 49).
    change (2 ^ 49)%Z with 562949953421312%Z. lra. }
  assert (Hp : toScreenX (exact (handleWheel movedRight notchAt14))
                 (toWorldX (exact movedRight) (val (mouseX notchAt14)))
               = 14 - 15 * pow2 (-53)).
  { rewrite Hm. unfold toScreenX, toWorldX, exact. cbn [scale x y].
    replace (handleWheel movedRight notchAt14)
      with (mkTransform (S754_finite false 8106479329266893 (-53))
              (S754_finite false 6727251943384678 (-48)) (S754_zero false))
      by (vm_compute; reflexivity).
    cbn [scale x y movedRight]. unfold val, c1, c25. cbn [cond_Zopp].
    rewrite (pow2_neg 53), (pow2_neg 48), (pow2_neg 52).
    change (2 ^ 53)%Z with 9007199254740992%Z.
    change (2 ^ 48)%Z with 281474976710656%Z.
    change (2 ^ 52)%Z with 4503599627370496%Z.
    field. }
  split; [reflexivity |]. split; [exact Hm |]. split; [exact Hp |].
  split.
  - rewrite Hp, Hm. pose proof (pow2_pos (-53)). lra.
  - split; [vm_compute; reflexivity | vm_compute; discriminate].
Qed.

(** ** Fitting and panning *)


(** The pan gesture's state: [transform], [isPanning], [panStartRef]. *)
Record PanState : Type := mkPanState {
  transform : Transform float;
  isPanning : bool;
  panStartX : float;
  panStartY : float
}.

(** [handleMouseDown], lines 217-224; [onNode] says whether the target is
    inside a [.mind-map-node]. *)
Definition handleMouseDown (onNode : bool) (clientX clientY : float)
           (s : PanState) : PanState :=
  if onNode then s
  else mkPanState (transform s) true
         (fsub clientX (x (transform s))) (fsub clientY (y (transform s))).

(** [handleMouseUp], lines 226-228 (also bound to [onMouseLeave]). *)
Definition handleMouseUp (s : PanState) : PanState :=
  mkPanState (transform s) false (panStartX s) (panStartY s).

(** [handleMouseMove], lines 230-238. *)
Definition handleMouseMove (clientX clientY : float) (s : PanState)
  : PanState :=
  if negb (isPanning s) then s
  else mkPanState
         (mkTransform (scale (transform s))
                      (fsub clientX (panStartX s))
                      (fsub clientY (panStartY s)))
         (isPanning s) (panStartX s) (panStartY s).

(** The moves of one drag. *)
Definition drag (moves : list (float * float)) (s : PanState) : PanState :=
  fold_left (fun s m => handleMouseMove (fst m) (snd m) s) moves s.



Lemma drag_while_panning (moves : list (float * float)) (s : PanState) :
  isPanning s = true ->
  let s' := drag moves s in
  isPanning s' = true
  /\ panStartX s' = panStartX s /\ panStartY s' = panStartY s
  /\ scale (transform s') = scale (transform s)
  /\ transform s'
     = match rev moves with
       | [] => transform s
       | (cx, cy) :: _ =>
           mkTransform (scale (transform s))
                       (fsub cx (panStartX s)) (fsub cy (panStartY s))
       end.
Proof.
  revert s. induction moves as [|[cx cy] moves IH] using rev_ind;
    intros s Hp.
  - cbn. repeat split; auto.
  - specialize (IH s Hp). cbv zeta in IH. cbv zeta.
    unfold drag in *. rewrite fold_left_app, rev_app_distr.
    set (s1 := fold_left _ moves s) in *.
    destruct IH as (I1 & I2 & I3 & I4 & _).
    cbn [fold_left rev app fst snd]. unfold handleMouseMove. rewrite I1.
    cbn [negb isPanning panStartX panStartY transform scale].
    rewrite I2, I3, I4. repeat split.
Qed.

Lemma drag_not_panning (moves : list (float * float)) (s : PanState) :
  isPanning s = false -> drag moves s = s.
Proof.
  intros Hp. induction moves as [|m moves IH] using rev_ind; [reflexivity |].
  unfold drag in *. rewrite fold_left_app. cbn [fold_left].
  rewrite IH. unfold handleMouseMove. now rewrite Hp.
Qed.

(** X2.  A drag that starts off a node moves the canvas with the pointer: after
    any moves the translation is the pointer's last position minus the
    offset between the press and the old translation (each subtraction
    rounded to a double), whatever path the pointer took, and the scale is
    untouched; once the button is up, moves change nothing. *)
Theorem drag_follows_pointer (t : Transform float) (downX downY : float)
        (moves : list (float * float)) (lastX lastY : float)
        (later : list (float * float)) :
  let s0 := mkPanState t false (S754_zero false) (S754_zero false) in
  let s := drag (moves ++ [(lastX, lastY)])
                (handleMouseDown false downX downY s0) in
  transform s
  = mkTransform (scale t) (fsub lastX (fsub downX (x t)))
                (fsub lastY (fsub downY (y t)))
  /\ transform (drag later (handleMouseUp s)) = transform s.
Proof.
  intros s0 s. subst s s0.
  set (s1 := handleMouseDown false downX downY
               (mkPanState t false (S754_zero false) (S754_zero false))).
  destruct (drag_while_panning (moves ++ [(lastX, lastY)]) s1 eq_refl)
    as (_ & _ & _ & _ & Ht).
  cbv zeta in Ht. rewrite rev_app_distr in Ht. cbn [rev app] in Ht.
  split.
  - rewrite Ht. subst s1. reflexivity.
  - now rewrite drag_not_panning.
Qed.

(** X3.  A press on a node starts no pan: the moves that follow leave the
    transform, and the whole gesture state, as they are. *)
Theorem press_on_node_does_not_pan (s : PanState) (cx cy : float)
        (moves : list (float * float)) :
  isPanning s = false ->
  drag moves (handleMouseDown true cx cy s) = s.
Proof.
  intros Hp. cbn [handleMouseDown]. now apply drag_not_panning.
Qed.

Lemma press_on_node_does_not_pan_witness :
  let s := mkPanState initialTransform false (S754_zero false)
             (S754_zero false) in
  isPanning s = false
  /\ drag [(c14, c25); (c25, c100)] (handleMouseDown true c14 c14 s) = s.
Proof.
  intros s. split; [reflexivity |].
  apply (press_on_node_does_not_pan s c14 c14 [(c14, c25); (c25, c100)]).
  reflexivity.
Defined.

End Viewport.

(* ================================================================== *)
(** * Mind-map layout engine (src/components/VisualizationModal.tsx)   *)
(* ================================================================== *)

Module Layout.

(** ** Lists used as JavaScript arrays *)

(** [a[i] = v] for [i] inside the array (the layout never writes outside). *)
Fixpoint update {A : Type} (i : nat) (v : A) (l : list A) : list A :=
  match l, i with
  | [], _ => []
  | _ :: l', O => v :: l'
  | a :: l', S i' => a :: update i' v l'
  end.

(** [arr.forEach((a, i) => ...)] threading the state the callback mutates. *)
Fixpoint forEachIdx {A S : Type} (f : S -> A -> nat -> S)
         (l : list A) (i : nat) (s : S) : S :=
  match l with
  | [] => s
  | a :: l' => forEachIdx f l' (Datatypes.S i) (f s a i)
  end.

(** ** The number interface

    The operations of JavaScript numbers that [calculateLayout] uses. *)
Class Num (T : Type) : Type := {
  nofZ : Z -> T;                 (* an integer literal or array index *)
  nadd : T -> T -> T;
  nsub : T -> T -> T;
  nmul : T -> T -> T;
  ndiv : T -> T -> T;
  nsqrt : T -> T;                (* Math.sqrt *)
  ncos : T -> T;                 (* Math.cos *)
  nsin : T -> T;                 (* Math.sin *)
  natan2 : T -> T -> T;          (* Math.atan2(y, x) *)
  nmin : T -> T -> T;            (* Math.min *)
  nlt : T -> T -> bool;          (* a < b *)
  neq : T -> T -> bool;          (* a === b *)
  npi : T                        (* Math.PI *)
}.

Declare Scope num_scope.
Delimit Scope num_scope with num.
Infix "+" := nadd : num_scope.
Infix "-" := nsub : num_scope.
Infix "*" := nmul : num_scope.
Infix "/" := ndiv : num_scope.
Infix "<?" := nlt : num_scope.
Infix "=?" := neq : num_scope.
Notation "# z" := (nofZ z%Z) (at level 1, format "# z") : num_scope.

(** ** The graph (src/unnamed/part_000: [MindMapNode], [MindMapData]) *)

#[warnings="-register-all"]
Inductive MindMapNode : Type :=
  mkMindMapNode (id : string) (label : string)
                (children : option (list MindMapNode)).

Definition node_id (n : MindMapNode) : string :=
  match n with mkMindMapNode i _ _ => i end.
Definition node_label (n : MindMapNode) : string :=
  match n with mkMindMapNode _ l _ => l end.
Definition node_children (n : MindMapNode) : option (list MindMapNode) :=
  match n with mkMindMapNode _ _ c => c end.

Record MindMapData : Type := mkMindMapData {
  centralTopic : string;
  nodes : list MindMapNode
}.

(** ** Layout nodes *)

Record LayoutNode (T : Type) : Type := mkLayoutNode {
  id : string;
  label : string;
  width : T;
  height : T;
  x : T;
  y : T;
  level : Z;                     (* 0: central, 1: main, 2: child *)
  parentId : option string;      (* [None] is [undefined] *)
  isFixed : bool
}.

Arguments mkLayoutNode {T}.
Arguments id {T}. Arguments label {T}. Arguments width {T}.
Arguments height {T}. Arguments x {T}. Arguments y {T}.
Arguments level {T}. Arguments parentId {T}. Arguments isFixed {T}.

Definition iterations : nat := 150.

Section WithNum.

Context {T : Type} `{Num T}.
Local Open Scope num_scope.

(** Layout constants. *)
Definition CENTER_X : T := #500.
Definition CENTER_Y : T := #500.
Definition MAIN_RADIUS : T := #300.
Definition CHILD_RADIUS : T := #100.

(** The decimal literals, as the correctly rounded quotients they denote. *)
Definition angleStep : T := #5 / #10.            (* 0.5 *)
Definition epsilonDistance : T := #1 / #10.      (* 0.1 *)
Definition repulsionStrength : T := #8 / #10.    (* 0.8 *)
Definition attractionStrength : T := #5 / #100.  (* 0.05 *)

Definition setXY (n : LayoutNode T) (x' y' : T) : LayoutNode T :=
  mkLayoutNode (id n) (label n) (width n) (height n) x' y'
               (level n) (parentId n) (isFixed n).

(** [estimateWidth], lines 40-44. *)
Definition estimateWidth (label : string) (level : Z) : T :=
  let basePadding := if (1 <? level)%Z then #24 else #40 in
  let charWidth := if (1 <? level)%Z then #7 else #9 in
  nmin #180 (basePadding + #(Z.of_nat (String.length label)) * charWidth).

(** Lines 47-55. *)
Definition centralNode (mindMapData : MindMapData) : LayoutNode T :=
  {| id := "central";
     label := centralTopic mindMapData;
     width := estimateWidth (centralTopic mindMapData) 0;
     height := #60;
     x := CENTER_X; y := CENTER_Y;
     level := 0;
     parentId := None;
     isFixed := true |}.

(** [layoutNodes[layoutNodes.length - 1]]; the array is never empty when it is
    read, the default stands for [undefined]. *)
Definition lastNode (layoutNodes : list (LayoutNode T)) : LayoutNode T :=
  last layoutNodes
       (mkLayoutNode EmptyString EmptyString #0 #0 #0 #0 0 None false).

(** The body of [mainNode.children.forEach((childNode, j) => ...)], lines
    73-87; [n] is [mainNode.children.length]. *)
Definition pushChild (mainId : string) (n : nat)
           (layoutNodes : list (LayoutNode T))
           (childNode : MindMapNode) (j : nat) : list (LayoutNode T) :=
  let parentAngle :=
    natan2 (y (lastNode layoutNodes) - CENTER_Y)
           (x (lastNode layoutNodes) - CENTER_X) in
  let childAngle :=
    parentAngle
    + (#(Z.of_nat j) - (#(Z.of_nat n) - #1) / #2) * angleStep in
  layoutNodes ++
  [ {| id := node_id childNode;
       label := node_label childNode;
       width := estimateWidth (node_label childNode) 2;
       height := #40;
       x := x (lastNode layoutNodes) + CHILD_RADIUS * ncos childAngle;
       y := y (lastNode layoutNodes) + CHILD_RADIUS * nsin childAngle;
       level := 2;
       parentId := Some mainId;
       isFixed := false |} ].

(** The callback of [mindMapData.nodes.forEach((mainNode, i) => ...)], lines
    58-89; [count] is [mindMapData.nodes.length]. *)
Definition pushMain (count : nat) (layoutNodes : list (LayoutNode T))
           (mainNode : MindMapNode) (i : nat) : list (LayoutNode T) :=
  let angle := #(Z.of_nat i) / #(Z.of_nat count) * #2 * npi in
  let layoutNodes1 :=
    layoutNodes ++
    [ {| id := node_id mainNode;
         label := node_label mainNode;
         width := estimateWidth (node_label mainNode) 1;
         height := #50;
         x := CENTER_X + MAIN_RADIUS * ncos angle;
         y := CENTER_Y + MAIN_RADIUS * nsin angle;
         level := 1;
         parentId := Some "central"%string;
         isFixed := false |} ] in
  match node_children mainNode with
  | Some children =>
      forEachIdx (pushChild (node_id mainNode) (List.length children))
                 children 0 layoutNodes1
  | None => layoutNodes1
  end.

(** Phase 1, lines 46-89: the seeded array. *)
Definition seedLayout (mindMapData : MindMapData) : list (LayoutNode T) :=
  forEachIdx (pushMain (List.length (nodes mindMapData)))
             (nodes mindMapData) 0 [centralNode mindMapData].

(** One pass of the body of the repulsion loops for the pair [(j, k)], lines
    100-124.  [nodeA] and [nodeB] are the array's own objects, so the updates
    are writes at [j] and [k]; the loops only produce [j < k]. *)
Definition repelPair (layoutNodes : list (LayoutNode T)) (j k : nat)
  : list (LayoutNode T) :=
  match nth_error layoutNodes j, nth_error layoutNodes k with
  | Some nodeA, Some nodeB =>
      let dx := x nodeA - x nodeB in
      let dy := y nodeA - y nodeB in
      let distance0 := nsqrt (dx * dx + dy * dy) in
      let distance :=
        if distance0 =? #0 then epsilonDistance else distance0 in
      let minDistance :=
        width nodeA / #2 + width nodeB / #2
        + (if ((level nodeA =? 2)%Z && (level nodeB =? 2)%Z)%bool
           then #15 else #30) in
      if distance <? minDistance then
        let force := repulsionStrength * (minDistance - distance) / distance in
        let moveX := dx * force in
        let moveY := dy * force in
        let layoutNodes1 :=
          if negb (isFixed nodeA)
          then update j (setXY nodeA (x nodeA + moveX) (y nodeA + moveY))
                      layoutNodes
          else layoutNodes in
        if negb (isFixed nodeB)
        then update k (setXY nodeB (x nodeB - moveX) (y nodeB - moveY))
                    layoutNodes1
        else layoutNodes1
      else layoutNodes
  | _, _ => layoutNodes
  end.

(** [for (let k = j + 1; k < layoutNodes.length; k++)], lines 99-125. *)
Definition repelRow (layoutNodes : list (LayoutNode T)) (j : nat)
  : list (LayoutNode T) :=
  fold_left (fun ns k => repelPair ns j k)
            (seq (S j) (List.length layoutNodes - S j)) layoutNodes.

(** [for (let j = 0; j < layoutNodes.length; j++)], lines 98-126. *)
Definition repelAll (layoutNodes : list (LayoutNode T))
  : list (LayoutNode T) :=
  fold_left repelRow (seq 0 (List.length layoutNodes)) layoutNodes.

(** A string used as a condition: the empty string is falsy. *)
Definition truthy (s : string) : bool :=
  match s with EmptyString => false | _ => true end.

(** The body of [for (const node of layoutNodes)] for the node at [idx],
    lines 130-149. *)
Definition attract (layoutNodes : list (LayoutNode T)) (idx : nat)
  : list (LayoutNode T) :=
  match nth_error layoutNodes idx with
  | Some node =>
      match parentId node with
      | Some pid =>
          if truthy pid then
            match find (fun p => String.eqb (id p) pid) layoutNodes with
            | Some parent =>
                let dx := x node - x parent in
                let dy := y node - y parent in
                let distance := nsqrt (dx * dx + dy * dy) in
                let desiredDistance :=
                  if (level node =? 1)%Z then MAIN_RADIUS else CHILD_RADIUS in
                if desiredDistance <? distance then
                  let force :=
                    attractionStrength * (distance - desiredDistance) in
                  let moveX := dx / distance * force in
                  let moveY := dy / distance * force in
                  if negb (isFixed node)
                  then update idx
                         (setXY node (x node - moveX) (y node - moveY))
                         layoutNodes
                  else layoutNodes
                else layoutNodes
            | None => layoutNodes
            end
          else layoutNodes
      | None => layoutNodes
      end
  | None => layoutNodes
  end.

Definition attractAll (layoutNodes : list (LayoutNode T))
  : list (LayoutNode T) :=
  fold_left attract (seq 0 (List.length layoutNodes)) layoutNodes.

(** One iteration of the simulation loop, lines 96-151. *)
Definition relaxOnce (layoutNodes : list (LayoutNode T))
  : list (LayoutNode T) :=
  attractAll (repelAll layoutNodes).

(** The array after [n] iterations of the simulation loop. *)
Fixpoint relax (n : nat) (layoutNodes : list (LayoutNode T))
  : list (LayoutNode T) :=
  match n with
  | O => layoutNodes
  | S n' => relax n' (relaxOnce layoutNodes)
  end.

(** [calculateLayout], lines 38-153. *)
Definition calculateLayout (mindMapData : MindMapData)
  : list (LayoutNode T) :=
  relax iterations (seedLayout mindMapData).

(** ** Fixed nodes never move *)

(** Case analysis on the guard of an update that otherwise leaves the array
    [ns] as it is. *)
Ltac on_guard ns :=
  match goal with
  | |- context [if ?c then _ else ns] => destruct c
  end.

(** Case analysis on every remaining conditional. *)
Ltac on_all_guards :=
  repeat match goal with
         | |- context [if ?c then _ else _] => destruct c
         end.

Lemma update_length {A : Type} (i : nat) (v : A) (l : list A) :
  List.length (update i v l) = List.length l.
Proof.
  revert i; induction l as [|a l IH]; intros [|i]; cbn; auto.
Qed.

Lemma nth_error_update_same {A : Type} (i : nat) (v a : A) (l : list A) :
  nth_error l i = Some a -> nth_error (update i v l) i = Some v.
Proof.
  revert i; induction l as [|b l IH]; intros [|i]; cbn; try discriminate; auto.
Qed.

Lemma nth_error_update_other {A : Type} (i i' : nat) (v : A) (l : list A) :
  i <> i' -> nth_error (update i v l) i' = nth_error l i'.
Proof.
  revert i i'; induction l as [|b l IH]; intros [|i] [|i'] Hne; cbn;
    try reflexivity; try congruence.
  apply IH; congruence.
Qed.

Lemma isFixed_setXY (n : LayoutNode T) (a b : T) :
  isFixed (setXY n a b) = isFixed n.
Proof. reflexivity. Qed.

(** A write at the index of a free node leaves every fixed node alone. *)
Lemma update_free_keeps_fixed (ns ns0 : list (LayoutNode T))
      (i j : nat) (n m m' : LayoutNode T) :
  nth_error ns0 i = Some n -> isFixed n = true ->
  nth_error ns0 j = Some m -> isFixed m = false ->
  nth_error ns i = Some n ->
  nth_error (update j m' ns) i = Some n.
Proof.
  intros Hi Hfix Hj Hfree Hcur.
  rewrite nth_error_update_other; [exact Hcur |].
  intros ->. rewrite Hi in Hj. injection Hj as ->. congruence.
Qed.

Lemma repelPair_keeps_fixed (ns : list (LayoutNode T)) (j k i : nat)
      (n : LayoutNode T) :
  nth_error ns i = Some n -> isFixed n = true ->
  nth_error (repelPair ns j k) i = Some n.
Proof.
  intros Hi Hfix. unfold repelPair.
  destruct (nth_error ns j) as [nodeA|] eqn:HA; [| exact Hi].
  destruct (nth_error ns k) as [nodeB|] eqn:HB; [| exact Hi].
  cbv zeta.
  on_guard ns; [| exact Hi].
  destruct (isFixed nodeA) eqn:FA; destruct (isFixed nodeB) eqn:FB; cbn [negb].
  - exact Hi.
  - eapply update_free_keeps_fixed; eauto.
  - eapply update_free_keeps_fixed; eauto.
  - eapply update_free_keeps_fixed; eauto.
    eapply update_free_keeps_fixed; eauto.
Qed.

Lemma attract_keeps_fixed (ns : list (LayoutNode T)) (idx i : nat)
      (n : LayoutNode T) :
  nth_error ns i = Some n -> isFixed n = true ->
  nth_error (attract ns idx) i = Some n.
Proof.
  intros Hi Hfix. unfold attract.
  destruct (nth_error ns idx) as [node|] eqn:Hn; [| exact Hi].
  destruct (parentId node) as [pid|]; [| exact Hi].
  destruct (truthy pid); [| exact Hi].
  destruct (find _ ns) as [parent|]; [| exact Hi].
  cbv zeta.
  on_guard ns; [| exact Hi].
  destruct (isFixed node) eqn:Fn; cbn [negb]; [exact Hi |].
  eapply update_free_keeps_fixed; eauto.
Qed.

Lemma repelPair_length (ns : list (LayoutNode T)) (j k : nat) :
  List.length (repelPair ns j k) = List.length ns.
Proof.
  unfold repelPair.
  destruct (nth_error ns j) as [nodeA|]; [| reflexivity].
  destruct (nth_error ns k) as [nodeB|]; [| reflexivity].
  cbv zeta.
  on_all_guards; rewrite ?update_length; reflexivity.
Qed.

Lemma attract_length (ns : list (LayoutNode T)) (idx : nat) :
  List.length (attract ns idx) = List.length ns.
Proof.
  unfold attract.
  destruct (nth_error ns idx) as [node|]; [| reflexivity].
  destruct (parentId node) as [pid|]; [| reflexivity].
  destruct (truthy pid); [| reflexivity].
  destruct (find _ ns) as [parent|]; [| reflexivity].
  cbv zeta.
  on_all_guards; rewrite ?update_length; reflexivity.
Qed.

(** Folding updates that each keep the fixed nodes keeps them. *)
Lemma fold_keeps_fixed {I : Type}
      (f : list (LayoutNode T) -> I -> list (LayoutNode T)) (i : nat)
      (n : LayoutNode T) :
  (forall ns a, nth_error ns i = Some n -> nth_error (f ns a) i = Some n) ->
  forall (l : list I) (ns : list (LayoutNode T)),
    nth_error ns i = Some n -> nth_error (fold_left f l ns) i = Some n.
Proof.
  intros Hf l; induction l as [|a l IH]; intros ns Hi; cbn; auto.
Qed.

Lemma repelAll_keeps_fixed (ns : list (LayoutNode T)) (i : nat)
      (n : LayoutNode T) :
  nth_error ns i = Some n -> isFixed n = true ->
  nth_error (repelAll ns) i = Some n.
Proof.
  intros Hi Hfix. unfold repelAll.
  apply fold_keeps_fixed; [| exact Hi].
  intros ns' j Hi'. unfold repelRow.
  apply fold_keeps_fixed; [| exact Hi'].
  intros ns'' k Hi''. apply repelPair_keeps_fixed; assumption.
Qed.

Lemma attractAll_keeps_fixed (ns : list (LayoutNode T)) (i : nat)
      (n : LayoutNode T) :
  nth_error ns i = Some n -> isFixed n = true ->
  nth_error (attractAll ns) i = Some n.
Proof.
  intros Hi Hfix. unfold attractAll.
  apply fold_keeps_fixed; [| exact Hi].
  intros ns' j Hi'. apply attract_keeps_fixed; assumption.
Qed.

Lemma relax_keeps_fixed (m : nat) (ns : list (LayoutNode T)) (i : nat)
      (n : LayoutNode T) :
  nth_error ns i = Some n -> isFixed n = true ->
  nth_error (relax m ns) i = Some n.
Proof.
  revert ns; induction m as [|m IH]; intros ns Hi Hfix; cbn; [exact Hi |].
  apply IH; [| exact Hfix].
  unfold relaxOnce.
  apply attractAll_keeps_fixed; [| exact Hfix].
  apply repelAll_keeps_fixed; assumption.
Qed.

(** ** The flags are never written *)

Lemma map_update {A B : Type} (f : A -> B) (i : nat) (v : A) (l : list A)
      (b : B) :
  nth_error (map f l) i = Some b -> f v = b ->
  map f (update i v l) = map f l.
Proof.
  revert i; induction l as [|a l IH]; intros [|i] Hi Hv; cbn in *;
    try reflexivity.
  - injection Hi as <-. now rewrite Hv.
  - f_equal. now apply IH.
Qed.

Lemma update_setXY_flags (ns ns0 : list (LayoutNode T)) (i : nat)
      (n : LayoutNode T) (a b : T) :
  map isFixed ns = map isFixed ns0 ->
  nth_error ns0 i = Some n ->
  map isFixed (update i (setXY n a b) ns) = map isFixed ns0.
Proof.
  intros Hm Hi. rewrite <- Hm.
  apply map_update with (b := isFixed n); [| reflexivity].
  rewrite Hm. now apply map_nth_error.
Qed.

Lemma repelPair_flags (ns : list (LayoutNode T)) (j k : nat) :
  map isFixed (repelPair ns j k) = map isFixed ns.
Proof.
  unfold repelPair.
  destruct (nth_error ns j) as [nodeA|] eqn:HA; [| reflexivity].
  destruct (nth_error ns k) as [nodeB|] eqn:HB; [| reflexivity].
  cbv zeta.
  on_guard ns; [| reflexivity].
  destruct (negb (isFixed nodeA)); destruct (negb (isFixed nodeB));
    repeat (apply update_setXY_flags; [| eassumption]); reflexivity.
Qed.

Lemma attract_flags (ns : list (LayoutNode T)) (idx : nat) :
  map isFixed (attract ns idx) = map isFixed ns.
Proof.
  unfold attract.
  destruct (nth_error ns idx) as [node|] eqn:Hn; [| reflexivity].
  destruct (parentId node) as [pid|]; [| reflexivity].
  destruct (truthy pid); [| reflexivity].
  destruct (find _ ns) as [parent|]; [| reflexivity].
  cbv zeta.
  on_guard ns; [| reflexivity].
  destruct (negb (isFixed node)); [| reflexivity].
  apply update_setXY_flags; [reflexivity | exact Hn].
Qed.

Lemma fold_flags {I : Type}
      (f : list (LayoutNode T) -> I -> list (LayoutNode T)) :
  (forall ns a, map isFixed (f ns a) = map isFixed ns) ->
  forall (l : list I) (ns : list (LayoutNode T)),
    map isFixed (fold_left f l ns) = map isFixed ns.
Proof.
  intros Hf l; induction l as [|a l IH]; intros ns; cbn; [reflexivity |].
  now rewrite IH.
Qed.

Lemma relaxOnce_flags (ns : list (LayoutNode T)) :
  map isFixed (relaxOnce ns) = map isFixed ns.
Proof.
  unfold relaxOnce, attractAll, repelAll.
  rewrite (fold_flags _ attract_flags).
  apply fold_flags. intros ns' j. unfold repelRow.
  apply fold_flags. intros ns'' k. apply repelPair_flags.
Qed.

Lemma relax_flags (m : nat) (ns : list (LayoutNode T)) :
  map isFixed (relax m ns) = map isFixed ns.
Proof.
  revert ns; induction m as [|m IH]; intros ns; cbn; [reflexivity |].
  now rewrite IH, relaxOnce_flags.
Qed.

(** ** The seeded array *)

Definition free (n : LayoutNode T) : Prop := isFixed n = false.

Lemma forEach_pushChild_appends (mainId : string) (n : nat)
      (children : list MindMapNode) (j : nat) (ns : list (LayoutNode T)) :
  exists added,
    forEachIdx (pushChild mainId n) children j ns = ns ++ added
    /\ Forall free added
    /\ List.length added = List.length children.
Proof.
  revert j ns; induction children as [|c cs IH]; intros j ns; cbn.
  - exists []. now rewrite app_nil_r.
  - destruct (IH (S j) (pushChild mainId n ns c j)) as (added & -> & Hf & Hl).
    unfold pushChild at 1. rewrite <- app_assoc.
    eexists; split; [reflexivity |]. split.
    + constructor; [reflexivity | exact Hf].
    + cbn. now rewrite Hl.
Qed.

Lemma pushMain_appends (count : nat) (ns : list (LayoutNode T))
      (mainNode : MindMapNode) (i : nat) :
  exists added, pushMain count ns mainNode i = ns ++ added /\ Forall free added.
Proof.
  unfold pushMain.
  destruct (node_children mainNode) as [children|].
  - match goal with
    | |- context [forEachIdx ?f children 0 ?l] =>
        destruct (forEach_pushChild_appends (node_id mainNode)
                    (List.length children) children 0 l)
          as (added & -> & Hf & _)
    end.
    rewrite <- app_assoc.
    eexists; split; [reflexivity |].
    constructor; [reflexivity | exact Hf].
  - eexists; split; [reflexivity |].
    constructor; [reflexivity | constructor].
Qed.

Lemma forEach_pushMain_appends (count : nat) (mains : list MindMapNode)
      (i : nat) (ns : list (LayoutNode T)) :
  exists added,
    forEachIdx (pushMain count) mains i ns = ns ++ added /\ Forall free added.
Proof.
  revert i ns; induction mains as [|m ms IH]; intros i ns; cbn.
  - exists []. now rewrite app_nil_r.
  - destruct (pushMain_appends count ns m i) as (a1 & -> & H1).
    destruct (IH (S i) (ns ++ a1)) as (a2 & -> & H2).
    rewrite <- app_assoc.
    eexists; split; [reflexivity |].
    apply Forall_app; now split.
Qed.

Lemma seedLayout_shape (g : MindMapData) :
  exists rest, seedLayout g = centralNode g :: rest /\ Forall free rest.
Proof.
  unfold seedLayout.
  destruct (forEach_pushMain_appends (List.length (nodes g)) (nodes g) 0
              [centralNode g]) as (added & -> & Hf).
  now exists added.
Qed.

(** C7.  After seeding and after any number [m] of relaxation iterations
    (the code runs [iterations = 150] of them) the first node of the array is
    the central node, still at the canvas centre (500, 500) and fixed, and it
    is the only fixed node; and neither a repulsion update nor an attraction
    update changes a node whose fixed flag is set. *)
Theorem central_node_never_moves (g : MindMapData) (m : nat) :
  (exists c rest,
      relax m (seedLayout g) = c :: rest
      /\ c = centralNode g
      /\ x c = #500 /\ y c = #500 /\ isFixed c = true
      /\ Forall free rest)
  /\ (forall ns j k i n,
         nth_error ns i = Some n -> isFixed n = true ->
         nth_error (repelPair ns j k) i = Some n)
  /\ (forall ns idx i n,
         nth_error ns i = Some n -> isFixed n = true ->
         nth_error (attract ns idx) i = Some n).
Proof.
  split; [| split].
  - destruct (seedLayout_shape g) as (rest0 & Hseed & Hfree).
    pose proof (relax_keeps_fixed m (seedLayout g) 0 (centralNode g)) as H0.
    rewrite Hseed in H0 at 1. specialize (H0 eq_refl eq_refl).
    pose proof (relax_flags m (seedLayout g)) as Hflags.
    destruct (relax m (seedLayout g)) as [|c rest]; [discriminate |].
    cbn in H0. injection H0 as ->.
    exists (centralNode g), rest. repeat split.
    rewrite Hseed in Hflags. cbn in Hflags. injection Hflags as Hflags.
    clear Hseed. revert rest0 Hfree Hflags.
    induction rest as [|r rest IH]; intros [|r0 rest0] Hfree Hflags;
      cbn in Hflags; try discriminate; constructor.
    + injection Hflags as Hr _. inversion Hfree; subst.
      unfold free in *. congruence.
    + injection Hflags as _ Hrest. inversion Hfree; subst.
      now apply (IH rest0).
  - intros ns j k i n. apply repelPair_keeps_fixed.
  - intros ns idx i n. apply attract_keeps_fixed.
Qed.

(** ** The simulation loops as a machine

    The three nested [for] loops and the [for ... of] loop of lines 96-151,
    one transition per loop test; the loop tests read [layoutNodes.length]
    each time they are evaluated. *)

Inductive pc : Type :=
| LoopI (i : nat)               (* at [i < iterations] *)
| LoopJ (i j : nat)             (* at [j < layoutNodes.length] *)
| LoopK (i j k : nat)           (* at [k < layoutNodes.length] *)
| LoopA (i idx : nat)           (* at the next node of [for ... of] *)
| Done.                         (* at [return layoutNodes] *)

Definition config : Type := (pc * list (LayoutNode T))%type.

Inductive step : config -> config -> Prop :=
| step_i_enter (i : nat) (ns : list (LayoutNode T)) :
    (i < iterations)%nat ->
    step (LoopI i, ns) (LoopJ i 0, ns)
| step_i_exit (i : nat) (ns : list (LayoutNode T)) :
    ~ (i < iterations)%nat ->
    step (LoopI i, ns) (Done, ns)
| step_j_enter (i j : nat) (ns : list (LayoutNode T)) :
    (j < List.length ns)%nat ->
    step (LoopJ i j, ns) (LoopK i j (S j), ns)
| step_j_exit (i j : nat) (ns : list (LayoutNode T)) :
    ~ (j < List.length ns)%nat ->
    step (LoopJ i j, ns) (LoopA i 0, ns)
| step_k_body (i j k : nat) (ns : list (LayoutNode T)) :
    (k < List.length ns)%nat ->
    step (LoopK i j k, ns) (LoopK i j (S k), repelPair ns j k)
| step_k_exit (i j k : nat) (ns : list (LayoutNode T)) :
    ~ (k < List.length ns)%nat ->
    step (LoopK i j k, ns) (LoopJ i (S j), ns)
| step_a_body (i idx : nat) (ns : list (LayoutNode T)) :
    (idx < List.length ns)%nat ->
    step (LoopA i idx, ns) (LoopA i (S idx), attract ns idx)
| step_a_exit (i idx : nat) (ns : list (LayoutNode T)) :
    ~ (idx < List.length ns)%nat ->
    step (LoopA i idx, ns) (LoopI (S i), ns).

Inductive steps : config -> config -> Prop :=
| steps_refl (c : config) : steps c c
| steps_cons (c1 c2 c3 : config) : step c1 c2 -> steps c2 c3 -> steps c1 c3.

(** A run of [calculateLayout]: seed, then execute the loops to [return]. *)
Definition runs (mindMapData : MindMapData) (out : list (LayoutNode T))
  : Prop :=
  steps (LoopI 0, seedLayout mindMapData) (Done, out).

(** The coordinates of every node, in array order. *)
Definition coordinates (ns : list (LayoutNode T)) : list (string * T * T) :=
  map (fun n => (id n, x n, y n)) ns.

Lemma step_deterministic (c c1 c2 : config) :
  step c c1 -> step c c2 -> c1 = c2.
Proof.
  intros H1 H2.
  inversion H1; subst; inversion H2; subst;
    try reflexivity; contradiction.
Qed.

Lemma done_is_final (ns : list (LayoutNode T)) (c : config) :
  ~ step (Done, ns) c.
Proof. intros Hs. inversion Hs. Qed.

Lemma steps_to_done_unique (c : config) (o1 o2 : list (LayoutNode T)) :
  steps c (Done, o1) -> steps c (Done, o2) -> o1 = o2.
Proof.
  intros H1. remember (Done, o1) as d eqn:Hd.
  revert Hd. induction H1 as [c|c c2 c3 Hs _ IH]; intros Hd H2.
  - subst c. inversion H2 as [|? c2 ? Hs]; subst.
    + reflexivity.
    + exfalso. exact (done_is_final _ _ Hs).
  - inversion H2 as [|? c2' ? Hs']; subst.
    + exfalso. exact (done_is_final _ _ Hs).
    + rewrite (step_deterministic _ _ _ Hs Hs') in IH. now apply IH.
Qed.

Lemma steps_trans (c1 c2 c3 : config) :
  steps c1 c2 -> steps c2 c3 -> steps c1 c3.
Proof.
  induction 1 as [|? ? ? Hs _ IH]; intros H2; [exact H2 |].
  eapply steps_cons; [exact Hs | now apply IH].
Qed.

Lemma fold_length {I : Type}
      (f : list (LayoutNode T) -> I -> list (LayoutNode T)) :
  (forall ns a, List.length (f ns a) = List.length ns) ->
  forall (l : list I) (ns : list (LayoutNode T)),
    List.length (fold_left f l ns) = List.length ns.
Proof.
  intros Hf l; induction l as [|a l IH]; intros ns; cbn; [reflexivity |].
  now rewrite IH.
Qed.

Lemma repelRow_length (ns : list (LayoutNode T)) (j : nat) :
  List.length (repelRow ns j) = List.length ns.
Proof.
  unfold repelRow. apply fold_length. intros; apply repelPair_length.
Qed.

Lemma loopK_runs (i j : nat) :
  forall (n k : nat) (ns : list (LayoutNode T)),
    n = (List.length ns - k)%nat ->
    steps (LoopK i j k, ns)
          (LoopJ i (S j), fold_left (fun l k' => repelPair l j k') (seq k n) ns).
Proof.
  induction n as [|n IH]; intros k ns Hn.
  - cbn. eapply steps_cons; [| apply steps_refl].
    apply step_k_exit. lia.
  - cbn. eapply steps_cons; [apply step_k_body; lia |].
    apply IH. rewrite repelPair_length. lia.
Qed.

Lemma loopJ_runs (i : nat) :
  forall (n j : nat) (ns : list (LayoutNode T)),
    n = (List.length ns - j)%nat ->
    steps (LoopJ i j, ns) (LoopA i 0, fold_left repelRow (seq j n) ns).
Proof.
  induction n as [|n IH]; intros j ns Hn.
  - cbn. eapply steps_cons; [| apply steps_refl].
    apply step_j_exit. lia.
  - cbn. eapply steps_cons; [apply step_j_enter; lia |].
    eapply steps_trans; [apply (loopK_runs i j _ (S j) ns eq_refl) |].
    apply IH. rewrite repelRow_length. lia.
Qed.

Lemma loopA_runs (i : nat) :
  forall (n idx : nat) (ns : list (LayoutNode T)),
    n = (List.length ns - idx)%nat ->
    steps (LoopA i idx, ns) (LoopI (S i), fold_left attract (seq idx n) ns).
Proof.
  induction n as [|n IH]; intros idx ns Hn.
  - cbn. eapply steps_cons; [| apply steps_refl].
    apply step_a_exit. lia.
  - cbn. eapply steps_cons; [apply step_a_body; lia |].
    apply IH. rewrite attract_length. lia.
Qed.

Lemma loopI_runs :
  forall (n i : nat) (ns : list (LayoutNode T)),
    n = (iterations - i)%nat ->
    steps (LoopI i, ns) (Done, relax n ns).
Proof.
  induction n as [|n IH]; intros i ns Hn.
  - cbn [relax]. eapply steps_cons; [| apply steps_refl].
    apply step_i_exit. lia.
  - cbn [relax]. eapply steps_cons; [apply step_i_enter; lia |].
    eapply steps_trans.
    { apply (loopJ_runs i (List.length ns) 0 ns). lia. }
    eapply steps_trans.
    { apply (loopA_runs i (List.length (repelAll ns)) 0 (repelAll ns)). lia. }
    apply IH. lia.
Qed.

(** C5.  The layout is deterministic: on every graph the loops, run from the
    seeded array, reach [return] with the array [calculateLayout] computes,
    and any two runs on the same graph return the same array, hence the same
    coordinates for every node; nothing but the graph and the constants
    enters the result. *)
Theorem layout_deterministic (mindMapData : MindMapData) :
  runs mindMapData (calculateLayout mindMapData)
  /\ (forall out1 out2 : list (LayoutNode T),
         runs mindMapData out1 -> runs mindMapData out2 ->
         out1 = out2 /\ coordinates out1 = coordinates out2).
Proof.
  split.
  - unfold runs, calculateLayout. now apply loopI_runs.
  - intros out1 out2 H1 H2.
    assert (out1 = out2) as -> by (eapply steps_to_done_unique; eassumption).
    split; reflexivity.
Qed.

End WithNum.

(** ** The layout over the real numbers *)

Section OverReals.

Local Open Scope R_scope.

(** [Math.atan2(y, x)] on the reals (the sign of a zero is not represented). *)
Definition Ratan2 (y0 x0 : R) : R :=
  if Rlt_dec 0 x0 then atan (y0 / x0)
  else if Rlt_dec x0 0 then
         if Rle_dec 0 y0 then atan (y0 / x0) + PI else atan (y0 / x0) - PI
       else if Rlt_dec 0 y0 then PI / 2
            else if Rlt_dec y0 0 then - (PI / 2) else 0.

#[export] Instance RNum : Num R := {|
  nofZ := IZR;
  nadd := Rplus;
  nsub := Rminus;
  nmul := Rmult;
  ndiv := Rdiv;
  nsqrt := sqrt;
  ncos := cos;
  nsin := sin;
  natan2 := Ratan2;
  nmin := Rmin;
  nlt := fun a b => if Rlt_dec a b then true else false;
  neq := fun a b => if Req_dec_T a b then true else false;
  npi := PI
|}.

(** Euclidean distance between two layout nodes. *)
Definition dist (a b : LayoutNode R) : R :=
  sqrt ((x a - x b) * (x a - x b) + (y a - y b) * (y a - y b)).

(** The angle [pushChild] gives to child [j] of [n], from the angle of the
    node it takes as the parent. *)
Definition childAngleOf (anchor : LayoutNode R) (j n : nat) : R :=
  Ratan2 (y anchor - 500) (x anchor - 500)
  + (INR j - (INR n - 1) / 2) * (5 / 10).

(** One main topic with two children. *)
Definition twoChildren : MindMapData :=
  mkMindMapData "c"
    [mkMindMapNode "m" "m"
       (Some [mkMindMapNode "a" "a" None; mkMindMapNode "b" "b" None])].

Lemma circle_point_distance (px py a : R) :
  sqrt ((px + 100 * cos a - px) * (px + 100 * cos a - px)
        + (py + 100 * sin a - py) * (py + 100 * sin a - py)) = 100.
Proof.
  replace ((px + 100 * cos a - px) * (px + 100 * cos a - px)
           + (py + 100 * sin a - py) * (py + 100 * sin a - py))
    with (100 * 100 * (Rsqr (sin a) + Rsqr (cos a)))
    by (unfold Rsqr; ring).
  rewrite sin2_cos2, Rmult_1_r.
  apply sqrt_square. lra.
Qed.

Lemma pushChild_seeds_around_last (mainId : string) (n : nat)
      (ns : list (LayoutNode R)) (child : MindMapNode) (j : nat) :
  exists c,
    pushChild mainId n ns child j = ns ++ [c]
    /\ id c = node_id child
    /\ parentId c = Some mainId
    /\ x c = x (lastNode ns) + 100 * cos (childAngleOf (lastNode ns) j n)
    /\ y c = y (lastNode ns) + 100 * sin (childAngleOf (lastNode ns) j n)
    /\ dist c (lastNode ns) = 100.
Proof.
  unfold pushChild. eexists. split; [reflexivity |].
  cbn [x y id parentId]. unfold childAngleOf, dist. cbn [x y].
  rewrite !INR_IZR_INZ.
  repeat split.
  apply circle_point_distance.
Qed.


Lemma Ratan2_fourth_quadrant (y0 x0 : R) :
  0 < x0 -> y0 < 0 -> - (PI / 2) < Ratan2 y0 x0 < 0.
Proof.
  intros Hx Hy. unfold Ratan2.
  destruct (Rlt_dec 0 x0) as [_|Hn]; [| contradiction].
  assert (Hq : y0 / x0 < 0).
  { unfold Rdiv. pose proof (Rinv_0_lt_compat x0 Hx). nra. }
  split.
  - pose proof (atan_bound (y0 / x0)) as [Hl _]. lra.
  - rewrite <- atan_0. now apply atan_increasing.
Qed.

Lemma Ratan2_positive_axis (x0 : R) : 0 < x0 -> Ratan2 0 x0 = 0.
Proof.
  intros Hx. unfold Ratan2.
  destruct (Rlt_dec 0 x0) as [_|Hn]; [| contradiction].
  unfold Rdiv. rewrite Rmult_0_l. apply atan_0.
Qed.

(** Two steps of length 100 whose directions differ by less than a right
    angle end further than 100 from the start. *)
Lemma two_steps_leave_circle (px py a b : R) :
  0 < cos (b - a) ->
  sqrt ((px + 100 * cos a + 100 * cos b - px)
        * (px + 100 * cos a + 100 * cos b - px)
        + (py + 100 * sin a + 100 * sin b - py)
          * (py + 100 * sin a + 100 * sin b - py)) <> 100.
Proof.
  intros Hc.
  match goal with |- sqrt ?d <> _ => set (D := d) end.
  assert (HD : D = 10000 * (2 + 2 * cos (b - a))).
  { rewrite cos_minus.
    replace 2 with ((Rsqr (sin a) + Rsqr (cos a))
                    + (Rsqr (sin b) + Rsqr (cos b))) at 1
      by (rewrite !sin2_cos2; ring).
    subst D. unfold Rsqr. ring. }
  intros Hs.
  assert (H0 : 0 <= D) by (rewrite HD; lra).
  pose proof (sqrt_sqrt D H0) as Hsq.
  rewrite Hs in Hsq. lra.
Qed.

(** The first child of a main topic is seeded around the main topic: it is
    pushed right after it. *)
Lemma first_child_on_parent_circle (count i : nat)
      (ns : list (LayoutNode R)) (mainNode c0 : MindMapNode)
      (cs : list MindMapNode) :
  node_children mainNode = Some (c0 :: cs) ->
  exists m c rest,
    pushMain count ns mainNode i = ns ++ m :: c :: rest
    /\ id m = node_id mainNode
    /\ id c = node_id c0
    /\ x c = x m + 100 * cos (childAngleOf m 0 (S (List.length cs)))
    /\ y c = y m + 100 * sin (childAngleOf m 0 (S (List.length cs)))
    /\ dist c m = 100.
Proof.
  intros Hc. unfold pushMain. rewrite Hc. cbn [forEachIdx List.length].
  match goal with
  | |- context [pushChild _ _ (ns ++ [?mm]) c0 0] => set (m := mm)
  end.
  destruct (pushChild_seeds_around_last (node_id mainNode)
              (S (List.length cs)) (ns ++ [m]) c0 0)
    as (c & Hpush & Hid & _ & Hx & Hy & Hd).
  rewrite Hpush.
  destruct (forEach_pushChild_appends (node_id mainNode)
              (S (List.length cs)) cs 1 ((ns ++ [m]) ++ [c]))
    as (rest & -> & _ & _).
  unfold lastNode in Hx, Hy, Hd. rewrite last_last in Hx, Hy, Hd.
  exists m, c, rest. rewrite <- !app_assoc. cbn [app].
  repeat split; assumption.
Qed.

(** C1 at a failing input.  For one main topic with two children, the seeded
    array is [central; m; a; b]: the main topic [m] sits at (800, 500), its
    first child [a] is at distance 100 from [m], but the second child [b] is
    seeded at distance 100 from [a], the node pushed just before it, and its
    distance from its parent [m] is not 100. *)
Theorem second_child_off_parent_circle :
  exists c m a b,
    seedLayout twoChildren = [c; m; a; b]
    /\ parentId a = Some (id m) /\ parentId b = Some (id m)
    /\ x m = 800 /\ y m = 500
    /\ dist a m = 100
    /\ dist b a = 100
    /\ dist b m <> 100.
Proof.
  unfold seedLayout.
  cbn -[estimateWidth cos sin Ratan2 PI IZR].
  replace (0 / 1 * 2 * PI) with 0 by field.
  rewrite cos_0, sin_0.
  replace (500 + 300 * 0 - 500) with 0 by ring.
  replace (500 + 300 * 1 - 500) with 300 by ring.
  rewrite (Ratan2_positive_axis 300) by lra.
  replace (500 + 300 * 1) with 800 by ring.
  replace (500 + 300 * 0) with 500 by ring.
  replace (0 + (0 - (2 - 1) / 2) * (5 / 10)) with (- (1 / 4)) by field.
  set (a0 := - (1 / 4)).
  set (th := Ratan2 (500 + 100 * sin a0 - 500) (800 + 100 * cos a0 - 500)).
  do 4 eexists. split; [reflexivity |].
  cbn [x y id parentId]. unfold dist. cbn [x y].
  repeat split.
  - apply circle_point_distance.
  - apply circle_point_distance.
  - apply two_steps_leave_circle.
    assert (Hsin : sin a0 < 0).
    { subst a0. rewrite sin_neg.
      assert (0 < sin (1 / 4)); [| lra].
      apply sin_gt_0; [lra |]. pose proof PI2_1. lra. }
    assert (Hth : - (PI / 2) < th < 0).
    { subst th. apply Ratan2_fourth_quadrant; [| lra].
      pose proof (COS_bound a0) as [Hlo _]. lra. }
    pose proof PI2_1.
    apply cos_gt_0; subst a0; lra.
Qed.

Lemma central_node_never_moves_witness :
  (exists c rest,
      calculateLayout twoChildren = c :: rest /\ x c = 500 /\ y c = 500)
  /\ nth_error (repelPair (seedLayout twoChildren) 0 1) 0
     = Some (centralNode twoChildren)
  /\ nth_error (attract (seedLayout twoChildren) 0) 0
     = Some (centralNode twoChildren).
Proof.
  pose proof (central_node_never_moves (T := R) twoChildren iterations)
    as (Hc & Hr & Ha).
  split; [| split].
  - destruct Hc as (c & rest & E & _ & Hx & Hy & _).
    exists c, rest. repeat split; assumption.
  - apply Hr; reflexivity.
  - apply Ha; reflexivity.
Defined.

Lemma layout_deterministic_witness :
  exists out : list (LayoutNode R),
    runs twoChildren out
    /\ forall out', runs twoChildren out' -> coordinates out' = coordinates out.
Proof.
  pose proof (layout_deterministic (T := R) twoChildren) as (Hrun & Huniq).
  exists (calculateLayout twoChildren). split; [exact Hrun |].
  intros out' Hout'. exact (proj2 (Huniq out' _ Hout' Hrun)).
Defined.

End OverReals.

(** ** What the simulation keeps, and what its forces do *)

(** The guard of a force: the branch that leaves [ns] as it is. *)
Ltac case_guard ns :=
  match goal with
  | |- context [if ?c then _ else ns] => destruct c
  end.

Section Skeleton.
Context {T : Type} `{Num T}.

(** Everything of a node but its coordinates. *)
Definition frame (n : LayoutNode T)
  : string * string * T * T * Z * option string * bool :=
  (id n, label n, width n, height n, level n, parentId n, isFixed n).

(** The nodes of the graph, all but their coordinates, in the order the
    seeding visits them. *)
Definition graphFrames (g : MindMapData)
  : list (string * string * T * T * Z * option string * bool) :=
  ("central"%string, centralTopic g, estimateWidth (centralTopic g) 0,
   nofZ 60, 0%Z, None, true)
  :: flat_map
       (fun m =>
          (node_id m, node_label m, estimateWidth (node_label m) 1,
           nofZ 50, 1%Z, Some "central"%string, false)
          :: match node_children m with
             | Some cs =>
                 map (fun c =>
                        (node_id c, node_label c,
                         estimateWidth (node_label c) 2,
                         nofZ 40, 2%Z, Some (node_id m), false)) cs
             | None => []
             end)
       (nodes g).

Lemma update_same {A : Type} (i : nat) (a : A) (l : list A) :
  nth_error l i = Some a -> update i a l = l.
Proof.
  revert i; induction l as [|b l IH]; intros [|i] Hi; cbn in *;
    try discriminate; try reflexivity.
  - now injection Hi as ->.
  - f_equal. now apply IH.
Qed.

Lemma update_setXY_frame (ns ns0 : list (LayoutNode T)) (i : nat)
      (n : LayoutNode T) (a b : T) :
  map frame ns = map frame ns0 ->
  nth_error ns0 i = Some n ->
  map frame (update i (setXY n a b) ns) = map frame ns0.
Proof.
  intros Hm Hi. rewrite <- Hm.
  apply map_update with (b := frame n); [| reflexivity].
  rewrite Hm. now apply map_nth_error.
Qed.

Lemma repelPair_frame (ns : list (LayoutNode T)) (j k : nat) :
  map frame (repelPair ns j k) = map frame ns.
Proof.
  unfold repelPair.
  destruct (nth_error ns j) as [nodeA|] eqn:HA; [| reflexivity].
  destruct (nth_error ns k) as [nodeB|] eqn:HB; [| reflexivity].
  cbv zeta. case_guard ns; [| reflexivity].
  destruct (negb (isFixed nodeA)); destruct (negb (isFixed nodeB));
    repeat (apply update_setXY_frame; [| eassumption]); reflexivity.
Qed.

Lemma attract_frame (ns : list (LayoutNode T)) (idx : nat) :
  map frame (attract ns idx) = map frame ns.
Proof.
  unfold attract.
  destruct (nth_error ns idx) as [node|] eqn:Hn; [| reflexivity].
  destruct (parentId node) as [pid|]; [| reflexivity].
  destruct (truthy pid); [| reflexivity].
  destruct (find _ ns) as [parent|]; [| reflexivity].
  cbv zeta. case_guard ns; [| reflexivity].
  destruct (negb (isFixed node)); [| reflexivity].
  apply update_setXY_frame; [reflexivity | exact Hn].
Qed.

Lemma fold_frame {I : Type}
      (f : list (LayoutNode T) -> I -> list (LayoutNode T)) :
  (forall ns a, map frame (f ns a) = map frame ns) ->
  forall (l : list I) (ns : list (LayoutNode T)),
    map frame (fold_left f l ns) = map frame ns.
Proof.
  intros Hf l; induction l as [|a l IH]; intros ns; cbn; [reflexivity |].
  now rewrite IH.
Qed.

Lemma relax_frame (m : nat) (ns : list (LayoutNode T)) :
  map frame (relax m ns) = map frame ns.
Proof.
  revert ns; induction m as [|m IH]; intros ns; cbn; [reflexivity |].
  rewrite IH. unfold relaxOnce, attractAll, repelAll.
  rewrite (fold_frame _ attract_frame).
  apply fold_frame. intros ns' j. unfold repelRow.
  apply fold_frame. intros ns'' k. apply repelPair_frame.
Qed.

Lemma forEach_pushChild_frames (mainId : string) (n : nat)
      (children : list MindMapNode) (j : nat) (ns : list (LayoutNode T)) :
  map frame (forEachIdx (pushChild mainId n) children j ns)
  = map frame ns
    ++ map (fun c =>
              (node_id c, node_label c, estimateWidth (node_label c) 2,
               nofZ 40, 2%Z, Some mainId, false)) children.
Proof.
  revert j ns; induction children as [|c cs IH]; intros j ns; cbn.
  - now rewrite app_nil_r.
  - rewrite IH. unfold pushChild. rewrite map_app, <- app_assoc. reflexivity.
Qed.

Lemma forEach_pushMain_frames (count : nat) (mains : list MindMapNode)
      (i : nat) (ns : list (LayoutNode T)) :
  map frame (forEachIdx (pushMain count) mains i ns)
  = map frame ns
    ++ flat_map
         (fun m =>
            (node_id m, node_label m, estimateWidth (node_label m) 1,
             nofZ 50, 1%Z, Some "central"%string, false)
            :: match node_children m with
               | Some cs =>
                   map (fun c =>
                          (node_id c, node_label c,
                           estimateWidth (node_label c) 2,
                           nofZ 40, 2%Z, Some (node_id m), false)) cs
               | None => []
               end)
         mains.
Proof.
  revert i ns; induction mains as [|m ms IH]; intros i ns; cbn.
  - now rewrite app_nil_r.
  - rewrite IH. unfold pushMain.
    destruct (node_children m) as [cs|].
    + rewrite forEach_pushChild_frames, map_app, <- !app_assoc. reflexivity.
    + rewrite map_app, <- !app_assoc. reflexivity.
Qed.

Lemma seedLayout_frames (g : MindMapData) :
  map frame (seedLayout g) = graphFrames g.
Proof.
  unfold seedLayout, graphFrames.
  now rewrite forEach_pushMain_frames.
Qed.

Lemma layout_frames (g : MindMapData) :
  map frame (calculateLayout g) = graphFrames g.
Proof.
  unfold calculateLayout. rewrite relax_frame. apply seedLayout_frames.
Qed.

(** X5.  The simulation moves nodes and does nothing else.  The array returned
    has one node for the central topic, then, for each main topic in order,
    one node for it followed by one for each of its children; each node has
    the id and label of its topic, the estimated size for its level, its
    level, the id of its parent ("central" for a main topic) and the fixed
    flag of the seeding.  A main topic without a children array is as one
    with an empty array. *)
Theorem calculateLayout_frames (g : MindMapData) :
  map frame (calculateLayout g) = graphFrames g
  /\ List.length (calculateLayout g)
     = S (list_sum
            (map (fun m =>
                    S (match node_children m with
                       | Some cs => List.length cs
                       | None => 0%nat
                       end))
                 (nodes g))).
Proof.
  pose proof (layout_frames g) as Hf.
  split; [exact Hf |].
  rewrite <- (length_map frame), Hf. unfold graphFrames. cbn [List.length].
  f_equal. induction (nodes g) as [|m ms IH]; [reflexivity |].
  cbn [flat_map map list_sum]. rewrite length_app, IH. cbn [List.length].
  destruct (node_children m); now rewrite ?length_map.
Qed.
End Skeleton.

Section Forces.
Local Open Scope R_scope.

Lemma setXY_same (n : LayoutNode R) : setXY n (x n) (y n) = n.
Proof. now destruct n. Qed.

(** X7.  Two nodes at the very same point are not pushed apart: the substitute
    distance 0.1 only enters the force, which multiplies a zero offset. *)
Theorem repelPair_coincident_nodes_stay (ns : list (LayoutNode R))
        (j k : nat) (nodeA nodeB : LayoutNode R) :
  nth_error ns j = Some nodeA ->
  nth_error ns k = Some nodeB ->
  x nodeA = x nodeB -> y nodeA = y nodeB ->
  repelPair ns j k = ns.
Proof.
  intros HA HB Hx Hy. unfold repelPair. rewrite HA, HB. cbv zeta.
  cbn [nsub nadd nmul ndiv RNum].
  replace (x nodeA - x nodeB) with 0 by lra.
  replace (y nodeA - y nodeB) with 0 by lra.
  case_guard ns; [| reflexivity].
  rewrite !Rmult_0_l, !Rplus_0_r, !Rminus_0_r.
  rewrite !setXY_same.
  destruct (negb (isFixed nodeA)); destruct (negb (isFixed nodeB));
    rewrite ?(update_same _ _ _ HA), ?(update_same _ _ _ HB);
    rewrite ?(update_same _ _ _ HA); reflexivity.
Qed.

Lemma repelPair_coincident_nodes_stay_witness :
  let a := mkLayoutNode "a" "a" 100 50 10 20 1 (Some "central"%string) false in
  let b := mkLayoutNode "b" "b" 100 50 10 20 1 (Some "central"%string) false in
  repelPair [a; b] 0 1 = [a; b].
Proof.
  intros a b.
  apply (repelPair_coincident_nodes_stay [a; b] 0 1 a b); reflexivity.
Defined.

(** X6.  The box of a node: its width lies between 24 and 180 and its height is
    60, 50 or 40 by its level, for every node of the final layout. *)
Theorem calculateLayout_box_sizes (g : MindMapData) :
  Forall (fun n : LayoutNode R =>
            24 <= width n <= 180
            /\ height n = (if (level n =? 0)%Z then 60
                           else if (level n =? 1)%Z then 50 else 40))
         (calculateLayout g).
Proof.
  assert (Hw : forall (l : string) (lv : Z),
             24 <= @estimateWidth R RNum l lv <= 180).
  { intros l lv. unfold estimateWidth. cbn [nmin nadd nmul nofZ RNum].
    pose proof (pos_INR (String.length l)) as Hl.
    rewrite <- INR_IZR_INZ.
    split; [| apply Rmin_l].
    apply Rmin_glb; [lra |].
    destruct (1 <? lv)%Z; nra. }
  pose proof (layout_frames (T := R) g) as Hf.
  assert (Hg : Forall
                 (fun f : string * string * R * R * Z * option string * bool =>
                    let '(_, _, w, h, lv, _, _) := f in
                    24 <= w <= 180
                    /\ h = (if (lv =? 0)%Z then 60
                            else if (lv =? 1)%Z then 50 else 40))
                 (graphFrames g)).
  { unfold graphFrames. constructor; [split; [apply Hw | reflexivity] |].
    apply Forall_flat_map, Forall_forall. intros m _.
    constructor; [split; [apply Hw | reflexivity] |].
    destruct (node_children m) as [cs|]; [| constructor].
    apply Forall_map, Forall_forall. intros c _.
    split; [apply Hw | reflexivity]. }
  rewrite <- Hf in Hg. apply Forall_map in Hg.
  eapply Forall_impl; [| exact Hg]. now intros [].
Qed.
End Forces.

End Layout.

(* ================================================================== *)
(** * Document editor (src/components/Editor.tsx and its dialogs)      *)
(* ================================================================== *)

Module Editor.

(** ** Strings *)

(** The white space and line terminators that [String.prototype.trim]
    removes, among the code units 0..255. *)
Definition isWhiteSpace (c : ascii) : bool :=
  let n := nat_of_ascii c in
  ((9 <=? n) && (n <=? 13) || (n =? 32) || (n =? 160))%nat.

Fixpoint trimStart (s : string) : string :=
  match s with
  | EmptyString => EmptyString
  | String c s' => if isWhiteSpace c then trimStart s' else s
  end.

Fixpoint trimEnd (s : string) : string :=
  match s with
  | EmptyString => EmptyString
  | String c s' =>
      match trimEnd s' with
      | EmptyString => if isWhiteSpace c then EmptyString
                       else String c EmptyString
      | t => String c t
      end
  end.

Definition trim (s : string) : string := trimEnd (trimStart s).

(** [s.startsWith(q)] *)
Definition startsWith (s q : string) : bool := prefix q s.

(** A string used as a condition: the empty string is falsy. *)
Definition truthy (s : string) : bool :=
  match s with EmptyString => false | _ => true end.

(** [`${n}`] for a non-negative integer. *)
Definition decimal (n : nat) : string :=
  NilEmpty.string_of_uint (Nat.to_uint n).

(** The no-break space, U+00A0: the text of a fresh checklist item. *)
Definition nbsp : string := String (ascii_of_nat 160) EmptyString.

(** ** The DOM tree under the editor root *)

#[warnings="-register-all"]
Inductive Node : Type :=
| Text (data : string)
| Element (tagName : string) (attributes : list (string * string))
          (childNodes : list Node).

Fixpoint textContent (n : Node) : string :=
  match n with
  | Text d => d
  | Element _ _ cs => String.concat "" (map textContent cs)
  end.

(** [document.createElement(tag)] *)
Definition createElement (tag : string) : Node := Element tag [] [].

(** [parent.appendChild(child)] *)
Definition appendChild (parent child : Node) : Node :=
  match parent with
  | Element t a cs => Element t a (cs ++ [child])
  | Text _ => parent
  end.

(** [el.className = c], [input.type = c] *)
Definition setAttribute (name value : string) (n : Node) : Node :=
  match n with
  | Element t a cs => Element t (a ++ [(name, value)]) cs
  | Text _ => n
  end.

(** [el.innerHTML = ''] *)
Definition clearChildren (n : Node) : Node :=
  match n with
  | Element t a _ => Element t a []
  | Text _ => n
  end.

(** [el.textContent = s] on a fresh element *)
Definition setTextContent (s : string) (n : Node) : Node :=
  match n with
  | Element t a _ => Element t a [Text s]
  | Text _ => Text s
  end.

Definition br : Node := createElement "br".

(** A boundary point is a node, given by its path of child indices from the
    editor root ([[]] is the root itself), and an offset in it. *)
Record Range : Type := mkRange {
  startContainer : list nat;
  startOffset : nat;
  endContainer : list nat;
  endOffset : nat
}.

Definition collapsedAt (path : list nat) (offset : nat) : Range :=
  mkRange path offset path offset.

(** The node at a path below the root's children. *)
Fixpoint resolveIn (children : list Node) (path : list nat) : option Node :=
  match path with
  | [] => None
  | i :: rest =>
      match nth_error children i with
      | Some n =>
          match rest, n with
          | [], _ => Some n
          | _ :: _, Element _ _ cs => resolveIn cs rest
          | _ :: _, Text _ => None
          end
      | None => None
      end
  end.

Definition isTextNode (blocks : list Node) (path : list nat) : bool :=
  match resolveIn blocks path with
  | Some (Text _) => true
  | _ => false
  end.

(** The [while] loop of [getBlockContainer], lines 38-43, on the path of
    [current] read from the node upwards. *)
Fixpoint climb (blocks : list Node) (upwards : list nat) : option nat :=
  match upwards with
  | [] => None                       (* current === editorRoot *)
  | [i] =>                           (* current.parentNode === editorRoot *)
      match nth_error blocks i with
      | Some (Element _ _ _) => Some i
      | _ => None                    (* next current is the root *)
      end
  | _ :: up => climb blocks up       (* current = current.parentNode *)
  end.

(** [getBlockContainer(node, editorRoot)], lines 36-45: the index of the
    top-level block, or [None] for [null]. *)
Definition getBlockContainer (node : list nat) (blocks : list Node)
  : option nat :=
  let current := if isTextNode blocks node then removelast node else node in
  climb blocks (rev current).

(** ** Commands (src/components/SlashCommandMenu.tsx, lines 11-36) *)

Inductive Tag : Type := h1 | h2 | h3 | blockquote.

Inductive Action : Type :=
  askAI | bulletedList | numberedList | todoList | codeBlock | table.

Inductive Command : Type :=
| TagCommand (tag : Tag)
| ActionCommand (action : Action).

Definition tagName_of (t : Tag) : string :=
  match t with
  | h1 => "h1" | h2 => "h2" | h3 => "h3" | blockquote => "blockquote"
  end.

Definition ALL_COMMANDS : list Command :=
  [ ActionCommand askAI; TagCommand h1; TagCommand h2; TagCommand h3;
    ActionCommand bulletedList; ActionCommand numberedList;
    ActionCommand todoList; TagCommand blockquote;
    ActionCommand codeBlock; ActionCommand table ].

Definition title (c : Command) : string :=
  match c with
  | ActionCommand askAI => "Ask AI"
  | TagCommand h1 => "Heading 1"
  | TagCommand h2 => "Heading 2"
  | TagCommand h3 => "Heading 3"
  | ActionCommand bulletedList => "Bulleted list"
  | ActionCommand numberedList => "Numbered list"
  | ActionCommand todoList => "To-do list"
  | TagCommand blockquote => "Blockquote"
  | ActionCommand codeBlock => "Code block"
  | ActionCommand table => "Table"
  end.

(** [s.toLowerCase()] on the letters A-Z. *)
Definition lowerChar (c : ascii) : ascii :=
  let n := nat_of_ascii c in
  if ((65 <=? n) && (n <=? 90))%nat then ascii_of_nat (n + 32) else c.

Fixpoint toLowerCase (s : string) : string :=
  match s with
  | EmptyString => EmptyString
  | String c s' => String (lowerChar c) (toLowerCase s')
  end.

(** [s.includes(q)] *)
Definition includes (s q : string) : bool :=
  match index 0 q s with Some _ => true | None => false end.

(** [filteredCommands], SlashCommandMenu.tsx lines 50-55: the commands the
    menu offers for a query. *)
Definition filteredCommands (query : string) : list Command :=
  if negb (truthy query) then ALL_COMMANDS
  else filter (fun command =>
                 includes (toLowerCase (title command)) (toLowerCase query))
              ALL_COMMANDS.

(** ** Editor state *)

Inductive TriggerMode : Type := selectionMode | emptyLineMode.

Record SlashMenuState : Type := mkSlashMenuState {
  isOpen : bool;
  query : string
}.

Record EditorState : Type := mkEditorState {
  blocks : list Node;               (* editorRef.current.childNodes *)
  noteContent : string;             (* activeNote.content *)
  selection : option Range;         (* the window selection's first range *)
  savedRange : option Range;
  selectedText : string;
  assistantPosition : bool;         (* whether a position is set *)
  fullContext : string;
  aiTriggerMode : TriggerMode;
  isAssistantOpen : bool;
  slashMenuState : SlashMenuState;
  isTableModalOpen : bool;
  consoleErrors : list string       (* what [console.error] received *)
}.

Definition withBlocks (st : EditorState) (b : list Node) : EditorState :=
  mkEditorState b (noteContent st) (selection st) (savedRange st)
    (selectedText st) (assistantPosition st) (fullContext st)
    (aiTriggerMode st) (isAssistantOpen st) (slashMenuState st)
    (isTableModalOpen st) (consoleErrors st).

Definition withNoteContent (st : EditorState) (c : string) : EditorState :=
  mkEditorState (blocks st) c (selection st) (savedRange st)
    (selectedText st) (assistantPosition st) (fullContext st)
    (aiTriggerMode st) (isAssistantOpen st) (slashMenuState st)
    (isTableModalOpen st) (consoleErrors st).

Definition withSelection (st : EditorState) (r : option Range)
  : EditorState :=
  mkEditorState (blocks st) (noteContent st) r (savedRange st)
    (selectedText st) (assistantPosition st) (fullContext st)
    (aiTriggerMode st) (isAssistantOpen st) (slashMenuState st)
    (isTableModalOpen st) (consoleErrors st).

Definition setSavedRange (r : option Range) (st : EditorState)
  : EditorState :=
  mkEditorState (blocks st) (noteContent st) (selection st) r
    (selectedText st) (assistantPosition st) (fullContext st)
    (aiTriggerMode st) (isAssistantOpen st) (slashMenuState st)
    (isTableModalOpen st) (consoleErrors st).

Definition setSelectedText (s : string) (st : EditorState) : EditorState :=
  mkEditorState (blocks st) (noteContent st) (selection st) (savedRange st)
    s (assistantPosition st) (fullContext st)
    (aiTriggerMode st) (isAssistantOpen st) (slashMenuState st)
    (isTableModalOpen st) (consoleErrors st).

Definition setAssistantPosition (p : bool) (st : EditorState)
  : EditorState :=
  mkEditorState (blocks st) (noteContent st) (selection st) (savedRange st)
    (selectedText st) p (fullContext st)
    (aiTriggerMode st) (isAssistantOpen st) (slashMenuState st)
    (isTableModalOpen st) (consoleErrors st).

Definition setFullContext (s : string) (st : EditorState) : EditorState :=
  mkEditorState (blocks st) (noteContent st) (selection st) (savedRange st)
    (selectedText st) (assistantPosition st) s
    (aiTriggerMode st) (isAssistantOpen st) (slashMenuState st)
    (isTableModalOpen st) (consoleErrors st).

Definition setAiTriggerMode (m : TriggerMode) (st : EditorState)
  : EditorState :=
  mkEditorState (blocks st) (noteContent st) (selection st) (savedRange st)
    (selectedText st) (assistantPosition st) (fullContext st)
    m (isAssistantOpen st) (slashMenuState st)
    (isTableModalOpen st) (consoleErrors st).

Definition setIsAssistantOpen (b : bool) (st : EditorState) : EditorState :=
  mkEditorState (blocks st) (noteContent st) (selection st) (savedRange st)
    (selectedText st) (assistantPosition st) (fullContext st)
    (aiTriggerMode st) b (slashMenuState st)
    (isTableModalOpen st) (consoleErrors st).

Definition setSlashMenuState (m : SlashMenuState) (st : EditorState)
  : EditorState :=
  mkEditorState (blocks st) (noteContent st) (selection st) (savedRange st)
    (selectedText st) (assistantPosition st) (fullContext st)
    (aiTriggerMode st) (isAssistantOpen st) m
    (isTableModalOpen st) (consoleErrors st).

Definition setIsTableModalOpen (b : bool) (st : EditorState) : EditorState :=
  mkEditorState (blocks st) (noteContent st) (selection st) (savedRange st)
    (selectedText st) (assistantPosition st) (fullContext st)
    (aiTriggerMode st) (isAssistantOpen st) (slashMenuState st)
    b (consoleErrors st).

Definition consoleError (msg : string) (st : EditorState) : EditorState :=
  mkEditorState (blocks st) (noteContent st) (selection st) (savedRange st)
    (selectedText st) (assistantPosition st) (fullContext st)
    (aiTriggerMode st) (isAssistantOpen st) (slashMenuState st)
    (isTableModalOpen st) (consoleErrors st ++ [msg]).

(** [setSlashMenuState({ ...slashMenuState, isOpen: false })] *)
Definition closeSlashMenu (st : EditorState) : EditorState :=
  setSlashMenuState (mkSlashMenuState false (query (slashMenuState st))) st.

(** ** DOM mutations on the root's children *)

(** The block at [i] mutated in place. *)
Definition setBlock (i : nat) (b : Node) (l : list Node) : list Node :=
  firstn i l ++ b :: skipn (S i) l.

(** [block.replaceWith(...new)] for the block at [i]. *)
Definition replaceWith (i : nat) (new : list Node) (l : list Node)
  : list Node :=
  firstn i l ++ new ++ skipn (S i) l.

(** [block.after(...new)] for the block at [i]. *)
Definition after (i : nat) (new : list Node) (l : list Node) : list Node :=
  firstn (S i) l ++ new ++ skipn (S i) l.

(** ** Building the elements *)

(** The element a command creates and the path, inside it, of
    [elementToFocus]; lines 248-312.  [askAI] and [table] create none. *)
Definition newElementFor (command : Command) : option (Node * list nat) :=
  match command with
  | TagCommand tag =>
      let newBlock := appendChild (createElement (tagName_of tag)) br in
      Some (newBlock, [])
  | ActionCommand bulletedList =>
      let li := appendChild (createElement "li") br in
      let ul := appendChild (createElement "ul") li in
      Some (ul, [0%nat])
  | ActionCommand numberedList =>
      let li := appendChild (createElement "li") br in
      let ol := appendChild (createElement "ol") li in
      Some (ol, [0%nat])
  | ActionCommand todoList =>
      let ul := setAttribute "class" "todo-list" (createElement "ul") in
      let li := setAttribute "class" "todo-list-item" (createElement "li") in
      let checkbox := setAttribute "type" "checkbox" (createElement "input") in
      let li := appendChild li checkbox in
      let li := appendChild li (Text nbsp) in
      let ul := appendChild ul li in
      Some (ul, [0%nat])
  | ActionCommand codeBlock =>
      let code := appendChild (createElement "code") br in
      let pre := appendChild (createElement "pre") code in
      Some (pre, [0%nat])
  | ActionCommand askAI => None
  | ActionCommand table => None
  end.

(** [for (let i = 0; i < cols; i++) { th ... }], lines 373-378. *)
Definition headRow (cols : Z) : Node :=
  fold_left
    (fun row i =>
       appendChild row
         (setTextContent ("Header " ++ decimal (i + 1)) (createElement "th")))
    (seq 0 (Z.to_nat cols)) (createElement "tr").

(** One [tbody.insertRow()] with its cells, lines 381-385. *)
Definition bodyRow (cols : Z) : Node :=
  fold_left
    (fun row _ => appendChild row (appendChild (createElement "td") br))
    (seq 0 (Z.to_nat cols)) (createElement "tr").

(** Lines 370-386. *)
Definition tableElement (rows cols : Z) : Node :=
  let thead := appendChild (createElement "thead") (headRow cols) in
  let tbody :=
    fold_left (fun body _ => appendChild body (bodyRow cols))
              (seq 0 (Z.to_nat rows)) (createElement "tbody") in
  appendChild (appendChild (createElement "table") thead) tbody.

(** Lines 389-390. *)
Definition emptyParagraph : Node := appendChild (createElement "p") br.

(** ** The table dialog (src/unnamed/part_001, TableGeneratorModal) *)

Record TableModal : Type := mkTableModal {
  rows : Z;
  cols : Z
}.

(** [useState(3)], [useState(3)] *)
Definition initialModal : TableModal := mkTableModal 3 3.

(** [Math.max(1, parseInt(e.target.value, 10) || 1)], lines 41 and 52; the
    argument is the result of [parseInt], [None] for [NaN]. *)
Definition clampInput (parsed : option Z) : Z :=
  Z.max 1 (match parsed with
           | None => 1
           | Some 0%Z => 1
           | Some z => z
           end).

Definition onChangeRows (parsed : option Z) (m : TableModal) : TableModal :=
  mkTableModal (clampInput parsed) (cols m).

Definition onChangeCols (parsed : option Z) (m : TableModal) : TableModal :=
  mkTableModal (rows m) (clampInput parsed).

(** ** The AI assistant dialog (src/unnamed/part_002, AIAssistant) *)

Inductive ServiceOutcome : Type :=
| Resolves (result : string)
| Rejects (message : string).

(** How the promise of an [async] handler settles. *)
Inductive Settled : Type :=
| Fulfilled
| RejectedWith (message : string).

Record AssistantState : Type := mkAssistantState {
  prompt : string;
  isLoading : bool;
  error : option string
}.

Definition initialAssistant : AssistantState :=
  mkAssistantState "" false None.

(** ** Detecting the trigger *)

(** [blockText.match(...)], line 203, for the pattern "a slash, then
    characters other than white space up to the end": the captured query. *)
Definition commandMatch (blockText : string) : option string :=
  match blockText with
  | String "/"%char rest =>
      if forallb (fun c => negb (isWhiteSpace c)) (list_ascii_of_string rest)
      then Some rest
      else None
  | _ => None
  end.

Definition isCollapsed (r : Range) : bool :=
  ((if list_eq_dec Nat.eq_dec (startContainer r) (endContainer r)
    then true else false)
   && Nat.eqb (startOffset r) (endOffset r))%bool.

(** [if (slashMenuState.isOpen) setSlashMenuState({ ..., isOpen: false })] *)
Definition closeIfOpen (st : EditorState) : EditorState :=
  if isOpen (slashMenuState st) then closeSlashMenu st else st.

(** [handleInput], lines 182-218.  A selection without a range counts as
    collapsed, so the first test lets it through and [getRangeAt(0)] throws:
    the handler ends there and the state stays as it is. *)
Definition handleInput (st : EditorState) : EditorState :=
  match selection st with
  | None => st                          (* getRangeAt(0) throws *)
  | Some range =>
      if negb (isCollapsed range) then closeIfOpen st
      else
        match resolveIn (blocks st) (startContainer range) with
        | Some (Text text) =>
            let cursorPosition := startOffset range in
            let blockText := substring 0 cursorPosition text in
            match commandMatch blockText with
            | Some q => setSlashMenuState (mkSlashMenuState true q) st
            | None => closeIfOpen st
            end
        | _ => closeIfOpen st            (* not in a text node *)
        end
  end.

Section Handlers.

(** Library and platform functions the handlers call. *)
Variable turndown : list Node -> string.
  (* turndownService.turndown(editor.innerHTML) *)
Variable markedParse : string -> string.
  (* marked.parse(text): the markup for the text *)
Variable appendInnerHTML : list Node -> string -> list Node.
  (* editor.innerHTML += html: the children of the root once the markup of
     the present children, followed by html, has been parsed again *)
Variable innerText : list Node -> string.
  (* editor.innerText *)
Variable replaceRangeWithText :
  Range -> string -> list Node -> list Node * Range.
  (* range.deleteContents(); range.insertNode(createTextNode(text)):
     the children of the root and the live range afterwards *)
Variable askAIService : string -> string -> ServiceOutcome.
  (* geminiService.askAI(customPrompt, context) *)
Variable serviceFunction : string -> option (string -> ServiceOutcome).
  (* geminiService[action], [None] when it is not a function *)

(** [handleBlur], lines 129-137. *)
Definition handleBlur (st : EditorState) : EditorState :=
  let markdownContent := turndown (blocks st) in
  if negb (String.eqb markdownContent (noteContent st))
  then withNoteContent st markdownContent
  else st.

(** [handleCommandSelect], lines 220-348.  Clearing the block moves the live
    range to the start of the emptied block. *)
Definition handleCommandSelect (command : Command) (st : EditorState)
  : EditorState :=
  match selection st with
  | None => st
  | Some range0 =>
      let currentBlock := getBlockContainer (startContainer range0) (blocks st) in
      (* Remove the trigger text (e.g., "/h1") from the current block *)
      let '(blocks1, range) :=
        match currentBlock with
        | Some i =>
            match nth_error (blocks st) i with
            | Some block =>
                let query := ("/" ++ query (slashMenuState st))%string in
                if startsWith (trim (textContent block)) query
                then (setBlock i (clearChildren block) (blocks st),
                      collapsedAt [i] 0)
                else (blocks st, range0)
            | None => (blocks st, range0)
            end
        | None => (blocks st, range0)
        end in
      let isBlockEmpty :=
        match currentBlock with
        | None => true
        | Some i =>
            match nth_error blocks1 i with
            | Some block => String.eqb (trim (textContent block)) ""
            | None => true
            end
        end in
      let st1 := withSelection (withBlocks st blocks1) (Some range) in
      match command with
      | ActionCommand askAI =>
          closeSlashMenu
            (setIsAssistantOpen true
               (setFullContext (innerText blocks1)
                  (setAiTriggerMode emptyLineMode
                     (setSavedRange (Some range) st1))))
      | ActionCommand table =>
          closeSlashMenu
            (setIsTableModalOpen true (setSavedRange (Some range) st1))
      | _ =>
          match newElementFor command with
          | None => closeSlashMenu st1
          | Some (newElement, focusPath) =>
              (* Insert the new element into the DOM *)
              let '(blocks2, at_) :=
                match currentBlock with
                | Some i =>
                    if isBlockEmpty
                    then (replaceWith i [newElement] blocks1, i)
                    else (after i [newElement] blocks1, S i)
                | None => (blocks1 ++ [newElement], List.length blocks1)
                end in
              (* Set the cursor/selection to the correct position *)
              let offset :=
                match command with
                | ActionCommand todoList => 2%nat
                | _ => 0%nat
                end in
              closeSlashMenu
                (withSelection (withBlocks st1 blocks2)
                   (Some (collapsedAt (at_ :: focusPath) offset)))
          end
      end
  end.

(** [range.insertNode(fragment)] at a boundary point in the root or in a
    text node that is a child of the root; the new children of the root and
    the index where the fragment starts. *)
Definition insertNode (range : Range) (fragment : list Node)
           (l : list Node) : option (list Node * nat) :=
  match startContainer range with
  | [] =>
      let o := startOffset range in
      Some (firstn o l ++ fragment ++ skipn o l, o)
  | [i] =>
      match nth_error l i with
      | Some (Text d) =>
          let o := startOffset range in
          Some (firstn i l
                ++ Text (substring 0 o d) :: fragment
                ++ Text (substring o (String.length d - o) d)
                   :: skipn (S i) l,
                S i)
      | _ => None
      end
  | _ => None
  end.

(** [handleCreateTable], lines 350-408. *)
Definition handleCreateTable (rows cols : Z) (st : EditorState)
  : EditorState :=
  let st0 := setIsTableModalOpen false st in
  let selected :=
    match savedRange st0 with
    | Some r => Some r
    | None => selection st0
    end in
  match selected with
  | None => st0                       (* getRangeAt(0) throws *)
  | Some range =>
      let currentBlock := getBlockContainer (startContainer range) (blocks st0) in
      let fragment := [tableElement rows cols; emptyParagraph] in
      let placed :=
        match currentBlock with
        | Some i =>
            match nth_error (blocks st0) i with
            | Some block =>
                if String.eqb (trim (textContent block)) ""
                then Some (replaceWith i fragment (blocks st0), i)
                else Some (after i fragment (blocks st0), S i)
            | None => None
            end
        | None => insertNode range fragment (blocks st0)
        end in
      match placed with
      | None => withSelection st0 (Some range)
      | Some (blocks1, at_) =>
          handleBlur
            (setSavedRange None
               (withSelection (withBlocks st0 blocks1)
                  (Some (collapsedAt [S at_] 0))))
      end
  end.

(** [handleSubmit] of the table dialog, lines 22-27, with [onCreateTable]
    bound to [handleCreateTable] (Editor.tsx, line 507). *)
Definition handleSubmit (m : TableModal) (st : EditorState) : EditorState :=
  if ((0 <? rows m) && (0 <? cols m))%Z
  then handleCreateTable (rows m) (cols m) st
  else st.

(** Table creation from the two numbers typed into the dialog. *)
Definition insertTable (rowsInput colsInput : Z) (st : EditorState)
  : EditorState :=
  handleSubmit
    (onChangeCols (Some colsInput) (onChangeRows (Some rowsInput) initialModal))
    st.

(** The [finally] block of [handleAiRequest], lines 446-450. *)
Definition finallyReset (st : EditorState) : EditorState :=
  setSavedRange None (setAssistantPosition false (setSelectedText "" st)).

(** The service call at the head of the [try] block, lines 416-426: how the
    awaited call (or the [throw]) ends, with the value of [result]. *)
Definition callService (action : string) (customPrompt : string)
           (context : string) : ServiceOutcome :=
  if (String.eqb action "askAI" && truthy customPrompt)%bool
  then askAIService customPrompt context
  else if negb (String.eqb action "askAI")
       then match serviceFunction action with
            | Some f => f context
            | None => Rejects ("Invalid AI action: " ++ action)
            end
       else Resolves "".

(** [const context = selectedText || activeNote.content], line 412. *)
Definition requestContext (st : EditorState) : string :=
  if truthy (selectedText st) then selectedText st else noteContent st.

(** [handleAiRequest], lines 410-451. *)
Definition handleAiRequest (action : string) (customPrompt : string)
           (st : EditorState) : EditorState * Settled :=
  let st0 := setIsAssistantOpen false st in
  let context := requestContext st0 in
  match callService action customPrompt context with
  | Resolves result =>
      let st1 :=
        match savedRange st0 with
        | Some r =>
            let '(blocks1, r') :=
              replaceRangeWithText r result (blocks st0) in
            setSavedRange None
              (withSelection (withBlocks st0 blocks1) (Some r'))
        | None =>
            (* Fallback if there's no range, append to end. *)
            withBlocks st0
              (appendInnerHTML (blocks st0)
                 ("<br>" ++ markedParse result)%string)
        end in
      (finallyReset (handleBlur st1), Fulfilled)
  | Rejects message =>
      (* catch (error) { console.error(...) } *)
      (finallyReset (consoleError ("AI request failed: " ++ message) st0),
       Fulfilled)
  end.

(** [customPromptOverride || prompt], line 45. *)
Definition submittedPrompt (customPromptOverride : option string)
           (a : AssistantState) : string :=
  match customPromptOverride with
  | Some o => if truthy o then o else prompt a
  | None => prompt a
  end.

(** [handleAction] of the assistant, lines 41-50, with [onSubmit] bound to
    [handleAiRequest] (Editor.tsx, line 489); [customPromptOverride] is
    [None] when the argument is omitted. *)
Definition handleAction (action : string)
           (customPromptOverride : option string)
           (a : AssistantState) (st : EditorState)
  : AssistantState * EditorState :=
  let a1 := mkAssistantState (prompt a) true None in
  match handleAiRequest action (submittedPrompt customPromptOverride a) st with
  | (st', Fulfilled) => (a1, st')
  | (st', RejectedWith message) =>
      (mkAssistantState (prompt a1) false (Some message), st')
  end.

(** The assistant shows its error line when it is mounted, not loading, and
    holds an error (part_002, lines 63-97; Editor.tsx, line 488). *)
Definition errorShown (a : AssistantState) (st : EditorState) : bool :=
  isAssistantOpen st && negb (isLoading a)
  && match error a with Some _ => true | None => false end.

(** ** Table creation *)

Lemma fold_appendChild {A : Type} (f : A -> Node) (l : list A)
      (t : string) (a : list (string * string)) (cs : list Node) :
  fold_left (fun n v => appendChild n (f v)) l (Element t a cs)
  = Element t a (cs ++ map f l).
Proof.
  revert cs; induction l as [|v l IH]; intros cs; cbn.
  - now rewrite app_nil_r.
  - rewrite IH, <- app_assoc. reflexivity.
Qed.

Definition headerCell (i : nat) : Node :=
  Element "th" [] [Text ("Header " ++ decimal (i + 1))].

Definition emptyCell : Node := Element "td" [] [br].

Lemma headRow_cells (cols : Z) :
  headRow cols = Element "tr" [] (map headerCell (seq 0 (Z.to_nat cols))).
Proof.
  unfold headRow, createElement.
  now rewrite (fold_appendChild
                 (fun i => setTextContent ("Header " ++ decimal (i + 1))
                             (Element "th" [] []))).
Qed.

Lemma bodyRow_cells (cols : Z) :
  bodyRow cols
  = Element "tr" [] (map (fun _ => emptyCell) (seq 0 (Z.to_nat cols))).
Proof.
  unfold bodyRow, createElement.
  now rewrite (fold_appendChild
                 (fun _ : nat => appendChild (Element "td" [] []) br)).
Qed.

Lemma tableElement_shape (rows cols : Z) :
  tableElement rows cols
  = Element "table" []
      [ Element "thead" [] [headRow cols];
        Element "tbody" []
          (map (fun _ => bodyRow cols) (seq 0 (Z.to_nat rows))) ].
Proof.
  unfold tableElement, createElement.
  now rewrite (fold_appendChild (fun _ : nat => bodyRow cols)).
Qed.

(** A boundary point of the range lies in the editor: its container is the
    root or a node below it. *)
Definition cursorInEditor (range : Range) (l : list Node) : bool :=
  match startContainer range with
  | [] => true
  | path => match resolveIn l path with Some _ => true | None => false end
  end.

Lemma climb_snoc (l : list Node) (up : list nat) (i : nat) :
  climb l (up ++ [i]) = climb l [i].
Proof.
  induction up as [|j up IH]; [reflexivity |].
  cbn [app]. destruct (up ++ [i]) as [|k rest] eqn:E.
  - now destruct up.
  - cbn [climb]. exact IH.
Qed.

(** Outside every block, a cursor in the editor is in the root itself or in
    a text node that is a child of the root. *)
Lemma no_block_cursor (range : Range) (l : list Node) :
  cursorInEditor range l = true ->
  getBlockContainer (startContainer range) l = None ->
  startContainer range = []
  \/ exists i d, startContainer range = [i] /\ nth_error l i = Some (Text d).
Proof.
  unfold cursorInEditor, getBlockContainer, isTextNode.
  destruct (startContainer range) as [|i rest]; [now left |].
  intros Hin Hnone. right.
  destruct (resolveIn l (i :: rest)) as [n|] eqn:Hres; [| discriminate].
  cbn [resolveIn] in Hres.
  destruct (nth_error l i) as [b|] eqn:Hb; [| discriminate].
  destruct rest as [|j rest].
  - injection Hres as ->. destruct n as [d|t a cs].
    + now exists i, d.
    + cbn in Hnone. rewrite Hb in Hnone. discriminate.
  - destruct b as [d|t a cs]; [discriminate |].
    exfalso.
    assert (Hc : forall up, climb l (up ++ [i]) = Some i).
    { intros up. rewrite climb_snoc. cbn. now rewrite Hb. }
    destruct n as [d|t' a' cs'].
    + change (removelast (i :: j :: rest)) with (i :: removelast (j :: rest))
        in Hnone.
      cbn [rev] in Hnone. rewrite Hc in Hnone. discriminate.
    + cbn [rev] in Hnone. rewrite Hc in Hnone. discriminate.
Qed.

(** Wherever the cursor is, the table and the paragraph go in side by
    side. *)
Lemma handleCreateTable_places_fragment (rows cols : Z) (st : EditorState)
      (range : Range) :
  match savedRange st with Some r => Some r | None => selection st end
  = Some range ->
  cursorInEditor range (blocks st) = true ->
  exists before behind,
    blocks (handleCreateTable rows cols st)
    = before ++ tableElement rows cols :: emptyParagraph :: behind.
Proof.
  intros Hsel Hin. unfold handleCreateTable.
  cbn [savedRange selection blocks setIsTableModalOpen].
  rewrite Hsel.
  destruct (getBlockContainer (startContainer range) (blocks st))
    as [i|] eqn:Hblock.
  - assert (Hi : exists b, nth_error (blocks st) i = Some b).
    { unfold getBlockContainer in Hblock.
      destruct (rev _) as [|k up] eqn:E; [discriminate |].
      destruct (@exists_last _ (k :: up) ltac:(discriminate))
        as (up' & i' & E').
      rewrite E', climb_snoc in Hblock. cbn in Hblock.
      destruct (nth_error (blocks st) i') as [[d|t a cs]|] eqn:Hb;
        try discriminate.
      injection Hblock as <-. eauto. }
    destruct Hi as (b & Hb). rewrite Hb.
    destruct (String.eqb (trim (textContent b)) "").
    + exists (firstn i (blocks st)), (skipn (S i) (blocks st)).
      unfold handleBlur. now destruct (negb _).
    + exists (firstn (S i) (blocks st)), (skipn (S i) (blocks st)).
      unfold handleBlur. now destruct (negb _).
  - destruct (no_block_cursor range (blocks st) Hin Hblock)
      as [Hroot | (i & d & Hpath & Hnode)]; unfold insertNode.
    + rewrite Hroot.
      exists (firstn (startOffset range) (blocks st)),
             (skipn (startOffset range) (blocks st)).
      unfold handleBlur. now destruct (negb _).
    + rewrite Hpath, Hnode.
      eexists (firstn i (blocks st) ++ [Text _]), (Text _ :: skipn (S i) _).
      unfold handleBlur. destruct (negb _); cbn [blocks withNoteContent setSavedRange withSelection withBlocks];
        now rewrite <- app_assoc.
Qed.

(** C10.  For [rows >= 1] and [cols >= 1] and a cursor in the editor, table
    creation puts into the document a table whose header row has exactly
    [cols] cells reading "Header 1" to "Header cols", whose body has exactly
    [rows] rows of [cols] empty cells each, and right after the table one
    empty paragraph. *)
Theorem handleCreateTable_builds_table (rows cols : Z) (st : EditorState)
        (range : Range) :
  (1 <= rows)%Z -> (1 <= cols)%Z ->
  match savedRange st with Some r => Some r | None => selection st end
  = Some range ->
  cursorInEditor range (blocks st) = true ->
  exists before behind ths trs,
    blocks (handleCreateTable rows cols st)
    = before
      ++ Element "table" []
           [Element "thead" [] [Element "tr" [] ths]; Element "tbody" [] trs]
      :: Element "p" [] [br] :: behind
    /\ Z.of_nat (List.length ths) = cols
    /\ (forall i, (i < List.length ths)%nat ->
                  nth_error ths i
                  = Some (Element "th" [] [Text ("Header " ++ decimal (i + 1))]))
    /\ Z.of_nat (List.length trs) = rows
    /\ (forall tr, In tr trs ->
                   exists tds,
                     tr = Element "tr" [] tds
                     /\ Z.of_nat (List.length tds) = cols
                     /\ forall td, In td tds ->
                                   td = Element "td" [] [br]
                                   /\ textContent td = EmptyString).
Proof.
  intros Hrows Hcols Hsel Hin.
  destruct (handleCreateTable_places_fragment rows cols st range Hsel Hin)
    as (before & behind & Hdoc).
  rewrite tableElement_shape, headRow_cells in Hdoc.
  exists before, behind, (map headerCell (seq 0 (Z.to_nat cols))),
    (map (fun _ => bodyRow cols) (seq 0 (Z.to_nat rows))).
  split; [exact Hdoc |].
  rewrite !length_map, !length_seq.
  split; [lia |]. split.
  - intros i Hi.
    rewrite nth_error_map, nth_error_seq.
    apply Nat.ltb_lt in Hi. now rewrite Hi.
  - split; [lia |].
    intros tr Htr. apply in_map_iff in Htr as (_ & <- & _).
    rewrite bodyRow_cells. eexists; split; [reflexivity |].
    rewrite length_map, length_seq. split; [lia |].
    intros td Htd. apply in_map_iff in Htd as (_ & <- & _).
    split; reflexivity.
Qed.

(** ** The dialog clamps what is typed *)

Lemma clampInput_max (z : Z) : clampInput (Some z) = Z.max 1 z.
Proof. unfold clampInput. destruct z; reflexivity. Qed.

(** C4.  Whatever integers are typed into the dialog, the dialog holds, and
    passes on, the value 1 for an input that is 0 or negative: creating a
    table from the inputs [r] and [c] is creating it with [max 1 r] rows and
    [max 1 c] columns, and the inputs (0, 0) change the document exactly as
    the inputs (1, 1) do. *)
Theorem insertTable_clamps (r c : Z) (st : EditorState) :
  (forall z : Z, (z <= 0)%Z ->
                 rows (onChangeRows (Some z) initialModal) = 1%Z
                 /\ cols (onChangeCols (Some z) initialModal) = 1%Z)
  /\ insertTable r c st = handleCreateTable (Z.max 1 r) (Z.max 1 c) st
  /\ insertTable 0 0 st = insertTable 1 1 st.
Proof.
  split; [| split].
  - intros z Hz. cbn [rows cols onChangeRows onChangeCols].
    rewrite clampInput_max. lia.
  - unfold insertTable, handleSubmit.
    cbn [rows cols onChangeRows onChangeCols].
    rewrite !clampInput_max.
    replace (0 <? Z.max 1 r)%Z with true by (symmetry; apply Z.ltb_lt; lia).
    replace (0 <? Z.max 1 c)%Z with true by (symmetry; apply Z.ltb_lt; lia).
    reflexivity.
  - reflexivity.
Qed.

(** ** Where a command puts its element *)

Lemma firstn_nth_error_snoc {A : Type} (l : list A) (i : nat) (a : A) :
  nth_error l i = Some a -> firstn (S i) l = firstn i l ++ [a].
Proof.
  revert i; induction l as [|b l IH]; intros [|i] H; cbn in *;
    try discriminate.
  - now injection H as ->.
  - f_equal. now apply IH.
Qed.

Lemma nth_error_setBlock (l : list Node) (i : nat) (b b' : Node) :
  nth_error l i = Some b -> nth_error (setBlock i b' l) i = Some b'.
Proof.
  intros H. unfold setBlock.
  assert (Hlen : (i < List.length l)%nat)
    by (apply nth_error_Some; congruence).
  rewrite nth_error_app2; rewrite length_firstn, Nat.min_l by lia; [| lia].
  now rewrite Nat.sub_diag.
Qed.

Lemma replaceWith_setBlock (l new : list Node) (i : nat) (b b' : Node) :
  nth_error l i = Some b ->
  replaceWith i new (setBlock i b' l) = replaceWith i new l.
Proof.
  intros H. unfold replaceWith, setBlock.
  assert (Hlen : (i < List.length l)%nat)
    by (apply nth_error_Some; congruence).
  assert (Hf : List.length (firstn i l) = i)
    by (rewrite length_firstn; lia).
  rewrite firstn_app, Hf, Nat.sub_diag, firstn_O, app_nil_r.
  rewrite skipn_app, Hf.
  rewrite (skipn_all2 (n := S i) (firstn i l)) by (rewrite Hf; lia).
  replace (S i - i)%nat with 1%nat by lia.
  rewrite firstn_firstn, Nat.min_id. reflexivity.
Qed.

Lemma climb_block_is_element (l : list Node) (path : list nat) (i : nat) :
  getBlockContainer path l = Some i ->
  exists t a cs, nth_error l i = Some (Element t a cs).
Proof.
  unfold getBlockContainer. intros H.
  destruct (rev _) as [|k up] eqn:E; [discriminate |].
  destruct (@exists_last _ (k :: up) ltac:(discriminate)) as (up' & i' & E').
  rewrite E', climb_snoc in H. cbn in H.
  destruct (nth_error l i') as [[d|t a cs]|] eqn:Hb; try discriminate.
  injection H as <-. eauto.
Qed.

(** The block as the handler leaves it before it looks at its text: cleared
    when its trimmed text starts with the trigger, untouched otherwise. *)
Definition afterTriggerRemoval (query : string) (block : Node) : Node :=
  if startsWith (trim (textContent block)) ("/" ++ query)
  then clearChildren block
  else block.

(** For every command that creates an element: when the block, once the
    handler has dealt with the trigger text, has no text, the element takes
    its place; otherwise the element follows the block, which is then
    untouched. *)
Lemma handleCommandSelect_places_element (command : Command)
      (st : EditorState) (range : Range) (i : nat) (block e : Node)
      (fp : list nat) :
  selection st = Some range ->
  getBlockContainer (startContainer range) (blocks st) = Some i ->
  nth_error (blocks st) i = Some block ->
  newElementFor command = Some (e, fp) ->
  blocks (handleCommandSelect command st)
  = if String.eqb
         (trim (textContent
                  (afterTriggerRemoval (query (slashMenuState st)) block))) ""
    then firstn i (blocks st) ++ e :: skipn (S i) (blocks st)
    else firstn i (blocks st) ++ block :: e :: skipn (S i) (blocks st).
Proof.
  intros Hsel Hblock Hnth Hnew.
  unfold handleCommandSelect, afterTriggerRemoval.
  rewrite Hsel, Hblock, Hnth.
  assert (Hcmd :
    forall (A : Type) (x y z : A),
      match command with
      | ActionCommand askAI => x
      | ActionCommand table => y
      | _ => z
      end = z).
  { intros A x y z. destruct command as [t|[]]; try reflexivity;
      discriminate. }
  destruct (startsWith (trim (textContent block))
                       ("/" ++ query (slashMenuState st))) eqn:Htrig.
  - rewrite Hcmd, Hnew.
    rewrite (nth_error_setBlock _ _ _ _ Hnth).
    destruct (climb_block_is_element _ _ _ Hblock) as (t & a & cs & Hel).
    rewrite Hnth in Hel. injection Hel as ->.
    cbn [clearChildren textContent map String.concat trim trimStart trimEnd
         String.eqb].
    cbn [blocks closeSlashMenu setSlashMenuState withSelection withBlocks].
    now rewrite (replaceWith_setBlock _ _ _ _ _ Hnth).
  - rewrite Hcmd, Hnew, Hnth.
    destruct (String.eqb (trim (textContent block)) "");
      cbn [blocks closeSlashMenu setSlashMenuState withSelection withBlocks].
    + reflexivity.
    + unfold after. rewrite (firstn_nth_error_snoc _ _ _ Hnth).
      now rewrite <- app_assoc.
Qed.

(** ** A failing service call *)

(** When the service call fails, [handleAiRequest] logs to the console,
    leaves the editor's tree and the note's content as they were, and still
    fulfils its promise: the assistant's [catch] never runs, and the
    assistant has been closed. *)
Lemma handleAction_on_service_error (action : string)
      (override : option string) (a : AssistantState) (st : EditorState)
      (message : string) :
  callService action (submittedPrompt override a)
              (requestContext st) = Rejects message ->
  let '(a', st') := handleAction action override a st in
  blocks st' = blocks st
  /\ noteContent st' = noteContent st
  /\ consoleErrors st'
     = (consoleErrors st ++ [("AI request failed: " ++ message)%string])%list
  /\ error a' = None
  /\ isAssistantOpen st' = false
  /\ errorShown a' st' = false.
Proof.
  intros Hcall. unfold handleAction, handleAiRequest.
  change (requestContext (setIsAssistantOpen false st))
    with (requestContext st).
  rewrite Hcall. repeat split.
Qed.

End Handlers.

(** ** Concrete documents *)

(** A note whose only paragraph reads "hello", the cursor at its end. *)
Definition helloNote : EditorState :=
  mkEditorState [Element "p" [] [Text "hello"]] "hello"
    (Some (collapsedAt [0; 0]%nat 5)) None
    "" false "" selectionMode false (mkSlashMenuState false "") false [].

(** The user has typed "/" in front of the text "rest" of a paragraph: the
    text before the cursor is "/", so the input handler opens the menu with
    the empty query, and the menu offers every command. *)
Definition slashBeforeText : EditorState :=
  handleInput
    (mkEditorState [Element "p" [] [Text "/rest"]] "rest"
       (Some (collapsedAt [0; 0]%nat 1)) None
       "" false "" selectionMode false (mkSlashMenuState false "") false []).

(** The assistant is open on a selection of the note "hello". *)
Definition assistantOnSelection : EditorState :=
  mkEditorState [Element "p" [] [Text "hello"]] "hello"
    (Some (mkRange [0; 0]%nat 0 [0; 0]%nat 5))
    (Some (mkRange [0; 0]%nat 0 [0; 0]%nat 5))
    "hello" true "hello" selectionMode true (mkSlashMenuState false "")
    false [].

(** A service whose every function rejects. *)
Definition failingService (action : string)
  : option (string -> ServiceOutcome) :=
  Some (fun _ => Rejects "503 Service Unavailable").

Example trim_examples :
  trim "  /h1 rest " = "/h1 rest"%string
  /\ trim nbsp = EmptyString
  /\ trim (String "009" (String "010" "")) = EmptyString.
Proof. repeat split. Qed.

Example filteredCommands_examples :
  filteredCommands "head" = [TagCommand h1; TagCommand h2; TagCommand h3]
  /\ filteredCommands "LIST"
     = [ActionCommand bulletedList; ActionCommand numberedList;
        ActionCommand todoList]
  /\ filteredCommands "h1" = [].
Proof. repeat split. Qed.

Example commandMatch_examples :
  commandMatch "/" = Some EmptyString
  /\ commandMatch "/head" = Some "head"%string
  /\ commandMatch "/to do" = None
  /\ commandMatch "a/b" = None.
Proof. repeat split. Qed.

Example getBlockContainer_examples :
  getBlockContainer [0; 0]%nat (blocks helloNote) = Some 0%nat
  /\ getBlockContainer [0]%nat (blocks helloNote) = Some 0%nat
  /\ getBlockContainer [] (blocks helloNote) = None
  /\ getBlockContainer [0]%nat [Text "loose"] = None.
Proof. repeat split. Qed.

Example table_3_by_4 :
  tableElement 3 4
  = Element "table" []
      [ Element "thead" []
          [ Element "tr" []
              [ Element "th" [] [Text "Header 1"];
                Element "th" [] [Text "Header 2"];
                Element "th" [] [Text "Header 3"];
                Element "th" [] [Text "Header 4"] ] ];
        Element "tbody" []
          [ Element "tr" [] [emptyCell; emptyCell; emptyCell; emptyCell];
            Element "tr" [] [emptyCell; emptyCell; emptyCell; emptyCell];
            Element "tr" [] [emptyCell; emptyCell; emptyCell; emptyCell] ] ].
Proof. reflexivity. Qed.

(** [handleCreateTable] itself does not clamp: only the dialog does. *)
Example handleCreateTable_takes_numbers_as_given :
  tableElement 0 0
  = Element "table" []
      [Element "thead" [] [Element "tr" [] []]; Element "tbody" [] []].
Proof. reflexivity. Qed.

Lemma handleCreateTable_builds_table_witness :
  exists before behind ths trs,
    blocks (handleCreateTable (fun _ => EmptyString) 3 4 helloNote)
    = before
      ++ Element "table" []
           [Element "thead" [] [Element "tr" [] ths]; Element "tbody" [] trs]
      :: Element "p" [] [br] :: behind
    /\ Z.of_nat (List.length ths) = 4%Z
    /\ Z.of_nat (List.length trs) = 3%Z.
Proof.
  destruct (handleCreateTable_builds_table (fun _ => EmptyString) 3 4
              helloNote (collapsedAt [0; 0]%nat 5)
              ltac:(lia) ltac:(lia) eq_refl eq_refl)
    as (before & behind & ths & trs & Hdoc & Hths & _ & Htrs & _).
  exists before, behind, ths, trs. repeat split; assumption.
Defined.

Lemma insertTable_clamps_witness :
  rows (onChangeRows (Some (-2)%Z) initialModal) = 1%Z
  /\ insertTable (fun _ => EmptyString) 0 (-5) helloNote
     = handleCreateTable (fun _ => EmptyString) 1 1 helloNote.
Proof.
  pose proof (insertTable_clamps (fun _ => EmptyString) 0 (-5) helloNote)
    as (Hclamp & Hcall & _).
  split.
  - exact (proj1 (Hclamp (-2)%Z ltac:(lia))).
  - exact Hcall.
Defined.

(** C3 at a failing input.  The paragraph reads "/rest", the cursor is
    after the "/" and the menu, open with the empty query, offers every
    command: the paragraph is the block of the cursor and it is not empty,
    yet for every command that creates an element the handler clears the
    whole paragraph, not just the trigger text, finds it empty and replaces
    it: the document is the new element alone and "rest" is gone, where the
    claim has the element inserted after the paragraph. *)
Theorem handleCommandSelect_replaces_nonempty_block
        (innerText : list Node -> string) :
  getBlockContainer [0; 0]%nat (blocks slashBeforeText) = Some 0%nat
  /\ trim (textContent (Element "p" [] [Text "/rest"])) = "/rest"%string
  /\ slashMenuState slashBeforeText = mkSlashMenuState true ""
  /\ filteredCommands (query (slashMenuState slashBeforeText)) = ALL_COMMANDS
  /\ Forall
       (fun command =>
          match newElementFor command with
          | Some (e, _) =>
              blocks (handleCommandSelect innerText command slashBeforeText)
              = [e]
          | None => True
          end)
       ALL_COMMANDS.
Proof.
  do 4 (split; [reflexivity |]).
  repeat constructor.
Qed.

(** C9 at a failing input.  The assistant is asked to summarise the selected
    text and the service rejects: the editor's tree and the note's content
    are untouched, but the failure only reaches the console; the request
    handler has closed the assistant and fulfilled its promise, so the
    assistant's error is never set and nothing is shown to the user. *)
Theorem ai_service_error_not_surfaced
        (turndown : list Node -> string)
        (markedParse : string -> string)
        (appendInnerHTML : list Node -> string -> list Node)
        (replaceRangeWithText :
           Range -> string -> list Node -> list Node * Range)
        (askAIService : string -> string -> ServiceOutcome) :
  let '(a', st') :=
    handleAction turndown markedParse appendInnerHTML replaceRangeWithText
      askAIService
      failingService "summarizeText" None initialAssistant
      assistantOnSelection in
  blocks st' = blocks assistantOnSelection
  /\ noteContent st' = noteContent assistantOnSelection
  /\ consoleErrors st' = ["AI request failed: 503 Service Unavailable"%string]
  /\ error a' = None
  /\ isAssistantOpen st' = false
  /\ errorShown a' st' = false.
Proof. repeat split. Qed.

(** ** More about the handlers *)

Section MoreHandlers.

Variable turndown : list Node -> string.
Variable markedParse : string -> string.
Variable appendInnerHTML : list Node -> string -> list Node.
Variable innerText : list Node -> string.
Variable replaceRangeWithText :
  Range -> string -> list Node -> list Node * Range.
Variable askAIService : string -> string -> ServiceOutcome.
Variable serviceFunction : string -> option (string -> ServiceOutcome).

Definition noWhiteSpace (s : string) : bool :=
  forallb (fun c => negb (isWhiteSpace c)) (list_ascii_of_string s).

Lemma commandMatch_Some (blockText q : string) :
  commandMatch blockText = Some q <->
  blockText = String "/"%char q /\ noWhiteSpace q = true.
Proof.
  unfold commandMatch, noWhiteSpace. split.
  - destruct blockText as [|c rest]; [discriminate |].
    destruct (Ascii.eqb c "/"%char) eqn:Ec.
    + apply Ascii.eqb_eq in Ec. subst c.
      destruct (forallb _ _) eqn:Hf; [| discriminate].
      intros [= <-]. now split.
    + intros Hm. exfalso.
      destruct c as [[] [] [] [] [] [] [] []]; try discriminate Hm;
        discriminate Ec.
  - intros [-> Hq]. now rewrite Hq.
Qed.

(** X10.  Typing never changes the document, the note or the selection.
    When the selection has no range the handler stops at [getRangeAt(0)]
    and nothing at all changes, an open menu included.  Otherwise, when the
    menu is open afterwards, the selection is collapsed in a text node whose
    text up to the cursor is a slash followed by the query, the query
    holding no white space. *)
Theorem handleInput_opens_menu_on_trigger_only (st : EditorState) :
  let st' := handleInput st in
  blocks st' = blocks st
  /\ noteContent st' = noteContent st
  /\ selection st' = selection st
  /\ (selection st = None -> st' = st)
  /\ (forall range,
        selection st = Some range ->
        isOpen (slashMenuState st') = true ->
        exists text,
          isCollapsed range = true
          /\ resolveIn (blocks st) (startContainer range) = Some (Text text)
          /\ substring 0 (startOffset range) text
             = String "/"%char (query (slashMenuState st'))
          /\ noWhiteSpace (query (slashMenuState st')) = true).
Proof.
  assert (Hclose : forall s,
             blocks (closeIfOpen s) = blocks s
             /\ noteContent (closeIfOpen s) = noteContent s
             /\ selection (closeIfOpen s) = selection s
             /\ isOpen (slashMenuState (closeIfOpen s)) = false).
  { intros s. unfold closeIfOpen.
    destruct (isOpen (slashMenuState s)) eqn:E; repeat split; assumption. }
  cbv zeta. unfold handleInput.
  destruct (selection st) as [range|] eqn:Hsel.
  2:{ do 3 (split; [reflexivity || exact Hsel |]).
      split; [intros _; reflexivity |].
      intros range Hr. discriminate. }
  destruct (isCollapsed range) eqn:Hcol; cbn [negb].
  2:{ destruct (Hclose st) as (H1 & H2 & H3 & H4). rewrite H4.
      do 3 (split; [congruence |]). split; [discriminate |].
      intros r _ Ho. discriminate. }
  destruct (resolveIn (blocks st) (startContainer range)) as [[text|t a cs]|]
    eqn:Hres.
  2,3: destruct (Hclose st) as (H1 & H2 & H3 & H4); rewrite H4;
       do 3 (split; [congruence |]); (split; [discriminate |]);
       intros r _ Ho; discriminate.
  destruct (commandMatch _) as [q|] eqn:Hm.
  2:{ destruct (Hclose st) as (H1 & H2 & H3 & H4). rewrite H4.
      do 3 (split; [congruence |]). split; [discriminate |].
      intros r _ Ho. discriminate. }
  apply commandMatch_Some in Hm as [Hm Hq].
  cbn. do 3 (split; [reflexivity || assumption |]). split; [discriminate |].
  intros r [= <-] _. exists text. repeat split; assumption.
Qed.


(** ** The block of the cursor *)

(** X11.  The block container of the editor root itself is none; for a
    node in the editor it is the top-level element on the way to it: the
    first step of its path when that child of the root is an element, and
    none for a text node lying directly in the root. *)
Theorem getBlockContainer_top_level (l : list Node) (path : list nat)
        (n : Node) :
  path = [] \/ resolveIn l path = Some n ->
  getBlockContainer path l
  = match path with
    | [] => None
    | i :: _ =>
        match nth_error l i with
        | Some (Element _ _ _) => Some i
        | _ => None
        end
    end.
Proof.
  intros [-> | Hres]; [reflexivity |].
  destruct path as [|i rest]; [discriminate |].
  unfold getBlockContainer, isTextNode. rewrite Hres.
  cbn [resolveIn] in Hres.
  destruct (nth_error l i) as [b|] eqn:Hb; [| discriminate].
  assert (Hc : forall up, climb l (up ++ [i])
                          = match b with
                            | Element _ _ _ => Some i
                            | Text _ => None
                            end).
  { intros up. rewrite climb_snoc. cbn. now rewrite Hb. }
  destruct rest as [|j rest].
  - injection Hres as ->. destruct n as [d|t a cs]; [reflexivity |].
    cbn. now rewrite Hb.
  - destruct b as [d|t a cs]; [discriminate |].
    destruct n as [d|t' a' cs'].
    + change (removelast (i :: j :: rest)) with (i :: removelast (j :: rest)).
      cbn [rev]. apply Hc.
    + cbn [rev]. apply Hc.
Qed.


Lemma after_setBlock (l new : list Node) (i : nat) (b b' : Node) :
  nth_error l i = Some b ->
  after i new (setBlock i b' l)
  = firstn i l ++ (b' :: new) ++ skipn (S i) l.
Proof.
  intros H. unfold after.
  rewrite (firstn_nth_error_snoc _ _ _ (nth_error_setBlock _ _ _ b' H)).
  pose proof (replaceWith_setBlock l [] i b b' H) as Hr.
  unfold replaceWith in Hr. cbn [app] in Hr.
  assert (Hlen : (i < List.length l)%nat)
    by (apply nth_error_Some; congruence).
  assert (Hf : firstn i (setBlock i b' l) = firstn i l).
  { unfold setBlock. rewrite firstn_app, length_firstn, Nat.min_l by lia.
    rewrite Nat.sub_diag, firstn_O, app_nil_r, firstn_firstn.
    now rewrite Nat.min_id. }
  assert (Hs : skipn (S i) (setBlock i b' l) = skipn (S i) l).
  { unfold setBlock. rewrite skipn_app, length_firstn, Nat.min_l by lia.
    rewrite (skipn_all2 (n := S i) (firstn i l))
      by (rewrite length_firstn; lia).
    now replace (S i - i)%nat with 1%nat by lia. }
  rewrite Hf, Hs, <- !app_assoc. reflexivity.
Qed.



Lemma nth_error_middle (l1 l2 : list Node) (e : Node) (i : nat) :
  List.length l1 = i -> nth_error (l1 ++ e :: l2) i = Some e.
Proof.
  intros <-. rewrite nth_error_app2 by lia. now rewrite Nat.sub_diag.
Qed.

Lemma length_firstn_block (l : list Node) (i : nat) (b : Node) :
  nth_error l i = Some b ->
  List.length (firstn i l) = i /\ List.length (firstn (S i) l) = S i.
Proof.
  intros H.
  assert (Hlen : (i < List.length l)%nat)
    by (apply nth_error_Some; congruence).
  rewrite !length_firstn. lia.
Qed.

(** The node the cursor is put in: the created element itself, or its first
    child for a list, a checklist or a code block. *)
Definition focusNode (e : Node) (focusPath : list nat) : option Node :=
  match focusPath, e with
  | [], _ => Some e
  | _, Element _ _ cs => resolveIn cs focusPath
  | _, Text _ => None
  end.

(** X13.  After a command that creates an element, the created element is in the
    document and the selection is collapsed inside it, in the node to be
    typed in (the heading or quote itself, the list item, the code element),
    at an offset that is a position in that node: 0, or 2 in a checklist
    item, just after its checkbox and its space. *)
Theorem handleCommandSelect_cursor_in_new_element (command : Command)
        (st : EditorState) (range : Range) (e : Node) (fp : list nat) :
  selection st = Some range ->
  newElementFor command = Some (e, fp) ->
  let st' := handleCommandSelect innerText command st in
  exists at_ offset t a cs,
    nth_error (blocks st') at_ = Some e
    /\ selection st' = Some (collapsedAt (at_ :: fp) offset)
    /\ resolveIn (blocks st') (at_ :: fp) = Some (Element t a cs)
    /\ focusNode e fp = Some (Element t a cs)
    /\ (offset <= List.length cs)%nat
    /\ offset = match command with
                | ActionCommand todoList => 2%nat
                | _ => 0%nat
                end.
Proof.
  intros Hsel Hnew. cbv zeta. unfold handleCommandSelect. rewrite Hsel.
  assert (Hfocus : exists t a cs,
             focusNode e fp = Some (Element t a cs)
             /\ (match command with
                 | ActionCommand todoList => 2
                 | _ => 0
                 end <= List.length cs)%nat
             /\ forall l at_, nth_error l at_ = Some e ->
                              resolveIn l (at_ :: fp) = Some (Element t a cs)).
  { destruct command as [tg|[]]; cbn in Hnew; try discriminate;
      injection Hnew as <- <-; do 3 eexists;
      (split; [reflexivity |]); (split; [cbn; lia |]);
      intros l at_ Hl; cbn [resolveIn]; rewrite Hl; reflexivity. }
  destruct Hfocus as (t & a & cs & Hf & Hoff & Hres).
  assert (Hcmd :
    forall (A : Type) (u v w : A),
      match command with
      | ActionCommand askAI => u
      | ActionCommand table => v
      | _ => w
      end = w).
  { intros A u v w. destruct command as [tg|[]]; try reflexivity;
      discriminate. }
  destruct (getBlockContainer (startContainer range) (blocks st))
    as [i|] eqn:Hblock.
  - destruct (climb_block_is_element _ _ _ Hblock) as (t0 & a0 & cs0 & Hb).
    rewrite Hb.
    destruct (length_firstn_block _ _ _ Hb) as (L1 & L2).
    destruct (startsWith _ _).
    + rewrite Hcmd, Hnew, (nth_error_setBlock _ _ _ _ Hb).
      cbn [clearChildren textContent map String.concat trim trimStart trimEnd
           String.eqb].
      cbn [blocks selection closeSlashMenu setSlashMenuState withSelection
           withBlocks].
      rewrite (replaceWith_setBlock _ _ _ _ _ Hb).
      assert (Hat : nth_error (replaceWith i [e] (blocks st)) i = Some e)
        by (unfold replaceWith; now apply nth_error_middle).
      exists i. do 4 eexists. split; [exact Hat |].
      split; [reflexivity |]. split; [apply Hres, Hat |].
      split; [exact Hf |]. split; [exact Hoff | reflexivity].
    + rewrite Hcmd, Hnew, Hb.
      destruct (String.eqb (trim (textContent (Element t0 a0 cs0))) "");
        cbn [blocks selection closeSlashMenu setSlashMenuState withSelection
             withBlocks].
      * assert (Hat : nth_error (replaceWith i [e] (blocks st)) i = Some e)
          by (unfold replaceWith; now apply nth_error_middle).
        exists i. do 4 eexists. split; [exact Hat |].
        split; [reflexivity |]. split; [apply Hres, Hat |].
        split; [exact Hf |]. split; [exact Hoff | reflexivity].
      * assert (Hat : nth_error (after i [e] (blocks st)) (S i) = Some e)
          by (unfold after; now apply nth_error_middle).
        exists (S i). do 4 eexists. split; [exact Hat |].
        split; [reflexivity |]. split; [apply Hres, Hat |].
        split; [exact Hf |]. split; [exact Hoff | reflexivity].
  - rewrite Hcmd, Hnew.
    cbn [blocks selection closeSlashMenu setSlashMenuState withSelection
         withBlocks].
    assert (Hat : nth_error (blocks st ++ [e]) (List.length (blocks st))
                  = Some e) by now apply nth_error_middle.
    exists (List.length (blocks st)). do 4 eexists. split; [exact Hat |].
    split; [reflexivity |]. split; [apply Hres, Hat |].
    split; [exact Hf |]. split; [exact Hoff | reflexivity].
Qed.

Lemma nth_error_second (l1 l2 : list Node) (a e : Node) (i : nat) :
  List.length l1 = i -> nth_error (l1 ++ [a; e] ++ l2) (S i) = Some e.
Proof.
  intros <-. rewrite nth_error_app2 by lia.
  now replace (S (List.length l1) - List.length l1)%nat with 1%nat by lia.
Qed.

(** ** Where the table goes *)

(** X14.  With the cursor in a block, the table and its paragraph take the place
    of the block when the block has no text, and follow the block
    otherwise, wherever in the block the cursor is; the blocks before and
    after are kept.  The cursor is then at the start of the new paragraph,
    the saved range is dropped, the dialog is closed, and the note holds the
    markup of the new document. *)
Theorem handleCreateTable_placement (rows cols : Z) (st : EditorState)
        (range : Range) (i : nat) (block : Node) :
  match savedRange st with Some r => Some r | None => selection st end
  = Some range ->
  getBlockContainer (startContainer range) (blocks st) = Some i ->
  nth_error (blocks st) i = Some block ->
  let st' := handleCreateTable turndown rows cols st in
  let fragment := [tableElement rows cols; emptyParagraph] in
  blocks st'
  = (if String.eqb (trim (textContent block)) ""
     then firstn i (blocks st) ++ fragment ++ skipn (S i) (blocks st)
     else firstn i (blocks st) ++ block :: fragment ++ skipn (S i) (blocks st))
  /\ (exists p, selection st' = Some (collapsedAt [p] 0)
                /\ nth_error (blocks st') p = Some emptyParagraph)
  /\ savedRange st' = None
  /\ isTableModalOpen st' = false
  /\ noteContent st' = turndown (blocks st').
Proof.
  intros Hsel Hblock Hb. cbv zeta. unfold handleCreateTable.
  cbn [savedRange selection blocks setIsTableModalOpen].
  rewrite Hsel, Hblock, Hb.
  destruct (length_firstn_block _ _ _ Hb) as (L1 & L2).
  assert (Hblur : forall s,
             blocks (handleBlur turndown s) = blocks s
             /\ selection (handleBlur turndown s) = selection s
             /\ savedRange (handleBlur turndown s) = savedRange s
             /\ isTableModalOpen (handleBlur turndown s) = isTableModalOpen s
             /\ noteContent (handleBlur turndown s) = turndown (blocks s)).
  { intros s. unfold handleBlur.
    destruct (String.eqb (turndown (blocks s)) (noteContent s)) eqn:E;
      cbn [negb]; repeat split.
    apply String.eqb_eq in E. now symmetry. }
  destruct (String.eqb (trim (textContent block)) "");
    match goal with
    | |- context [handleBlur turndown ?s] =>
        destruct (Hblur s) as (B1 & B2 & B3 & B4 & B5);
        rewrite B1, B2, B3, B4, B5
    end;
    cbn [blocks selection savedRange isTableModalOpen setSavedRange
         withSelection withBlocks setIsTableModalOpen].
  - split; [reflexivity |]. split; [| repeat split].
    exists (S i). split; [reflexivity |].
    unfold replaceWith. now apply nth_error_second.
  - split.
    { unfold after. rewrite (firstn_nth_error_snoc _ _ _ Hb), <- app_assoc.
      reflexivity. }
    split; [| repeat split].
    exists (S (S i)). split; [reflexivity |].
    unfold after. now apply nth_error_second.
Qed.


(** ** Saving *)

(** X15.  Saving on blur makes the note hold the markup of the document and
    touches nothing else; it writes only when that markup differs from what
    the note holds, so saving twice is saving once. *)
Theorem handleBlur_saves_on_change_only (st : EditorState) :
  noteContent (handleBlur turndown st) = turndown (blocks st)
  /\ blocks (handleBlur turndown st) = blocks st
  /\ (turndown (blocks st) = noteContent st -> handleBlur turndown st = st)
  /\ (handleBlur turndown st = st -> turndown (blocks st) = noteContent st)
  /\ handleBlur turndown (handleBlur turndown st) = handleBlur turndown st.
Proof.
  assert (Hsame : turndown (blocks st) = noteContent st ->
                  handleBlur turndown st = st).
  { intros E. unfold handleBlur. now rewrite E, String.eqb_refl. }
  assert (Hnote : noteContent (handleBlur turndown st) = turndown (blocks st)).
  { unfold handleBlur.
    destruct (String.eqb (turndown (blocks st)) (noteContent st)) eqn:E;
      cbn [negb]; [| reflexivity].
    apply String.eqb_eq in E. now symmetry. }
  assert (Hblocks : blocks (handleBlur turndown st) = blocks st).
  { unfold handleBlur. now destruct (negb _). }
  split; [exact Hnote |]. split; [exact Hblocks |].
  split; [exact Hsame |]. split.
  - intros Heq. rewrite Heq in Hnote. now symmetry.
  - unfold handleBlur at 1. rewrite Hblocks, Hnote, String.eqb_refl.
    reflexivity.
Qed.

(** ** What an AI request always does *)

(** X16.  Whatever the service does, the request handler fulfils its
    promise, closes the assistant and clears the selected text, the
    assistant's position and the saved range.  When the service answers and
    no range was saved, the editor's markup is extended by a line break and
    the markup of the answer and parsed again, and the note is saved; when
    the service fails, the document and the note are untouched. *)
Theorem handleAiRequest_always_resets (action customPrompt : string)
        (st : EditorState) :
  let r := handleAiRequest turndown markedParse appendInnerHTML
             replaceRangeWithText askAIService serviceFunction
             action customPrompt st in
  snd r = Fulfilled
  /\ isAssistantOpen (fst r) = false
  /\ selectedText (fst r) = EmptyString
  /\ assistantPosition (fst r) = false
  /\ savedRange (fst r) = None
  /\ (forall result,
         callService askAIService serviceFunction action customPrompt
                     (requestContext st) = Resolves result ->
         savedRange st = None ->
         blocks (fst r)
         = appendInnerHTML (blocks st) ("<br>" ++ markedParse result)%string
         /\ noteContent (fst r) = turndown (blocks (fst r)))
  /\ (forall message,
         callService askAIService serviceFunction action customPrompt
                     (requestContext st) = Rejects message ->
         blocks (fst r) = blocks st /\ noteContent (fst r) = noteContent st).
Proof.
  cbv zeta. unfold handleAiRequest.
  change (requestContext (setIsAssistantOpen false st))
    with (requestContext st).
  assert (Hblur : forall s,
             blocks (handleBlur turndown s) = blocks s
             /\ isAssistantOpen (handleBlur turndown s) = isAssistantOpen s
             /\ noteContent (handleBlur turndown s) = turndown (blocks s)).
  { intros s. unfold handleBlur.
    destruct (String.eqb (turndown (blocks s)) (noteContent s)) eqn:E;
      cbn [negb]; repeat split.
    apply String.eqb_eq in E. now symmetry. }
  destruct (callService _ _ _ _ _) as [result|message] eqn:Hcall.
  - cbn [fst snd finallyReset selectedText assistantPosition savedRange
         isAssistantOpen setSavedRange setAssistantPosition setSelectedText
         blocks noteContent].
    match goal with
    | |- context [handleBlur turndown ?s] =>
        destruct (Hblur s) as (B1 & B2 & B3); rewrite B1, B2, B3
    end.
    split; [reflexivity |]. split.
    { cbn [savedRange setIsAssistantOpen].
      destruct (savedRange st) as [r|];
        [destruct (replaceRangeWithText _ _ _) |]; reflexivity. }
    split; [reflexivity |]. split; [reflexivity |]. split; [reflexivity |].
    split; [| intros message' Hr; discriminate].
    intros result' [= <-] Hnone.
    cbn [savedRange setIsAssistantOpen]. rewrite Hnone. split; reflexivity.
  - do 5 (split; [reflexivity |]).
    split; [intros result' Hr; discriminate |].
    intros message' _. split; reflexivity.
Qed.

(** ** The table dialog keeps its numbers positive *)

Inductive ModalEvent : Type :=
| ChangeRows (parsed : option Z)       (* typing in the rows input *)
| ChangeCols (parsed : option Z).      (* typing in the columns input *)

Definition modalStep (m : TableModal) (e : ModalEvent) : TableModal :=
  match e with
  | ChangeRows v => onChangeRows v m
  | ChangeCols v => onChangeCols v m
  end.

(** X17.  Whatever is typed into the dialog, in any order, unparsable input
    included, its rows and columns stay at least 1, so submitting always
    creates a table, with the numbers the dialog shows. *)
Theorem table_dialog_always_submits (events : list ModalEvent)
        (st : EditorState) :
  let m := fold_left modalStep events initialModal in
  (1 <= rows m)%Z /\ (1 <= cols m)%Z
  /\ handleSubmit turndown m st
     = handleCreateTable turndown (rows m) (cols m) st.
Proof.
  cbv zeta.
  assert (Hinv : forall m0,
             (1 <= rows m0)%Z /\ (1 <= cols m0)%Z ->
             (1 <= rows (fold_left modalStep events m0))%Z
             /\ (1 <= cols (fold_left modalStep events m0))%Z).
  { induction events as [|e events IH]; intros m0 Hm; [exact Hm |].
    cbn [fold_left]. apply IH.
    destruct e as [v|v]; cbn [modalStep onChangeRows onChangeCols rows cols];
      unfold clampInput; lia. }
  destruct (Hinv initialModal) as (Hr & Hc); [cbn; lia |].
  split; [exact Hr |]. split; [exact Hc |].
  unfold handleSubmit.
  replace (0 <? rows _)%Z with true by (symmetry; apply Z.ltb_lt; lia).
  replace (0 <? cols _)%Z with true by (symmetry; apply Z.ltb_lt; lia).
  reflexivity.
Qed.

End MoreHandlers.

Lemma handleInput_opens_menu_on_trigger_only_witness :
  let st :=
    mkEditorState [Element "p" [] [Text "/head"]] EmptyString
      (Some (collapsedAt [0; 0]%nat 5)) None
      EmptyString false EmptyString selectionMode false
      (mkSlashMenuState false EmptyString) false [] in
  let noRange :=
    mkEditorState [Element "p" [] [Text "/head"]] EmptyString
      None None
      EmptyString false EmptyString selectionMode false
      (mkSlashMenuState true "head") false [] in
  isOpen (slashMenuState (handleInput st)) = true
  /\ blocks (handleInput st) = blocks st
  /\ (exists text,
        resolveIn (blocks st) [0; 0]%nat = Some (Text text)
        /\ substring 0 5 text = "/head"%string)
  /\ handleInput noRange = noRange.
Proof.
  intros st noRange.
  destruct (handleInput_opens_menu_on_trigger_only st)
    as (Hb & _ & _ & _ & Hopen).
  split; [reflexivity |]. split; [exact Hb |]. split.
  - destruct (Hopen (collapsedAt [0; 0]%nat 5) eq_refl eq_refl)
      as (text & _ & Hr & Hq & _).
    exists text. split; [exact Hr | exact Hq].
  - exact (proj1 (proj2 (proj2 (proj2
             (handleInput_opens_menu_on_trigger_only noRange)))) eq_refl).
Defined.

Lemma getBlockContainer_top_level_witness :
  resolveIn (blocks helloNote) [0; 0]%nat = Some (Text "hello")
  /\ getBlockContainer [0; 0]%nat (blocks helloNote) = Some 0%nat
  /\ getBlockContainer [] (blocks helloNote) = None.
Proof.
  split; [reflexivity |]. split.
  - apply (getBlockContainer_top_level (blocks helloNote) [0; 0]%nat
             (Text "hello")).
    right. reflexivity.
  - apply (getBlockContainer_top_level (blocks helloNote) []
             (Text "hello")).
    left. reflexivity.
Defined.


Lemma handleCommandSelect_cursor_in_new_element_witness :
  let st' :=
    handleCommandSelect (fun _ => EmptyString) (ActionCommand todoList)
      helloNote in
  exists e fp at_,
    newElementFor (ActionCommand todoList) = Some (e, fp)
    /\ nth_error (blocks st') at_ = Some e
    /\ selection st' = Some (collapsedAt (at_ :: fp) 2).
Proof.
  destruct (newElementFor (ActionCommand todoList)) as [[e fp]|] eqn:E;
    [| discriminate].
  destruct (handleCommandSelect_cursor_in_new_element (fun _ => EmptyString)
              (ActionCommand todoList) helloNote (collapsedAt [0; 0]%nat 5)
              e fp eq_refl E)
    as (at_ & offset & t & a & cs & Hat & Hsel & _ & _ & _ & ->).
  exists e, fp, at_. split; [reflexivity |]. split; [exact Hat | exact Hsel].
Defined.

Lemma handleCreateTable_placement_witness :
  blocks (handleCreateTable (fun _ => EmptyString) 2 2 helloNote)
  = [Element "p" [] [Text "hello"]; tableElement 2 2; emptyParagraph].
Proof.
  exact (proj1 (handleCreateTable_placement (fun _ => EmptyString) 2 2
                  helloNote (collapsedAt [0; 0]%nat 5) 0
                  (Element "p" [] [Text "hello"]) eq_refl eq_refl eq_refl)).
Defined.

Lemma handleBlur_saves_on_change_only_witness :
  handleBlur (fun _ => "hello"%string) helloNote = helloNote
  /\ noteContent (handleBlur (fun _ => "hello, world"%string) helloNote)
     = "hello, world"%string.
Proof.
  split.
  - exact (proj1 (proj2 (proj2
             (handleBlur_saves_on_change_only (fun _ => "hello"%string)
                helloNote))) eq_refl).
  - exact (proj1 (handleBlur_saves_on_change_only
                    (fun _ => "hello, world"%string) helloNote)).
Defined.

Lemma handleAiRequest_always_resets_witness :
  let reparse : list Node -> string -> list Node :=
    fun l html => (l ++ [Text html])%list in
  let r :=
    handleAiRequest (fun _ => EmptyString) (fun s => s) reparse
      (fun r _ l => (l, r)) (fun _ _ => Resolves "ok") (fun _ => None)
      "askAI" "hi" helloNote in
  let failed :=
    handleAiRequest (fun _ => EmptyString) (fun s => s) reparse
      (fun r _ l => (l, r)) (fun _ _ => Rejects "503"%string)
      (fun _ => None) "askAI" "hi" helloNote in
  snd r = Fulfilled
  /\ blocks (fst r) = reparse (blocks helloNote) "<br>ok"%string
  /\ blocks (fst failed) = blocks helloNote.
Proof.
  intros reparse r failed.
  destruct (handleAiRequest_always_resets (fun _ => EmptyString)
              (fun s => s) reparse (fun r _ l => (l, r))
              (fun _ _ => Resolves "ok") (fun _ => None)
              "askAI" "hi" helloNote)
    as (Hsettled & _ & _ & _ & _ & Hdoc & _).
  split; [exact Hsettled |]. split.
  - exact (proj1 (Hdoc "ok"%string eq_refl eq_refl)).
  - exact (proj1 (proj2 (proj2 (proj2 (proj2 (proj2 (proj2
             (handleAiRequest_always_resets (fun _ => EmptyString)
                (fun s => s) reparse (fun r _ l => (l, r))
                (fun _ _ => Rejects "503"%string) (fun _ => None)
                "askAI" "hi" helloNote)))))) "503"%string eq_refl)).
Defined.

End Editor.

(* ================================================================== *)
(** * Slash menu (src/components/SlashCommandMenu.tsx)                 *)
(* ================================================================== *)

Module SlashMenu.
Import Editor.

(** * Keyboard navigation of the slash menu (src/components/SlashCommandMenu.tsx
    lines 47-85) *)

Local Open Scope Z_scope.

Inductive Key : Type := ArrowUp | ArrowDown | Enter | Escape | OtherKey.

Inductive Callback : Type :=
  | onSelect (command : Command)
  | onClose.

(** [filteredCommands[selectedIndex]] *)
Definition commandAt (commands : list Command) (selectedIndex : Z)
  : option Command :=
  if selectedIndex <? 0 then None
  else nth_error commands (Z.to_nat selectedIndex).

(** [handleKeyDown], lines 69-81: the new [selectedIndex] and the callback
    that is called, if any. *)
Definition handleKeyDown (commands : list Command) (selectedIndex : Z)
  (key : Key) : Z * option Callback :=
  let len := Z.of_nat (List.length commands) in
  match key with
  | ArrowUp =>
      ((if 0 <? selectedIndex then selectedIndex - 1 else len - 1), None)
  | ArrowDown =>
      ((if selectedIndex <? len - 1 then selectedIndex + 1 else 0), None)
  | Enter =>
      (selectedIndex,
       match commandAt commands selectedIndex with
       | Some command => Some (onSelect command)
       | None => None
       end)
  | Escape => (selectedIndex, Some onClose)
  | OtherKey => (selectedIndex, None)
  end.

(** The menu for one query: the keys pressed one after the other, from
    [selectedIndex = 0]; the callbacks in the order they are called. *)
Fixpoint pressKeys (commands : list Command) (selectedIndex : Z)
  (keys : list Key) : Z * list Callback :=
  match keys with
  | [] => (selectedIndex, [])
  | key :: rest =>
      let '(i, cb) := handleKeyDown commands selectedIndex key in
      let '(j, cbs) := pressKeys commands i rest in
      (j, match cb with Some c => c :: cbs | None => cbs end)
  end.

Definition inRange (commands : list Command) (i : Z) : Prop :=
  0 <= i < Z.of_nat (List.length commands).

Lemma handleKeyDown_inRange (commands : list Command) (i : Z) (key : Key) :
  inRange commands i -> inRange commands (fst (handleKeyDown commands i key)).
Proof.
  unfold inRange. intros Hi. destruct key; cbn; try assumption.
  - destruct (Z.ltb_spec 0 i); lia.
  - destruct (Z.ltb_spec i (Z.of_nat (List.length commands) - 1)); lia.
Qed.

(** X18.  In a menu that offers a command, whatever keys are pressed the
    selected index stays an index of an offered command, every command
    passed to [onSelect] is one the menu offers, and the two arrows undo
    each other (so they wrap around at both ends). *)
Theorem menu_selection_stays_on_a_command (query : string) (keys : list Key) :
  filteredCommands query <> [] ->
  let commands := filteredCommands query in
  inRange commands (fst (pressKeys commands 0 keys)) /\
  (forall command, In (onSelect command) (snd (pressKeys commands 0 keys)) ->
                   In command commands) /\
  (forall i, inRange commands i ->
     fst (handleKeyDown commands (fst (handleKeyDown commands i ArrowDown))
            ArrowUp) = i /\
     fst (handleKeyDown commands (fst (handleKeyDown commands i ArrowUp))
            ArrowDown) = i).
Proof.
  intros Hne commands.
  assert (H0 : inRange commands 0).
  { subst commands. unfold inRange. revert Hne.
    destruct (filteredCommands query); [intros Hne; contradiction | cbn; lia]. }
  clearbody commands. clear Hne.
  split; [| split].
  - revert H0. generalize 0 as i. induction keys as [|key rest IH]; intros i Hi.
    + exact Hi.
    + cbn [pressKeys].
      pose proof (handleKeyDown_inRange commands i key Hi) as Hstep.
      destruct (handleKeyDown commands i key) as [i' cb].
      specialize (IH i' Hstep).
      destruct (pressKeys commands i' rest) as [j cbs]. exact IH.
  - clear H0. generalize 0 as i.
    induction keys as [|key rest IH]; intros i command Hin.
    + destruct Hin.
    + cbn [pressKeys] in Hin.
      destruct (handleKeyDown commands i key) as [i' cb] eqn:Ekey.
      specialize (IH i' command).
      destruct (pressKeys commands i' rest) as [j cbs].
      destruct cb as [c|]; [| now apply IH].
      destruct Hin as [-> | Hin]; [| now apply IH].
      destruct key; cbn in Ekey; try discriminate.
      * unfold commandAt in Ekey.
        destruct (i <? 0); [discriminate |].
        destruct (nth_error commands (Z.to_nat i)) eqn:En; [| discriminate].
        injection Ekey as _ ->.
        eapply nth_error_In, En.
  - unfold inRange. intros i Hi. cbn.
    destruct (Z.ltb_spec i (Z.of_nat (List.length commands) - 1));
      destruct (Z.ltb_spec 0 i).
    all: repeat match goal with
           | |- context [?a <? ?b] => destruct (Z.ltb_spec a b)
           end; lia.
Qed.

Lemma menu_selection_stays_on_a_command_witness :
  filteredCommands "head" <> []
  /\ inRange (filteredCommands "head")
             (fst (pressKeys (filteredCommands "head") 0 [ArrowUp; Enter]))
  /\ snd (pressKeys (filteredCommands "head") 0 [ArrowUp; Enter])
     = [onSelect (TagCommand h3)].
Proof.
  assert (Hne : filteredCommands "head" <> []) by (vm_compute; discriminate).
  split; [exact Hne |].
  split; [| vm_compute; reflexivity].
  exact (proj1 (menu_selection_stays_on_a_command "head" [ArrowUp; Enter]
                  Hne)).
Defined.

End SlashMenu.

(* ================================================================== *)
(** * Dictation session (src/hooks/useSpeechRecognition.ts)            *)
(* ================================================================== *)

Module Dictation.

Local Open Scope Z_scope.

(** What the hook does to the recognition service, the timers and the
    console, in order. *)
Inductive Effect : Type :=
| RecognitionStart                      (* recognition.start() *)
| RecognitionStop                       (* recognition.stop() *)
| SetTimeout (id : nat) (delay : Z)     (* window.setTimeout(startRecognition, delay) *)
| ClearTimeout (id : nat)
| ConsoleError (message : string).

(** The hook's React state, its refs and the variables of the effect's
    closure. *)
Record Session : Type := mkSession {
  isListening : bool;
  transcript : string;
  error : option string;
  listeningIntentionally : bool;        (* listeningIntentionallyRef.current *)
  retryTimeout : option nat;            (* retryTimeoutRef.current *)
  retryCount : Z;
  nextTimerId : nat;                    (* the id the next setTimeout returns *)
  pendingTimers : list (nat * Z);       (* scheduled and not yet fired or cleared *)
  effects : list Effect
}.

Definition MAX_RETRIES : Z := 3.

Definition initialSession : Session :=
  mkSession false "" None false None 0 1 [] [].

Definition emit (e : Effect) (s : Session) : Session :=
  mkSession (isListening s) (transcript s) (error s)
    (listeningIntentionally s) (retryTimeout s) (retryCount s)
    (nextTimerId s) (pendingTimers s) (effects s ++ [e]).

Definition setIsListening (b : bool) (s : Session) : Session :=
  mkSession b (transcript s) (error s)
    (listeningIntentionally s) (retryTimeout s) (retryCount s)
    (nextTimerId s) (pendingTimers s) (effects s).

Definition setTranscript (t : string) (s : Session) : Session :=
  mkSession (isListening s) t (error s)
    (listeningIntentionally s) (retryTimeout s) (retryCount s)
    (nextTimerId s) (pendingTimers s) (effects s).

Definition setError (e : option string) (s : Session) : Session :=
  mkSession (isListening s) (transcript s) e
    (listeningIntentionally s) (retryTimeout s) (retryCount s)
    (nextTimerId s) (pendingTimers s) (effects s).

Definition setListeningIntentionally (b : bool) (s : Session) : Session :=
  mkSession (isListening s) (transcript s) (error s)
    b (retryTimeout s) (retryCount s)
    (nextTimerId s) (pendingTimers s) (effects s).

Definition setRetryCount (n : Z) (s : Session) : Session :=
  mkSession (isListening s) (transcript s) (error s)
    (listeningIntentionally s) (retryTimeout s) n
    (nextTimerId s) (pendingTimers s) (effects s).

(** [retryTimeoutRef.current = window.setTimeout(startRecognition, delay)] *)
Definition scheduleRetry (delay : Z) (s : Session) : Session :=
  let id := nextTimerId s in
  mkSession (isListening s) (transcript s) (error s)
    (listeningIntentionally s) (Some id) (retryCount s)
    (S id) (pendingTimers s ++ [(id, delay)])
    (effects s ++ [SetTimeout id delay]).

(** The pending timers without the one with the given id. *)
Definition removeTimer (id : nat) (timers : list (nat * Z)) : list (nat * Z) :=
  filter (fun t => negb (Nat.eqb (fst t) id)) timers.

(** [clearTimeout(retryTimeoutRef.current); retryTimeoutRef.current = null] *)
Definition clearRetry (s : Session) : Session :=
  match retryTimeout s with
  | Some id =>
      mkSession (isListening s) (transcript s) (error s)
        (listeningIntentionally s) None (retryCount s)
        (nextTimerId s)
        (removeTimer id (pendingTimers s))
        (effects s ++ [ClearTimeout id])
  | None => s
  end.

Definition truthy (s : string) : bool :=
  match s with EmptyString => false | _ => true end.

(** [stopListening(finalError?)], lines 66-84; a throwing
    [recognition.stop()] is caught and only logged. *)
Definition stopListening (finalError : option string) (s : Session)
  : Session :=
  let s1 := setListeningIntentionally false s in
  let s2 := clearRetry s1 in
  let s3 := emit RecognitionStop s2 in
  let s4 := setIsListening false s3 in
  match finalError with
  | Some e => if truthy e then setError (Some e) s4 else s4
  | None => s4
  end.

(** [startRecognition], lines 101-111; [startThrows] says whether
    [recognition.start()] throws. *)
Definition startRecognition (startThrows : bool) (s : Session) : Session :=
  if listeningIntentionally s then
    let s1 := emit RecognitionStart s in
    if startThrows
    then stopListening (Some "Speech recognition service failed to restart."%string)
           (emit (ConsoleError "Recognition restart failed") s1)
    else s1
  else s.

(** One entry of [event.results]: [isFinal] and the first alternative's
    transcript. *)
Definition RecognitionResult : Type := (bool * string)%type.

(** [recognition.onresult], lines 113-124; [results] are the entries from
    [event.resultIndex] on. *)
Definition onresult (results : list RecognitionResult) (s : Session)
  : Session :=
  let s1 := setRetryCount 0 s in         (* Reset on success *)
  let s2 := setError None s1 in
  let finalTranscript :=
    fold_left
      (fun (acc : string) (r : RecognitionResult) =>
         if fst r then String.append acc (snd r) else acc)
      results EmptyString in
  setTranscript
    (String.append
       (if truthy (transcript s2)
        then String.append (transcript s2) " "
        else EmptyString)
       finalTranscript)
    s2.

(** [recognition.onerror], lines 126-163; [code] is [event.error]. *)
Definition onerror (code : string) (s : Session) : Session :=
  let s0 := emit (ConsoleError ("Speech recognition error: " ++ code)) s in
  if (String.eqb code "network" && listeningIntentionally s0)%bool then
    if retryCount s0 <? MAX_RETRIES then
      let s1 := setRetryCount (retryCount s0 + 1) s0 in
      let retryDelay := 2 ^ (retryCount s1 - 1) * 1000 in    (* 1s, 2s, 4s *)
      let s2 := setError (Some "Connection unstable. Retrying..."%string) s1 in
      scheduleRetry retryDelay s2
    else
      stopListening
        (Some "Network error. Please check your connection and try again."%string)
        s0
  else
    let unknown := "An unknown error occurred."%string in
    if String.eqb code "no-speech" then
      stopListening (Some "No speech was detected. Please try again."%string) s0
    else if (String.eqb code "not-allowed"
             || String.eqb code "service-not-allowed")%bool then
      stopListening
        (Some "Microphone access denied. Please allow it in browser settings."%string)
        s0
    else if String.eqb code "aborted" then
      if listeningIntentionally s0
      then stopListening (Some "Dictation was unexpectedly interrupted."%string) s0
      else s0                            (* Expected stop *)
    else stopListening (Some unknown) s0.

(** [recognition.onend], lines 165-172. *)
Definition onend (s : Session) : Session :=
  if negb (listeningIntentionally s) then setIsListening false s else s.

(** [start], lines 179-192. *)
Definition start (startThrows : bool) (s : Session) : Session :=
  if negb (isListening s) then
    let s1 := setListeningIntentionally true s in
    let s2 := setError None s1 in
    let s3 := setTranscript "" s2 in
    let s4 := setIsListening true s3 in
    let s5 := emit RecognitionStart s4 in
    if startThrows
    then stopListening (Some "Could not start speech recognition."%string)
           (emit (ConsoleError "Could not start speech recognition:") s5)
    else s5
  else s.

(** [stop], lines 194-196. *)
Definition stop (s : Session) : Session := stopListening None s.

(** The timer with the given id fires: it leaves the pending timers and
    runs [startRecognition]. *)
Definition timerFires (id : nat) (startThrows : bool) (s : Session)
  : Session :=
  if existsb (fun t => Nat.eqb (fst t) id) (pendingTimers s) then
    startRecognition startThrows
      (mkSession (isListening s) (transcript s) (error s)
         (listeningIntentionally s) (retryTimeout s) (retryCount s)
         (nextTimerId s)
         (removeTimer id (pendingTimers s))
         (effects s))
  else s.

(** The events that drive the session. *)
Inductive Event : Type :=
| UserStart (startThrows : bool)
| UserStop
| Result (results : list RecognitionResult)
| Error (code : string)
| End_
| TimerFires (id : nat) (startThrows : bool).

Definition handle (s : Session) (e : Event) : Session :=
  match e with
  | UserStart t => start t s
  | UserStop => stop s
  | Result r => onresult r s
  | Error c => onerror c s
  | End_ => onend s
  | TimerFires id t => timerFires id t s
  end.

Definition run (events : list Event) (s : Session) : Session :=
  fold_left handle events s.

(** The delays of the timers set so far, in order. *)
Definition scheduledDelays (s : Session) : list Z :=
  flat_map (fun e => match e with SetTimeout _ d => [d] | _ => [] end)
           (effects s).

(** The session after the user has started dictation. *)
Definition listening : Session := start false initialSession.

(** A network error, then the timer it has set fires and the restart does
    not throw. *)
Definition errorThenRestart (s : Session) : Session :=
  let s1 := onerror "network" s in
  match retryTimeout s1 with
  | Some id => timerFires id false s1
  | None => s1
  end.

(** Three network errors in a row, each followed by the restart its timer
    performs, then a fourth. *)
Definition fourNetworkErrors : list Event :=
  [ UserStart false;
    Error "network"; TimerFires 1 false;
    Error "network"; TimerFires 2 false;
    Error "network"; TimerFires 3 false;
    Error "network" ].

Example four_network_errors_trace :
  let s := run fourNetworkErrors initialSession in
  scheduledDelays s = [1000; 2000; 4000]
  /\ isListening s = false
  /\ listeningIntentionally s = false
  /\ error s
     = Some "Network error. Please check your connection and try again."%string.
Proof. repeat split. Qed.

Example result_resets_backoff :
  scheduledDelays
    (run [ UserStart false; Error "network"; TimerFires 1 false;
           Error "network"; TimerFires 2 false;
           Result [(true, "hello"%string)];
           Error "network" ] initialSession)
  = [1000; 2000; 1000].
Proof. reflexivity. Qed.

Lemma scheduledDelays_emit (e : Effect) (s : Session) :
  scheduledDelays (emit e s)
  = scheduledDelays s ++ match e with SetTimeout _ d => [d] | _ => [] end.
Proof.
  unfold scheduledDelays, emit; cbn [effects].
  rewrite flat_map_app. cbn. now rewrite app_nil_r.
Qed.

Lemma stopListening_stops (msg : string) (s : Session) :
  truthy msg = true ->
  let s' := stopListening (Some msg) s in
  isListening s' = false
  /\ listeningIntentionally s' = false
  /\ retryTimeout s' = None
  /\ error s' = Some msg
  /\ retryCount s' = retryCount s
  /\ scheduledDelays s' = scheduledDelays s.
Proof.
  intros Hm. unfold stopListening. rewrite Hm.
  unfold clearRetry.
  cbn [retryTimeout setListeningIntentionally].
  destruct (retryTimeout s) as [id|] eqn:Hrt; cbn; repeat split;
    try assumption;
    unfold scheduledDelays; cbn [effects];
    rewrite ?flat_map_app; cbn; now rewrite ?app_nil_r.
Qed.

Lemma onerror_network_retry (s : Session) (k : Z) :
  listeningIntentionally s = true ->
  1 <= k <= 3 ->
  retryCount s = k - 1 ->
  let s' := onerror "network" s in
  retryCount s' = k
  /\ scheduledDelays s' = (scheduledDelays s ++ [2 ^ (k - 1) * 1000])%list
  /\ retryTimeout s' = Some (nextTimerId s)
  /\ pendingTimers s'
     = (pendingTimers s ++ [(nextTimerId s, 2 ^ (k - 1) * 1000)])%list
  /\ listeningIntentionally s' = true
  /\ isListening s' = isListening s
  /\ error s' = Some "Connection unstable. Retrying..."%string.
Proof.
  intros Hl Hk Hc. unfold onerror.
  cbn [listeningIntentionally retryCount emit]. rewrite Hl, Hc.
  cbn [String.eqb Ascii.eqb Bool.eqb andb].
  replace (k - 1 <? MAX_RETRIES) with true
    by (symmetry; apply Z.ltb_lt; unfold MAX_RETRIES; lia).
  unfold scheduleRetry, scheduledDelays.
  cbn [retryCount setRetryCount setError isListening listeningIntentionally
       error retryTimeout pendingTimers effects nextTimerId].
  replace (k - 1 + 1) with k by lia.
  repeat split; try assumption.
  rewrite flat_map_app. cbn [flat_map app effects emit].
  rewrite flat_map_app. cbn [flat_map app]. now rewrite !app_nil_r.
Qed.

Lemma onresult_resets (s : Session) (results : list RecognitionResult) :
  retryCount (onresult results s) = 0.
Proof. reflexivity. Qed.

Lemma onerror_network_exhausted (s : Session) :
  listeningIntentionally s = true ->
  retryCount s = MAX_RETRIES ->
  let s' := onerror "network" s in
  isListening s' = false
  /\ listeningIntentionally s' = false
  /\ retryTimeout s' = None
  /\ scheduledDelays s' = scheduledDelays s
  /\ error s'
     = Some "Network error. Please check your connection and try again."%string.
Proof.
  intros Hl Hc. unfold onerror.
  cbn [listeningIntentionally retryCount emit]. rewrite Hl, Hc.
  cbn [String.eqb Ascii.eqb Bool.eqb andb].
  change (MAX_RETRIES <? MAX_RETRIES) with false. cbv iota.
  match goal with
  | |- context [stopListening (Some ?m) ?s0] =>
      destruct (stopListening_stops m s0 eq_refl)
        as (H1 & H2 & H3 & H4 & _ & H6)
  end.
  repeat split; try assumption.
  rewrite H6. rewrite scheduledDelays_emit. now rewrite app_nil_r.
Qed.

(** The restart that a retry timer performs: [recognition.start()] is
    called, the session keeps listening and the counter stays as it is. *)
Lemma retry_timer_restarts (s : Session) (id : nat) (d : Z) :
  listeningIntentionally s = true ->
  In (id, d) (pendingTimers s) ->
  let s' := timerFires id false s in
  listeningIntentionally s' = true
  /\ retryCount s' = retryCount s
  /\ scheduledDelays s' = scheduledDelays s
  /\ isListening s' = isListening s
  /\ effects s' = (effects s ++ [RecognitionStart])%list.
Proof.
  intros Hl Hp. unfold timerFires.
  assert (Hex : existsb (fun t => Nat.eqb (fst t) id) (pendingTimers s) = true).
  { apply existsb_exists. exists (id, d). split; [exact Hp |].
    apply Nat.eqb_refl. }
  rewrite Hex. unfold startRecognition.
  cbn [listeningIntentionally]. rewrite Hl.
  repeat split; try assumption.
  rewrite scheduledDelays_emit. now rewrite app_nil_r.
Qed.

Lemma errorThenRestart_spec (s : Session) (k : Z) :
  listeningIntentionally s = true ->
  1 <= k <= 3 ->
  retryCount s = k - 1 ->
  listeningIntentionally (errorThenRestart s) = true
  /\ retryCount (errorThenRestart s) = k
  /\ scheduledDelays (errorThenRestart s)
     = (scheduledDelays s ++ [2 ^ (k - 1) * 1000])%list.
Proof.
  intros Hl Hk Hc. unfold errorThenRestart.
  destruct (onerror_network_retry s k Hl Hk Hc)
    as (H1 & H2 & H3 & H4 & H5 & _ & _).
  cbv zeta in *. rewrite H3.
  destruct (retry_timer_restarts (onerror "network" s) (nextTimerId s)
              (2 ^ (k - 1) * 1000) H5)
    as (R1 & R2 & R3 & _ & _).
  { rewrite H4. apply in_or_app. right. now left. }
  cbv zeta in *. rewrite R2, R3. repeat split; assumption.
Qed.

(** The backoff when no retry has been used.  In a session that is
    listening with retry counter [k - 1], for [k] from 1 to 3, a network
    error counts as retry [k], shows the retrying message, keeps the session
    listening and sets a restart timer of [2^(k-1) * 1000] ms; a recognition
    result puts the counter back to zero; a network error once three retries
    are used up stops the session with the network error message set for
    display; and so, from a listening session with counter zero, network
    errors in a row, each followed by the restart of its timer, set the
    delays 1 s, 2 s and 4 s, and the fourth error ends the session. *)
Lemma backoff_from_counter :
  (forall (s : Session) (k : Z),
      listeningIntentionally s = true ->
      1 <= k <= 3 ->
      retryCount s = k - 1 ->
      let s' := onerror "network" s in
      retryCount s' = k
      /\ scheduledDelays s' = (scheduledDelays s ++ [2 ^ (k - 1) * 1000])%list
      /\ (exists id, retryTimeout s' = Some id
                     /\ In (id, 2 ^ (k - 1) * 1000) (pendingTimers s')
                     /\ effects (timerFires id false s')
                        = (effects s' ++ [RecognitionStart])%list)
      /\ listeningIntentionally s' = true
      /\ isListening s' = isListening s
      /\ error s' = Some "Connection unstable. Retrying..."%string)
  /\ (forall (s : Session) (results : list RecognitionResult),
         retryCount (onresult results s) = 0)
  /\ (forall s : Session,
         listeningIntentionally s = true ->
         retryCount s = MAX_RETRIES ->
         let s' := onerror "network" s in
         isListening s' = false
         /\ listeningIntentionally s' = false
         /\ retryTimeout s' = None
         /\ scheduledDelays s' = scheduledDelays s
         /\ error s'
            = Some "Network error. Please check your connection and try again."%string)
  /\ (forall s : Session,
         listeningIntentionally s = true ->
         retryCount s = 0 ->
         scheduledDelays (errorThenRestart (errorThenRestart (errorThenRestart s)))
         = (scheduledDelays s ++ [1000; 2000; 4000])%list
         /\ let s' := onerror "network"
                        (errorThenRestart (errorThenRestart (errorThenRestart s))) in
            isListening s' = false
            /\ scheduledDelays s'
               = (scheduledDelays s ++ [1000; 2000; 4000])%list
            /\ error s'
               = Some "Network error. Please check your connection and try again."%string).
Proof.
  split; [| split; [| split]].
  - intros s k Hl Hk Hc.
    destruct (onerror_network_retry s k Hl Hk Hc)
      as (H1 & H2 & H3 & H4 & H5 & H6 & H7).
    assert (Hin : In (nextTimerId s, 2 ^ (k - 1) * 1000)
                     (pendingTimers (onerror "network" s))).
    { rewrite H4. apply in_or_app. right. now left. }
    repeat split; try assumption.
    exists (nextTimerId s). split; [exact H3 |]. split; [exact Hin |].
    exact (proj2 (proj2 (proj2 (proj2
             (retry_timer_restarts _ _ _ H5 Hin))))).
  - apply onresult_resets.
  - apply onerror_network_exhausted.
  - intros s Hl Hc.
    destruct (errorThenRestart_spec s 1 Hl ltac:(lia) Hc)
      as (Hl1 & Hc1 & Hd1).
    destruct (errorThenRestart_spec _ 2 Hl1 ltac:(lia) Hc1)
      as (Hl2 & Hc2 & Hd2).
    destruct (errorThenRestart_spec _ 3 Hl2 ltac:(lia) Hc2)
      as (Hl3 & Hc3 & Hd3).
    assert (Hd : scheduledDelays
                   (errorThenRestart (errorThenRestart (errorThenRestart s)))
                 = (scheduledDelays s ++ [1000; 2000; 4000])%list).
    { rewrite Hd3, Hd2, Hd1, <- !app_assoc. reflexivity. }
    split; [exact Hd |].
    destruct (onerror_network_exhausted _ Hl3 Hc3)
      as (H1 & _ & _ & H4 & H5).
    cbv zeta. rewrite H4, Hd. repeat split; assumption.
Qed.




(** ** The session over any run of events *)

Lemma stopListening_flags (finalError : option string) (s : Session) :
  isListening (stopListening finalError s) = false
  /\ listeningIntentionally (stopListening finalError s) = false
  /\ retryTimeout (stopListening finalError s) = None
  /\ retryCount (stopListening finalError s) = retryCount s
  /\ scheduledDelays (stopListening finalError s) = scheduledDelays s
  /\ forall id, retryTimeout s = Some id ->
                ~ In id (map fst (pendingTimers (stopListening finalError s))).
Proof.
  assert (Hrm : forall id timers, ~ In id (map fst (removeTimer id timers))).
  { intros id timers Hin. apply in_map_iff in Hin as ([i d] & Hi & Hin).
    cbn in Hi. subst i. apply filter_In in Hin as [_ Hne].
    cbn in Hne. now rewrite Nat.eqb_refl in Hne. }
  unfold stopListening, clearRetry.
  cbn [retryTimeout setListeningIntentionally].
  destruct (retryTimeout s) as [id|] eqn:Hrt;
    destruct finalError as [e|]; try destruct (truthy e);
    cbn; unfold scheduledDelays; cbn [effects];
    rewrite ?flat_map_app; cbn [flat_map app]; rewrite ?app_nil_r;
    repeat split; try assumption; try discriminate;
    intros id' [= <-]; apply Hrm.
Qed.

(** X19.  Whatever events arrive, in whatever order, from the mounted hook: the
    retry counter stays between 0 and 3, and the listening flag shown to the
    user agrees with the flag that records the intention to listen. *)
Theorem session_invariants (events : list Event) :
  let s := run events initialSession in
  0 <= retryCount s <= MAX_RETRIES
  /\ isListening s = listeningIntentionally s.
Proof.
  cbv zeta.
  assert (Hinv : forall s,
             0 <= retryCount s <= MAX_RETRIES
             /\ isListening s = listeningIntentionally s ->
             forall e,
               0 <= retryCount (handle s e) <= MAX_RETRIES
               /\ isListening (handle s e) = listeningIntentionally (handle s e)).
  { intros s [Hc Hl] e.
    assert (Hstop : forall fe s0,
               0 <= retryCount s0 <= MAX_RETRIES ->
               0 <= retryCount (stopListening fe s0) <= MAX_RETRIES
               /\ isListening (stopListening fe s0)
                  = listeningIntentionally (stopListening fe s0)).
    { intros fe s0 H0.
      destruct (stopListening_flags fe s0) as (F1 & F2 & _ & F4 & _).
      rewrite F1, F2, F4. now split. }
    assert (Hkeep : 0 <= retryCount s <= MAX_RETRIES
                    /\ isListening s = listeningIntentionally s)
      by now split.
    destruct e as [t| |rs|code| |id t]; cbn [handle].
    - unfold start. destruct (isListening s) eqn:El; cbn [negb];
        [(split; [exact Hc | congruence]) |].
      destruct t; [apply Hstop; exact Hc | now split].
    - apply Hstop. exact Hc.
    - unfold onresult. cbn. unfold MAX_RETRIES. split; [lia | exact Hl].
    - unfold onerror.
      cbn [listeningIntentionally retryCount emit].
      destruct (String.eqb code "network" && listeningIntentionally s)%bool.
      + destruct (retryCount s <? MAX_RETRIES) eqn:Hlt.
        * apply Z.ltb_lt in Hlt. cbn. split; [lia | exact Hl].
        * apply Hstop. exact Hc.
      + repeat match goal with
               | |- context [if ?c then _ else _] => destruct c eqn:?
               end; try (apply Hstop; exact Hc);
          cbn [retryCount isListening listeningIntentionally emit];
          (split; [exact Hc | congruence]).
    - unfold onend. destruct (listeningIntentionally s) eqn:E; cbn [negb];
        cbn [retryCount isListening listeningIntentionally setIsListening];
        (split; [exact Hc | congruence]).
    - unfold timerFires. destruct (existsb _ _);
        [| split; [exact Hc | congruence]].
      unfold startRecognition. cbn [listeningIntentionally].
      destruct (listeningIntentionally s) eqn:E.
      + destruct t; [apply Hstop; exact Hc |].
        cbn [retryCount isListening listeningIntentionally emit].
        split; [exact Hc | congruence].
      + cbn [retryCount isListening listeningIntentionally].
        split; [exact Hc | congruence]. }
  unfold run.
  assert (H0 : 0 <= retryCount initialSession <= MAX_RETRIES
               /\ isListening initialSession
                  = listeningIntentionally initialSession)
    by (cbn; unfold MAX_RETRIES; split; [lia | reflexivity]).
  revert H0. generalize initialSession.
  induction events as [|e events IH]; intros s Hs; [exact Hs |].
  cbn [fold_left]. apply IH. now apply Hinv.
Qed.

(** X20.  An error that is not a network error while listening never sets a
    retry timer and leaves the retry counter alone.  An abort that comes
    when the session is not meant to listen is ignored; every other such
    error stops the session and sets a message for display. *)
Theorem other_errors_stop_without_retry (code : string) (s : Session) :
  code <> "network"%string \/ listeningIntentionally s = false ->
  let s' := onerror code s in
  scheduledDelays s' = scheduledDelays s
  /\ retryCount s' = retryCount s
  /\ ((code = "aborted"%string /\ listeningIntentionally s = false
       /\ isListening s' = isListening s /\ error s' = error s
       /\ transcript s' = transcript s)
      \/ (isListening s' = false /\ listeningIntentionally s' = false
          /\ retryTimeout s' = None
          /\ exists message, error s' = Some message)).
Proof.
  intros Hcode. cbv zeta. unfold onerror.
  cbn [listeningIntentionally emit].
  assert (Hguard : (String.eqb code "network"
                    && listeningIntentionally s)%bool = false).
  { destruct Hcode as [Hne | Hl].
    - apply String.eqb_neq in Hne. now rewrite Hne.
    - rewrite Hl. apply andb_false_r. }
  rewrite Hguard.
  assert (Hstop : forall msg s0,
             truthy msg = true ->
             scheduledDelays s0 = scheduledDelays s ->
             retryCount s0 = retryCount s ->
             scheduledDelays (stopListening (Some msg) s0) = scheduledDelays s
             /\ retryCount (stopListening (Some msg) s0) = retryCount s
             /\ ((code = "aborted"%string /\ listeningIntentionally s = false
                  /\ isListening (stopListening (Some msg) s0) = isListening s
                  /\ error (stopListening (Some msg) s0) = error s
                  /\ transcript (stopListening (Some msg) s0) = transcript s)
                 \/ (isListening (stopListening (Some msg) s0) = false
                     /\ listeningIntentionally (stopListening (Some msg) s0)
                        = false
                     /\ retryTimeout (stopListening (Some msg) s0) = None
                     /\ exists message,
                         error (stopListening (Some msg) s0) = Some message))).
  { intros msg s0 Hm Hd Hc.
    destruct (stopListening_stops msg s0 Hm)
      as (S1 & S2 & S3 & S4 & S5 & S6). cbv zeta in *.
    rewrite S6, S5, Hd, Hc. split; [reflexivity |]. split; [reflexivity |].
    right. repeat split; try assumption. now exists msg. }
  assert (Hd0 : scheduledDelays
                  (emit (ConsoleError ("Speech recognition error: " ++ code)) s)
                = scheduledDelays s).
  { rewrite scheduledDelays_emit. apply app_nil_r. }
  destruct (String.eqb code "no-speech");
    [apply Hstop; [reflexivity | exact Hd0 | reflexivity] |].
  destruct (String.eqb code "not-allowed"
            || String.eqb code "service-not-allowed")%bool;
    [apply Hstop; [reflexivity | exact Hd0 | reflexivity] |].
  destruct (String.eqb code "aborted") eqn:Hab;
    [| apply Hstop; [reflexivity | exact Hd0 | reflexivity]].
  destruct (listeningIntentionally s) eqn:Hl;
    [apply Hstop; [reflexivity | exact Hd0 | reflexivity] |].
  apply String.eqb_eq in Hab.
  split; [exact Hd0 |]. split; [reflexivity |]. left. repeat split; assumption.
Qed.

Lemma other_errors_stop_without_retry_witness :
  let s' := onerror "no-speech" listening in
  scheduledDelays s' = scheduledDelays listening
  /\ retryCount s' = retryCount listening
  /\ isListening s' = false
  /\ exists message, error s' = Some message.
Proof.
  destruct (other_errors_stop_without_retry "no-speech" listening)
    as (Hd & Hc & [(Hcode & _) | (Hl & _ & _ & Hm)]);
    [left; discriminate | discriminate Hcode |].
  split; [exact Hd |]. split; [exact Hc |]. split; [exact Hl | exact Hm].
Defined.

(** X21.  Stopping cancels the retry: the session is not listening, the timer the
    hook was holding is no longer pending, and any timer that still fires
    afterwards restarts nothing and changes no flag. *)
Theorem stop_cancels_retry (s : Session) (id : nat) (startThrows : bool) :
  let s' := stop s in
  isListening s' = false
  /\ retryTimeout s' = None
  /\ (forall held, retryTimeout s = Some held ->
                   ~ In held (map fst (pendingTimers s')))
  /\ effects (timerFires id startThrows s') = effects s'
  /\ isListening (timerFires id startThrows s') = false
  /\ error (timerFires id startThrows s') = error s'.
Proof.
  cbv zeta. unfold stop.
  destruct (stopListening_flags None s) as (F1 & F2 & F3 & _ & _ & F6).
  split; [exact F1 |]. split; [exact F3 |]. split; [exact F6 |].
  unfold timerFires. destruct (existsb _ _); [| now repeat split].
  unfold startRecognition. cbn [listeningIntentionally]. rewrite F2.
  cbn [effects isListening error]. now repeat split.
Qed.

Lemma stop_cancels_retry_witness :
  let s := onerror "network" listening in
  exists held,
    retryTimeout s = Some held
    /\ In held (map fst (pendingTimers s))
    /\ ~ In held (map fst (pendingTimers (stop s)))
    /\ isListening (timerFires held false (stop s)) = false.
Proof.
  intros s.
  destruct (retryTimeout s) as [held|] eqn:Hheld; [| discriminate].
  destruct (stop_cancels_retry s held false)
    as (_ & _ & Hgone & _ & Hl & _).
  exists held. split; [reflexivity |].
  split; [injection Hheld as <-; left; reflexivity |].
  split; [apply Hgone; exact Hheld | exact Hl].
Defined.

Lemma fold_finals (results : list RecognitionResult) (acc : string) :
  fold_left
    (fun (acc : string) (r : RecognitionResult) =>
       if fst r then String.append acc (snd r) else acc)
    results acc
  = String.append acc (String.concat "" (map snd (filter fst results))).
Proof.
  assert (Happ0 : forall a : string, String.append a "" = a).
  { induction a as [|c a IH]; cbn; [reflexivity | now rewrite IH]. }
  assert (Hassoc : forall a b c : string,
             String.append (String.append a b) c
             = String.append a (String.append b c)).
  { induction a as [|ch a IH]; intros b c; cbn; [reflexivity |].
    now rewrite IH. }
  assert (Hcons : forall (x : string) l,
             String.concat "" (x :: l) = String.append x (String.concat "" l)).
  { intros x [|y l]; cbn; [now rewrite Happ0 | reflexivity]. }
  revert acc; induction results as [|[f t] rs IH]; intros acc.
  - cbn. now rewrite Happ0.
  - cbn [fold_left fst snd filter]. rewrite IH. destruct f; [| reflexivity].
    cbn [map snd]. now rewrite Hcons, Hassoc.
Qed.

(** X22.  A result event adds to the transcript the text of its final results
    only, in order and without separators between them, after one space
    when there was text before; results that are not final leave no
    trace. *)
Theorem onresult_keeps_finals_only (results : list RecognitionResult)
        (s : Session) :
  transcript (onresult results s)
  = String.append
      (if truthy (transcript s) then String.append (transcript s) " "
       else EmptyString)
      (String.concat "" (map snd (filter fst results)))
  /\ onresult results s = onresult (filter fst results) s
  /\ error (onresult results s) = None.
Proof.
  split; [| split; [| reflexivity]].
  - unfold onresult. cbn [transcript setTranscript setError setRetryCount].
    now rewrite fold_finals.
  - unfold onresult. rewrite !fold_finals.
    assert (Hff : filter fst (filter fst results) = filter fst results).
    { induction results as [|[[] t] rs IH]; cbn; [reflexivity | | exact IH].
      now rewrite IH. }
    now rewrite Hff.
Qed.

(** X23.  Starting dictation again clears the transcript and the message but not
    the retry counter: after a session that used up its retries, the first
    network error of the next session ends it at once, with no retry. *)
Theorem restart_keeps_retries_used (s : Session) :
  isListening s = false ->
  retryCount s = MAX_RETRIES ->
  let s1 := start false s in
  transcript s1 = EmptyString /\ error s1 = None /\ isListening s1 = true
  /\ retryCount s1 = MAX_RETRIES
  /\ let s2 := onerror "network" s1 in
     isListening s2 = false
     /\ scheduledDelays s2 = scheduledDelays s
     /\ error s2
        = Some "Network error. Please check your connection and try again."%string.
Proof.
  intros Hl Hc. cbv zeta. unfold start. rewrite Hl. cbn [negb].
  cbn [transcript error isListening retryCount emit setIsListening
       setTranscript setError setListeningIntentionally].
  do 4 (split; [reflexivity || exact Hc |]).
  match goal with
  | |- context [onerror _ ?s1] =>
      destruct (onerror_network_exhausted s1 eq_refl Hc)
        as (H1 & _ & _ & H4 & H5)
  end.
  cbv zeta in *. rewrite H4, scheduledDelays_emit, app_nil_r.
  repeat split; assumption.
Qed.

Lemma restart_keeps_retries_used_witness :
  let s :=
    run [UserStart false; Error "network"; Error "network"; Error "network";
         Error "network"] initialSession in
  isListening s = false
  /\ retryCount s = MAX_RETRIES
  /\ isListening (start false s) = true
  /\ isListening (onerror "network" (start false s)) = false
  /\ scheduledDelays (onerror "network" (start false s)) = scheduledDelays s.
Proof.
  intros s.
  assert (Hl : isListening s = false) by reflexivity.
  assert (Hc : retryCount s = MAX_RETRIES) by reflexivity.
  destruct (restart_keeps_retries_used s Hl Hc)
    as (_ & _ & H1 & _ & H2 & H3 & _).
  split; [exact Hl |]. split; [exact Hc |]. split; [exact H1 |].
  split; [exact H2 | exact H3].
Defined.

End Dictation.

(* ================================================================== *)
(** * Note generation service (src/utils/textUtils.ts)                 *)
(* ================================================================== *)

Module Sources.

(** * The sources of a generated note ([generateDynamicNote],
    src/utils/textUtils.ts lines 167-206) *)

(** A grounding chunk: [web], with its [uri] and [title], each of which may
    be missing. *)
Definition Chunk : Type := option (option string * option string).

Record Source : Type := mkSource {
  uri : string;
  title : string
}.

Definition truthy (s : string) : bool :=
  match s with EmptyString => false | _ => true end.

(** [x || ''] for an optional string. *)
Definition orEmpty (x : option string) : string :=
  match x with
  | Some s => s
  | None => EmptyString
  end.

(** [chunk => ({ uri: chunk.web?.uri || '', title: chunk.web?.title || '' })] *)
Definition toSource (chunk : Chunk) : Source :=
  match chunk with
  | Some (u, t) => mkSource (orEmpty u) (orEmpty t)
  | None => mkSource EmptyString EmptyString
  end.

(** [self.findIndex(p)]: the first index where [p] holds, [None] for -1. *)
Fixpoint findIndex {A : Type} (p : A -> bool) (l : list A) : option nat :=
  match l with
  | [] => None
  | a :: l' => if p a then Some 0%nat
               else option_map S (findIndex p l')
  end.

(** [arr.filter((x, index) => p(x, index))], the indices counted from [i]. *)
Fixpoint filterIdx {A : Type} (p : A -> nat -> bool) (l : list A) (i : nat)
  : list A :=
  match l with
  | [] => []
  | a :: l' => if p a i then a :: filterIdx p l' (S i)
               else filterIdx p l' (S i)
  end.

(** The simple deduplication, lines 196-198. *)
Definition dedupe (self : list Source) : list Source :=
  filterIdx
    (fun source index =>
       match findIndex (fun s => String.eqb (uri s) (uri source)) self with
       | Some k => Nat.eqb index k
       | None => false
       end)
    self 0.

(** Lines 187-198. *)
Definition sourcesOf (rawChunks : list Chunk) : list Source :=
  dedupe
    (filter (fun source => truthy (uri source) && truthy (title source))
            (map toSource rawChunks)).

Lemma findIndex_Some {A : Type} (p : A -> bool) (l : list A) (k : nat) :
  findIndex p l = Some k ->
  exists a, nth_error l k = Some a /\ p a = true
            /\ forall j b, (j < k)%nat -> nth_error l j = Some b -> p b = false.
Proof.
  revert k; induction l as [|x l IH]; intros k H; cbn in H; [discriminate |].
  destruct (p x) eqn:Px.
  - injection H as <-. exists x. repeat split; [exact Px |]. intros; lia.
  - destruct (findIndex p l) as [k'|] eqn:E; [| discriminate].
    injection H as <-. destruct (IH k' eq_refl) as (a & Ha & Hp & Hmin).
    exists a. repeat split; try assumption.
    intros [|j] b Hj Hb; cbn in Hb.
    + now injection Hb as <-.
    + apply (Hmin j b); [lia | exact Hb].
Qed.

Lemma findIndex_None {A : Type} (p : A -> bool) (l : list A) :
  findIndex p l = None -> forall a, In a l -> p a = false.
Proof.
  induction l as [|x l IH]; intros H a Ha; [contradiction |].
  cbn in H. destruct (p x) eqn:Px; [discriminate |].
  destruct (findIndex p l) eqn:E; [discriminate |].
  destruct Ha as [<- | Ha]; [exact Px | now apply IH].
Qed.

Lemma filterIdx_In {A : Type} (p : A -> nat -> bool) (l : list A) (i : nat)
      (a : A) :
  In a (filterIdx p l i) <->
  exists j, nth_error l j = Some a /\ p a (i + j)%nat = true.
Proof.
  revert i; induction l as [|x l IH]; intros i; cbn.
  - split; [contradiction | intros ([|j] & H & _); discriminate].
  - split.
    + destruct (p x i) eqn:Px.
      * intros [<- | Ha].
        -- exists 0%nat. now rewrite Nat.add_0_r.
        -- apply IH in Ha as (j & Hj & Hp). exists (S j).
           now rewrite Nat.add_succ_r.
      * intros Ha. apply IH in Ha as (j & Hj & Hp). exists (S j).
        now rewrite Nat.add_succ_r.
    + intros ([|j] & Hj & Hp); cbn in Hj.
      * injection Hj as <-. rewrite Nat.add_0_r in Hp. rewrite Hp. now left.
      * rewrite Nat.add_succ_r in Hp.
        assert (In a (filterIdx p l (S i))) by (apply IH; eauto).
        destruct (p x i); [now right | assumption].
Qed.

(** The elements [filterIdx] keeps, with the indices they were kept at. *)
Lemma filterIdx_NoDup_by {A K : Type} (key : A -> K) (p : A -> nat -> bool)
      (l : list A) (i : nat) :
  (forall a b j k, p a j = true -> p b k = true -> key a = key b -> j = k) ->
  NoDup (map key (filterIdx p l i)).
Proof.
  intros Hinj. revert i; induction l as [|x l IH]; intros i; cbn;
    [constructor |].
  destruct (p x i) eqn:Px; [| apply IH].
  cbn. constructor; [| apply IH].
  intros Hin. apply in_map_iff in Hin as (b & Hk & Hb).
  apply filterIdx_In in Hb as (j & _ & Hp).
  specialize (Hinj x b i (S i + j)%nat Px Hp (eq_sym Hk)). lia.
Qed.


Lemma truthy_nonempty (s : string) : truthy s = true <-> s <> EmptyString.
Proof. destruct s; cbn; split; congruence. Qed.

(** X28.  The sources listed under a generated note: every one has a uri and a
    title and comes from a chunk; no uri is listed twice; every uri of a
    chunk that has both a uri and a title is listed; and, of several chunks
    with one uri, the first that has both is the one kept. *)
Theorem sourcesOf_distinct_and_complete (rawChunks : list Chunk) :
  let valid :=
    filter (fun source => truthy (uri source) && truthy (title source))
           (map toSource rawChunks) in
  let result := sourcesOf rawChunks in
  NoDup (map uri result)
  /\ (forall s, In s result ->
                uri s <> EmptyString /\ title s <> EmptyString
                /\ (exists c, In c rawChunks /\ toSource c = s)
                /\ exists k, nth_error valid k = Some s
                             /\ forall j b, (j < k)%nat ->
                                            nth_error valid j = Some b ->
                                            uri b <> uri s)
  /\ (forall c, In c rawChunks ->
                uri (toSource c) <> EmptyString ->
                title (toSource c) <> EmptyString ->
                In (uri (toSource c)) (map uri result)).
Proof.
  cbv zeta. unfold sourcesOf.
  set (valid := filter _ (map toSource rawChunks)).
  assert (Hvalid : forall s, In s valid <->
                             (exists c, In c rawChunks /\ toSource c = s)
                             /\ uri s <> EmptyString
                             /\ title s <> EmptyString).
  { intros s. subst valid. rewrite filter_In, in_map_iff, andb_true_iff.
    rewrite !truthy_nonempty. split.
    - intros [(c & E & Hc) [Hu Ht]]. split; [now exists c | now split].
    - intros [(c & Hc & E) [Hu Ht]]. split; [now exists c | now split]. }
  assert (Hpred : forall a b, uri a = uri b ->
             findIndex (fun s => String.eqb (uri s) (uri a)) valid
             = findIndex (fun s => String.eqb (uri s) (uri b)) valid).
  { intros a b E. now rewrite E. }
  split; [| split].
  - unfold dedupe. apply filterIdx_NoDup_by.
    intros a b j k Pa Pb E. rewrite (Hpred a b E) in Pa.
    destruct (findIndex _ valid) as [i|]; [| discriminate].
    apply Nat.eqb_eq in Pa, Pb. congruence.
  - intros s Hs. unfold dedupe in Hs.
    apply filterIdx_In in Hs as (j & Hj & Hp). cbn [Nat.add] in Hp.
    assert (Hin : In s valid) by (eapply nth_error_In; eassumption).
    apply Hvalid in Hin as (Hc & Hu & Ht).
    split; [exact Hu |]. split; [exact Ht |]. split; [exact Hc |].
    destruct (findIndex _ valid) as [k|] eqn:Ef; [| discriminate].
    apply Nat.eqb_eq in Hp. subst k.
    apply findIndex_Some in Ef as (a & Ha & _ & Hmin).
    exists j. split; [exact Hj |].
    intros i b Hi Hb E. specialize (Hmin i b Hi Hb).
    apply String.eqb_neq in Hmin. contradiction.
  - intros c Hc Hu Ht.
    assert (Hin : In (toSource c) valid) by (apply Hvalid; eauto).
    destruct (findIndex (fun s => String.eqb (uri s) (uri (toSource c))) valid)
      as [k|] eqn:Ef.
    + pose proof Ef as Ef'.
      apply findIndex_Some in Ef as (a & Ha & Hp & _).
      apply String.eqb_eq in Hp.
      apply in_map_iff. exists a. split; [exact Hp |].
      unfold dedupe. apply filterIdx_In. exists k. split; [exact Ha |].
      cbn [Nat.add]. rewrite (Hpred a (toSource c) Hp), Ef'.
      apply Nat.eqb_refl.
    + pose proof (findIndex_None _ _ Ef _ Hin) as Hf. cbn in Hf.
      now rewrite String.eqb_refl in Hf.
Qed.

Lemma sourcesOf_distinct_and_complete_witness :
  let chunks : list Chunk :=
    [ Some (Some "https://a.example"%string, Some "A"%string);
      None;
      Some (Some "https://b.example"%string, None);
      Some (Some "https://a.example"%string, Some "A again"%string) ] in
  sourcesOf chunks = [mkSource "https://a.example" "A"]
  /\ NoDup (map uri (sourcesOf chunks))
  /\ In "https://a.example"%string (map uri (sourcesOf chunks)).
Proof.
  intros chunks.
  destruct (sourcesOf_distinct_and_complete chunks) as (Hnd & _ & Hall).
  split; [reflexivity |]. split; [exact Hnd |].
  apply (Hall (Some (Some "https://a.example"%string, Some "A again"%string)));
    [right; right; right; left; reflexivity | discriminate | discriminate].
Defined.

End Sources.

(* ================================================================== *)
(** * Application state (src/hooks/useSpeechToSpeech.ts)               *)
(* ================================================================== *)

Module Notes.

(** * The notes of the application ([App], src/hooks/useSpeechToSpeech.ts
    lines 62-151; the generator dialog, src/components/NoteGeneratorModal.tsx
    lines 64-79; the list's snippets, src/components/VisualizationModal.tsx
    lines 397-401) *)

(** ** Notes (src/unnamed/part_000, [Note]) *)

Inductive NoteType : Type := note | database | image.

Record Note : Type := mkNote {
  id : string;
  title : string;
  content : string;
  lastModified : Z;
  type : option NoteType
}.

(** The state of [App] (src/hooks/useSpeechToSpeech.ts, lines 62-66). *)
Record AppState : Type := mkAppState {
  notes : list Note;
  activeNoteId : option string;
  isGeneratorModalOpen : bool
}.

(** [Partial<Note> & { id: string }] as the editor sends it: the id and the
    fields to overwrite. *)
Record NotePatch : Type := mkNotePatch {
  patchId : string;
  patchTitle : option string;
  patchContent : option string
}.

(** [{ ...note, ...updatedNote, lastModified: Date.now() }] *)
Definition applyPatch (now : Z) (p : NotePatch) (n : Note) : Note :=
  mkNote (patchId p)
         (match patchTitle p with Some t => t | None => title n end)
         (match patchContent p with Some c => c | None => content n end)
         now (type n).

(** [updateNote], lines 141-149; [now] is [Date.now()]. *)
Definition updateNote (now : Z) (updatedNote : NotePatch) (st : AppState)
  : AppState :=
  let updatedNotes :=
    map (fun n => if String.eqb (id n) (patchId updatedNote)
                  then applyPatch now updatedNote n
                  else n)
        (notes st) in
  mkAppState updatedNotes (activeNoteId st) (isGeneratorModalOpen st).

(** Where [Array.prototype.sort] puts [n] among notes already in order for
    the comparator [(a, b) => b.lastModified - a.lastModified]: before the
    first note that is not newer, so that equal notes keep their order. *)
Fixpoint insertByDate (n : Note) (sorted : list Note) : list Note :=
  match sorted with
  | [] => [n]
  | m :: rest =>
      if (lastModified m <=? lastModified n)%Z
      then n :: m :: rest
      else m :: insertByDate n rest
  end.

(** [[...notes].sort((a, b) => b.lastModified - a.lastModified)], line 68:
    the stable sort, newest first. *)
Definition sortedNotes (l : list Note) : list Note :=
  fold_right insertByDate [] l.

(** [deleteNote], lines 134-139.  When the filtered array is empty although
    more than one note exists, [[0].id] throws after [setNotes]: the active
    id stays. *)
Definition deleteNote (idToDelete : string) (st : AppState) : AppState :=
  let remaining :=
    filter (fun n => negb (String.eqb (id n) idToDelete)) (notes st) in
  let active :=
    match activeNoteId st with
    | Some a =>
        if String.eqb a idToDelete then
          if (1 <? List.length (sortedNotes (notes st)))%nat then
            match filter (fun n => negb (String.eqb (id n) idToDelete))
                         (sortedNotes (notes st)) with
            | first :: _ => Some (id first)
            | [] => Some a
            end
          else None
        else Some a
    | None => None
    end in
  mkAppState remaining active (isGeneratorModalOpen st).

(** [notes.find((note) => note.id === activeNoteId) || null], line 151. *)
Definition activeNote (st : AppState) : option Note :=
  match activeNoteId st with
  | Some a => find (fun n => String.eqb (id n) a) (notes st)
  | None => None
  end.


(** ** Generating a note (lines 93-131, and NoteGeneratorModal.tsx) *)

(** How an awaited service call ends: with its value, or with the message
    of the [Error] it throws. *)
Inductive Outcome (A : Type) : Type :=
| Resolves (value : A)
| Rejects (message : string).

Arguments Resolves {A}.
Arguments Rejects {A}.

(** [arr.join(sep)] *)
Definition join (sep : string) (l : list string) : string :=
  String.concat sep l.

Definition newline : string := String (ascii_of_nat 10) EmptyString.

(** Lines 108-114; [sources] is [None] for [null]. *)
Definition withSources (content : string)
           (sources : option (list Sources.Source)) : string :=
  match sources with
  | Some (s :: l) =>
      let sourcesMarkdown :=
        join newline
             (map (fun source : Sources.Source =>
                     "- [" ++ Sources.title source ++ "]("
                     ++ Sources.uri source ++ ")")%string
                  (s :: l)) in
      (content ++ newline ++ newline ++ "---" ++ newline ++ newline
       ++ "## Sources" ++ newline ++ sourcesMarkdown)%string
  | _ => content
  end.

(** The state of the generator dialog. *)
Record GeneratorModal : Type := mkGeneratorModal {
  topic : string;
  isLoading : bool;
  error : option string;
  generationType : NoteType
}.

Section Generating.

(** The three generators of the service. *)
Variable generateDynamicNote :
  string -> Outcome (string * list Sources.Source).
Variable generateDatabase : string -> Outcome string.
Variable generateImageNote : string -> Outcome string.

(** Lines 95-106: [content] and [sources] after the call for the kind. *)
Definition generate (topic : string) (kind : NoteType)
  : Outcome (string * option (list Sources.Source)) :=
  match kind with
  | note =>
      match generateDynamicNote topic with
      | Resolves (text, sources) => Resolves (text, Some sources)
      | Rejects message => Rejects message
      end
  | database =>
      match generateDatabase topic with
      | Resolves text => Resolves (text, None)
      | Rejects message => Rejects message
      end
  | image =>
      match generateImageNote topic with
      | Resolves text => Resolves (text, None)
      | Rejects message => Rejects message
      end
  end.

(** [handleGenerateNote], lines 93-131; [now] is [Date.now()]. *)
Definition handleGenerateNote (now : Z) (topic : string) (kind : NoteType)
           (st : AppState) : AppState * Editor.Settled :=
  match generate topic kind with
  | Resolves (text, sources) =>
      let newNote :=
        mkNote ("note-" ++ Editor.decimal (Z.to_nat now)) topic
               (withSources text sources) now (Some kind) in
      (mkAppState (newNote :: notes st) (Some (id newNote)) false,
       Editor.Fulfilled)
  | Rejects message =>
      (* console.error(...); throw error *)
      (st, Editor.RejectedWith message)
  end.

(** [handleSubmit] of the dialog, NoteGeneratorModal.tsx lines 64-79, with
    [onGenerate] bound to [handleGenerateNote]. *)
Definition handleSubmit (now : Z) (m : GeneratorModal) (st : AppState)
  : GeneratorModal * AppState :=
  if (negb (Editor.truthy (Editor.trim (topic m))) || isLoading m)%bool
  then (m, st)
  else
    let m1 := mkGeneratorModal (topic m) true None (generationType m) in
    match handleGenerateNote now (topic m) (generationType m) st with
    | (st', Editor.Fulfilled) => (m1, st')
    | (st', Editor.RejectedWith message) =>
        (mkGeneratorModal (topic m1) false (Some message) (generationType m1),
         st')
    end.

(** X26.  A generation that fails is shown in the dialog and changes nothing:
    the notes, the active note and the open dialog are as before, the dialog
    stops loading and holds the error's message.  One that succeeds puts the
    new note, titled by the topic, in front of the others, makes it active
    and closes the dialog; only a plain note gets its sources listed.  A
    blank topic, or a dialog already loading, starts nothing. *)
Theorem generation_outcomes (now : Z) (m : GeneratorModal) (st : AppState) :
  let r := handleSubmit now m st in
  (Editor.trim (topic m) = EmptyString \/ isLoading m = true -> r = (m, st))
  /\ (Editor.trim (topic m) <> EmptyString -> isLoading m = false ->
      match generate (topic m) (generationType m) with
      | Rejects message =>
          snd r = st
          /\ error (fst r) = Some message
          /\ isLoading (fst r) = false
          /\ topic (fst r) = topic m
      | Resolves (text, sources) =>
          (generationType m <> note -> sources = None)
          /\ exists n,
               notes (snd r) = n :: notes st
               /\ activeNoteId (snd r) = Some (id n)
               /\ isGeneratorModalOpen (snd r) = false
               /\ title n = topic m
               /\ type n = Some (generationType m)
               /\ lastModified n = now
               /\ content n = withSources text sources
      end).
Proof.
  cbv zeta. unfold handleSubmit. split.
  - intros [Ht | Hl].
    + now rewrite Ht.
    + rewrite Hl. now rewrite orb_true_r.
  - intros Ht Hl. rewrite Hl.
    destruct (Editor.trim (topic m)) as [|c t] eqn:E; [congruence |].
    cbn [Editor.truthy negb orb]. unfold handleGenerateNote.
    destruct (generate (topic m) (generationType m))
      as [[text sources] | message] eqn:Hg.
    + split.
      * intros Hkind. unfold generate in Hg.
        destruct (generationType m); [congruence | |].
        -- destruct (generateDatabase (topic m)); [| discriminate].
           now injection Hg as _ <-.
        -- destruct (generateImageNote (topic m)); [| discriminate].
           now injection Hg as _ <-.
      * eexists. cbn. repeat split.
    + cbn. repeat split.
Qed.

End Generating.

Lemma generation_outcomes_witness :
  let service : string -> Outcome (string * list Sources.Source) :=
    fun _ => Resolves ("Cats purr."%string,
                       [Sources.mkSource "https://a.example" "A"]) in
  let failing : string -> Outcome string :=
    fun _ => Rejects "Error: API_KEY is not configured." in
  let st := mkAppState [] None true in
  let m := mkGeneratorModal "cats" false None note in
  (exists n, notes (snd (handleSubmit service failing failing 5 m st)) = [n]
             /\ title n = "cats"%string)
  /\ error (fst (handleSubmit service failing failing 5
                   (mkGeneratorModal "cats" false None image) st))
     = Some "Error: API_KEY is not configured."%string.
Proof.
  intros service failing st m. split.
  - destruct (generation_outcomes service failing failing 5 m st)
      as [_ Hrun].
    destruct (Hrun ltac:(discriminate) eq_refl)
      as (_ & n & Hn & _ & _ & Ht & _).
    exists n. split; [exact Hn | exact Ht].
  - destruct (generation_outcomes service failing failing 5
                (mkGeneratorModal "cats" false None image) st)
      as [_ Hrun].
    exact (proj1 (proj2 (Hrun ltac:(discriminate) eq_refl))).
Defined.

(** ** The order of the list and the active note *)

Definition newerFirst (a b : Note) : Prop :=
  (lastModified b <= lastModified a)%Z.

Lemma insertByDate_In (n m : Note) (l : list Note) :
  In m (insertByDate n l) <-> m = n \/ In m l.
Proof.
  induction l as [|x l IH]; cbn.
  - intuition congruence.
  - destruct (lastModified x <=? lastModified n)%Z; cbn.
    + intuition congruence.
    + rewrite IH. intuition congruence.
Qed.

Lemma sortedNotes_In (m : Note) (l : list Note) :
  In m (sortedNotes l) <-> In m l.
Proof.
  induction l as [|x l IH]; cbn; [tauto |].
  rewrite insertByDate_In, IH. intuition congruence.
Qed.

Lemma sortedNotes_length (l : list Note) :
  List.length (sortedNotes l) = List.length l.
Proof.
  assert (Hins : forall n s, List.length (insertByDate n s) = S (List.length s)).
  { intros n s; induction s as [|x s IH]; cbn; [reflexivity |].
    destruct (lastModified x <=? lastModified n)%Z; cbn; now rewrite ?IH. }
  induction l as [|x l IH]; [reflexivity |].
  change (sortedNotes (x :: l)) with (insertByDate x (sortedNotes l)).
  cbn [List.length]. now rewrite Hins, IH.
Qed.

Lemma insertByDate_sorted (n : Note) (l : list Note) :
  StronglySorted newerFirst l -> StronglySorted newerFirst (insertByDate n l).
Proof.
  induction 1 as [|x l Hs IH Hx]; cbn.
  - repeat constructor.
  - destruct (lastModified x <=? lastModified n)%Z eqn:E.
    + apply Z.leb_le in E. constructor; [now constructor |].
      constructor; [exact E |].
      eapply Forall_impl; [| exact Hx]. unfold newerFirst. intros; lia.
    + apply Z.leb_gt in E. constructor; [exact IH |].
      apply Forall_forall. intros m Hm. apply insertByDate_In in Hm as [-> | Hm].
      * unfold newerFirst; lia.
      * now apply (proj1 (Forall_forall _ _) Hx).
Qed.

Lemma sortedNotes_sorted (l : list Note) :
  StronglySorted newerFirst (sortedNotes l).
Proof.
  induction l as [|x l IH]; cbn; [constructor |].
  now apply insertByDate_sorted.
Qed.

Lemma filter_sorted (p : Note -> bool) (l : list Note) :
  StronglySorted newerFirst l -> StronglySorted newerFirst (filter p l).
Proof.
  induction 1 as [|x l Hs IH Hx]; cbn; [constructor |].
  destruct (p x); [| exact IH].
  constructor; [exact IH |].
  apply Forall_forall. intros m Hm. apply filter_In in Hm as [Hm _].
  now apply (proj1 (Forall_forall _ _) Hx).
Qed.

Lemma sorted_head_newest (h : Note) (rest : list Note) :
  StronglySorted newerFirst (h :: rest) ->
  forall m, In m (h :: rest) -> (lastModified m <= lastModified h)%Z.
Proof.
  intros Hs m [<- | Hm]; [lia |].
  apply StronglySorted_inv in Hs as [_ Hx].
  now apply (proj1 (Forall_forall _ _) Hx).
Qed.

(** X24.  An edit puts the note on top: when a note is updated at a time later
    than every other note's, the sorted list starts with that note, with the
    new time; the notes keep their ids and their places in the stored array,
    and the active note is not changed. *)
Theorem updated_note_moves_to_top (now : Z) (p : NotePatch) (st : AppState) :
  In (patchId p) (map id (notes st)) ->
  (forall m, In m (notes st) -> id m <> patchId p ->
             (lastModified m < now)%Z) ->
  let st' := updateNote now p st in
  map id (notes st') = map id (notes st)
  /\ activeNoteId st' = activeNoteId st
  /\ exists first rest,
       sortedNotes (notes st') = first :: rest
       /\ id first = patchId p
       /\ lastModified first = now.
Proof.
  intros Hin Hold. cbv zeta. unfold updateNote. cbn [notes activeNoteId].
  set (f := fun n => if String.eqb (id n) (patchId p)
                     then applyPatch now p n else n).
  assert (Hid : forall n, id (f n) = id n).
  { intros n. subst f. cbn. destruct (String.eqb (id n) (patchId p)) eqn:E;
      [| reflexivity]. apply String.eqb_eq in E. now rewrite E. }
  split.
  { rewrite map_map. apply map_ext. exact Hid. }
  split; [reflexivity |].
  apply in_map_iff in Hin as (n & Hn & Hin).
  assert (Hup : In (applyPatch now p n) (map f (notes st))).
  { apply in_map_iff. exists n. split; [| exact Hin].
    subst f. cbn. now rewrite Hn, String.eqb_refl. }
  destruct (sortedNotes (map f (notes st))) as [|first rest] eqn:Hs.
  { apply sortedNotes_In in Hup. rewrite Hs in Hup. contradiction. }
  exists first, rest. split; [reflexivity |].
  pose proof (sortedNotes_sorted (map f (notes st))) as Hsorted.
  rewrite Hs in Hsorted.
  assert (Hmax : (now <= lastModified first)%Z).
  { apply sortedNotes_In in Hup. rewrite Hs in Hup.
    apply (sorted_head_newest _ _ Hsorted _ Hup). }
  assert (Hfirst : In first (map f (notes st))).
  { apply sortedNotes_In. rewrite Hs. now left. }
  apply in_map_iff in Hfirst as (m & Hm & Hmin).
  subst f. cbn in Hm.
  destruct (String.eqb (id m) (patchId p)) eqn:E.
  - subst first. now split.
  - apply String.eqb_neq in E. subst first.
    specialize (Hold m Hmin E). lia.
Qed.

Lemma updated_note_moves_to_top_witness :
  let older := mkNote "a" "A" "first" 10 (Some note) in
  let newer := mkNote "b" "B" "second" 20 None in
  let st := mkAppState [older; newer] (Some "b"%string) false in
  let st' := updateNote 30 (mkNotePatch "a" None (Some "edited"%string)) st in
  map id (sortedNotes (notes st)) = ["b"%string; "a"%string]
  /\ exists first rest,
       sortedNotes (notes st') = first :: rest /\ id first = "a"%string.
Proof.
  intros older newer st st'. split; [reflexivity |].
  destruct (updated_note_moves_to_top 30
              (mkNotePatch "a" None (Some "edited"%string)) st)
    as (_ & _ & first & rest & Hs & Hid & _).
  - left. reflexivity.
  - intros m [<- | [<- | []]] Hne; cbn; [lia | lia].
  - exists first, rest. split; [exact Hs | exact Hid].
Defined.

(** X25.  Deleting the active note, in a list without repeated ids: the note is
    gone, the others stay in order, and the active note becomes the most
    recently modified of those left, or none when nothing is left.
    Deleting another note leaves the active note as it is. *)
Theorem deleteNote_selects_newest_left (idToDelete : string)
        (st : AppState) :
  NoDup (map id (notes st)) ->
  In idToDelete (map id (notes st)) ->
  let st' := deleteNote idToDelete st in
  notes st'
  = filter (fun n => negb (String.eqb (id n) idToDelete)) (notes st)
  /\ ~ In idToDelete (map id (notes st'))
  /\ (activeNoteId st <> Some idToDelete ->
      activeNoteId st' = activeNoteId st)
  /\ (activeNoteId st = Some idToDelete ->
      match notes st' with
      | [] => activeNoteId st' = None
      | _ :: _ =>
          exists n, activeNoteId st' = Some (id n)
                    /\ In n (notes st')
                    /\ forall m, In m (notes st') ->
                                 (lastModified m <= lastModified n)%Z
      end).
Proof.
  intros Hnd Hin. cbv zeta. unfold deleteNote. cbn [notes activeNoteId].
  set (keep := fun n => negb (String.eqb (id n) idToDelete)).
  split; [reflexivity |]. split.
  { intros H. apply in_map_iff in H as (n & Hn & Hf).
    apply filter_In in Hf as [_ Hk]. subst keep. cbn in Hk.
    now rewrite Hn, String.eqb_refl in Hk. }
  split.
  { intros Hne. destruct (activeNoteId st) as [a|]; [| reflexivity].
    destruct (String.eqb a idToDelete) eqn:E; [| reflexivity].
    apply String.eqb_eq in E. congruence. }
  intros ->. rewrite String.eqb_refl, sortedNotes_length.
  assert (Hone : filter keep (notes st) = [] ->
                 (List.length (notes st) <= 1)%nat).
  { clear Hin. revert Hnd. induction (notes st) as [|x l IH]; intros Hnd Hf;
      [cbn; lia |].
    cbn in Hf. destruct (keep x) eqn:Kx; [discriminate |].
    destruct l as [|y l]; [cbn; lia |]. exfalso.
    cbn in Hf. destruct (keep y) eqn:Ky; [discriminate |].
    subst keep. cbn in Kx, Ky.
    apply negb_false_iff, String.eqb_eq in Kx.
    apply negb_false_iff, String.eqb_eq in Ky.
    inversion Hnd as [|? ? Hx _]; subst. apply Hx. cbn. left. congruence. }
  assert (Hmany : filter keep (notes st) <> [] ->
                  (1 < List.length (notes st))%nat).
  { intros Hf. apply in_map_iff in Hin as (d & Hd & Hdin).
    destruct (filter keep (notes st)) as [|k ks] eqn:Ef; [congruence |].
    assert (Hk : In k (notes st) /\ keep k = true).
    { apply filter_In. rewrite Ef. now left. }
    destruct Hk as [Hkin Hkk].
    assert (Hne : k <> d).
    { intros ->. subst keep. cbn in Hkk.
      now rewrite Hd, String.eqb_refl in Hkk. }
    destruct (notes st) as [|x [|y l]]; cbn; try lia.
    - contradiction.
    - destruct Hkin as [<- | []]. destruct Hdin as [<- | []]. congruence. }
  destruct (filter keep (notes st)) as [|k ks] eqn:Ef.
  - specialize (Hone eq_refl).
    replace (1 <? List.length (notes st))%nat with false
      by (symmetry; apply Nat.ltb_ge; lia).
    reflexivity.
  - assert (Hlen : (1 < List.length (notes st))%nat)
      by (apply Hmany; discriminate).
    replace (1 <? List.length (notes st))%nat with true
      by (symmetry; apply Nat.ltb_lt; lia).
    assert (Hsame : forall m, In m (filter keep (sortedNotes (notes st)))
                              <-> In m (k :: ks)).
    { intros m. rewrite <- Ef, !filter_In, sortedNotes_In. tauto. }
    pose proof (filter_sorted keep _ (sortedNotes_sorted (notes st)))
      as Hsorted.
    destruct (filter keep (sortedNotes (notes st))) as [|first rest] eqn:Es.
    { exfalso. apply (proj2 (Hsame k)). now left. }
    exists first. split; [reflexivity |]. split.
    + apply Hsame. now left.
    + intros m Hm. apply Hsame in Hm.
      now apply (sorted_head_newest _ _ Hsorted).
Qed.

Lemma deleteNote_selects_newest_left_witness :
  let older := mkNote "a" "A" "first" 10 (Some note) in
  let newer := mkNote "b" "B" "second" 20 None in
  let newest := mkNote "c" "C" "third" 30 None in
  let st := mkAppState [older; newest; newer] (Some "c"%string) false in
  notes (deleteNote "c" st) = [older; newer]
  /\ exists n, activeNoteId (deleteNote "c" st) = Some (id n)
               /\ In n (notes (deleteNote "c" st)).
Proof.
  intros older newer newest st.
  assert (Hnd : NoDup (map id (notes st))).
  { repeat (constructor; [cbn; intuition discriminate |]). constructor. }
  assert (Hin : In "c"%string (map id (notes st)))
    by (right; left; reflexivity).
  destruct (deleteNote_selects_newest_left "c" st Hnd Hin)
    as (Hnotes & _ & _ & Hactive).
  split; [exact Hnotes |].
  destruct (Hactive eq_refl) as (n & Ha & Hn & _).
  exists n. split; [exact Ha | exact Hn].
Defined.

End Notes.

(* ================================================================== *)
(** * Sidebar (src/components/VisualizationModal.tsx)                  *)
(* ================================================================== *)

Module Sidebar.

(** * The note list's snippets (Sidebar, src/components/VisualizationModal.tsx
    lines 397-401) *)

Definition isHash (c : ascii) : bool := Ascii.eqb c "#".

(** Whether the text continues a run of [#] that ends in a white space
    character, so that the run matches [/#+\s/]. *)
Fixpoint hashesThenSpace (s : string) : bool :=
  match s with
  | EmptyString => false
  | String c s' => if isHash c then hashesThenSpace s' else Editor.isWhiteSpace c
  end.

(** [text.replace(/#+\s/g, '')].  A match is a maximal run of [#] together
    with the one white space character after it; [inMatch] says that the
    characters just before belong to a match that has not ended yet. *)
Fixpoint removeHeadings (inMatch : bool) (s : string) : string :=
  match s with
  | EmptyString => EmptyString
  | String c s' =>
      if isHash c then
        if hashesThenSpace s' then removeHeadings true s'
        else String c (removeHeadings false s')
      else if inMatch && Editor.isWhiteSpace c then removeHeadings false s'
      else String c (removeHeadings false s')
  end.

(** The characters of [/(\*|_|`|>)/]. *)
Definition isMarkup (c : ascii) : bool :=
  Ascii.eqb c "*" || Ascii.eqb c "_" || Ascii.eqb c "`" || Ascii.eqb c ">".

(** [.replace(/(\*|_|`|>)/g, '')] *)
Fixpoint removeMarkup (s : string) : string :=
  match s with
  | EmptyString => EmptyString
  | String c s' =>
      if isMarkup c then removeMarkup s' else String c (removeMarkup s')
  end.

(** [createSnippet], lines 397-401. *)
Definition createSnippet (text : string) (type : option Notes.NoteType) : string :=
  match type with
  | Some Notes.image => "AI-generated image content"%string
  | _ =>
      let cleanedText := removeMarkup (removeHeadings false text) in
      String.append (substring 0 80 cleanedText)
                    (if (80 <? String.length cleanedText)%nat
                     then "..."%string else EmptyString)
  end.

Definition chars (s : string) : list ascii := list_ascii_of_string s.

(** A text with no [#] and none of the markup characters. *)
Definition plain (s : string) : Prop :=
  Forall (fun c => isHash c = false /\ isMarkup c = false) (chars s).

Lemma length_substring_le (n : nat) (s : string) :
  (String.length (substring 0 n s) <= n)%nat.
Proof.
  revert s; induction n as [|n IH]; intros [|c s]; cbn; try lia.
  specialize (IH s); lia.
Qed.

Lemma substring_all (n : nat) (s : string) :
  (String.length s <= n)%nat -> substring 0 n s = s.
Proof.
  revert s; induction n as [|n IH]; intros [|c s]; cbn; intros Hl;
    try reflexivity; try lia.
  f_equal. apply IH. lia.
Qed.

Lemma chars_substring (n : nat) (s : string) (P : ascii -> Prop) :
  Forall P (chars s) -> Forall P (chars (substring 0 n s)).
Proof.
  revert s; induction n as [|n IH]; intros [|c s]; cbn; intros HF;
    try constructor.
  - inversion HF; assumption.
  - apply IH. inversion HF; assumption.
Qed.

Lemma chars_append (s t : string) :
  chars (String.append s t) = chars s ++ chars t.
Proof.
  unfold chars. induction s as [|c s IH]; cbn; [reflexivity | now rewrite IH].
Qed.

Lemma length_append (s t : string) :
  String.length (String.append s t) = (String.length s + String.length t)%nat.
Proof. induction s as [|c s IH]; cbn; [reflexivity | now rewrite IH]. Qed.

Lemma removeMarkup_clean (s : string) :
  Forall (fun c => isMarkup c = false) (chars (removeMarkup s)).
Proof.
  induction s as [|c s IH]; cbn; [constructor |].
  destruct (isMarkup c) eqn:E; [assumption |].
  cbn. constructor; assumption.
Qed.

Lemma plain_unchanged (s : string) :
  plain s -> removeMarkup (removeHeadings false s) = s.
Proof.
  induction s as [|c s IH]; intros Hp; [reflexivity |].
  inversion Hp as [|? ? [Hh Hm] Hs]; subst.
  cbn [removeHeadings]. rewrite Hh. cbn [andb removeMarkup]. rewrite Hm.
  f_equal. apply IH, Hs.
Qed.

(** X27.  A snippet of a note that is no image has at most 83 characters
    and none of the characters [*], [_], [`] and [>]; a text of at most 80
    characters without [#] and without those characters is its own
    snippet. *)
Theorem createSnippet_short_and_plain (text : string)
        (type : option Notes.NoteType) :
  type <> Some Notes.image ->
  (String.length (createSnippet text type) <= 83)%nat /\
  Forall (fun c => isMarkup c = false) (chars (createSnippet text type)) /\
  (plain text -> (String.length text <= 80)%nat ->
   createSnippet text type = text).
Proof.
  intros Htype.
  assert (E : createSnippet text type =
              let cleanedText := removeMarkup (removeHeadings false text) in
              String.append (substring 0 80 cleanedText)
                (if (80 <? String.length cleanedText)%nat
                 then "..."%string else EmptyString)).
  { destruct type as [[| |]|];
      [reflexivity | reflexivity | contradiction | reflexivity]. }
  rewrite E; clear E. cbv zeta.
  set (cleanedText := removeMarkup (removeHeadings false text)).
  split; [| split].
  - rewrite length_append.
    pose proof (length_substring_le 80 cleanedText).
    destruct (80 <? String.length cleanedText)%nat; cbn; lia.
  - rewrite chars_append. apply Forall_app. split.
    + apply chars_substring, removeMarkup_clean.
    + destruct (80 <? String.length cleanedText)%nat; cbn;
        repeat constructor.
  - intros Hp Hl. subst cleanedText. rewrite (plain_unchanged _ Hp).
    rewrite (substring_all _ _ Hl).
    destruct (Nat.ltb_spec 80 (String.length text)); [lia |].
    clear. induction text as [|c s IH]; cbn; [reflexivity | now rewrite IH].
Qed.

Lemma createSnippet_short_and_plain_witness :
  let text := "# Plan *now*"%string in
  Some Notes.database <> Some Notes.image /\
  (String.length (createSnippet text (Some Notes.database)) <= 83)%nat /\
  createSnippet text (Some Notes.database) = "Plan now"%string.
Proof.
  split; [discriminate |].
  split; [| reflexivity].
  apply (createSnippet_short_and_plain "# Plan *now*" (Some Notes.database)).
  discriminate.
Defined.

End Sidebar.

(* ================================================================== *)
(** * Loading messages (VisualizationModal.tsx, NoteGeneratorModal.tsx) *)
(* ================================================================== *)

Module Loading.

(** * The rotating loading messages (src/components/VisualizationModal.tsx
    lines 17-22 and 176-187; src/components/NoteGeneratorModal.tsx lines
    11-28 and 49-62) *)

Local Open Scope Z_scope.

(** [loadingMessages] of the visualization modal. *)
Definition loadingMessages : list string :=
  [ "Analyzing connections..."%string;
    "Mapping your ideas..."%string;
    "Visualizing the knowledge nexus..."%string;
    "Generating cognitive map..."%string ].

(** [loadingMessages.note], [.database] and [.image] of the note
    generator. *)
Definition noteMessages : list string :=
  [ "Consulting the digital oracle..."%string;
    "Weaving threads of knowledge..."%string;
    "Summoning insights from the ether..."%string ].

Definition databaseMessages : list string :=
  [ "Structuring brilliance..."%string;
    "Compiling data from across the web..."%string;
    "Asking the silicon sages for wisdom..."%string ].

Definition imageMessages : list string :=
  [ "Painting with pixels..."%string;
    "Dreaming up your vision..."%string;
    "Translating words into art..."%string;
    "The AI is getting its easel ready..."%string ].

(** [messages.indexOf(prev)]: the first index of [prev], [-1] when it is
    absent; the current message is [None] when it is [undefined]. *)
Fixpoint indexOf (messages : list string) (prev : option string) : Z :=
  match messages, prev with
  | [], _ | _, None => -1
  | m :: rest, Some p =>
      if String.eqb m p then 0
      else let i := indexOf rest prev in if i <? 0 then -1 else i + 1
  end.

(** [messages[i]]; [undefined] out of range and for [NaN] ([None]). *)
Definition at_index (messages : list string) (i : option Z) : option string :=
  match i with
  | Some i => if i <? 0 then None else nth_error messages (Z.to_nat i)
  | None => None
  end.

(** [a % b]: the remainder with the sign of [a], [NaN] for [b = 0]. *)
Definition jsRem (a b : Z) : option Z :=
  if b =? 0 then None else Some (Z.rem a b).

(** The interval's callback, lines 180-183 (54-58 in the generator):
    [messages[(messages.indexOf(prev) + 1) % messages.length]]. *)
Definition nextMessage (messages : list string) (prev : option string)
  : option string :=
  let currentIndex := indexOf messages prev in
  at_index messages (jsRem (currentIndex + 1) (Z.of_nat (List.length messages))).

(** The message shown after [k] ticks of the interval, from the initial
    [messages[0]]. *)
Definition afterTicks (messages : list string) (k : nat) : option string :=
  Nat.iter k (nextMessage messages) (nth_error messages 0).

Lemma indexOf_bounds (messages : list string) (prev : option string) :
  -1 <= indexOf messages prev < Z.of_nat (List.length messages).
Proof.
  induction messages as [|m rest IH]; [cbn; destruct prev; lia |].
  destruct prev as [p|]; [| cbn; lia].
  cbn [indexOf List.length]. destruct (String.eqb m p); [lia |].
  destruct (Z.ltb_spec (indexOf rest (Some p)) 0); lia.
Qed.

Lemma indexOf_nth (messages : list string) (i : nat) (m : string) :
  NoDup messages -> nth_error messages i = Some m ->
  indexOf messages (Some m) = Z.of_nat i.
Proof.
  revert i; induction messages as [|x rest IH]; intros i Hnd Hi.
  - destruct i; discriminate.
  - inversion Hnd as [|? ? Hx Hrest]; subst. cbn [indexOf].
    destruct i as [|i]; cbn in Hi.
    + injection Hi as ->. now rewrite String.eqb_refl.
    + destruct (String.eqb_spec x m) as [-> | _].
      * exfalso. apply Hx. eapply nth_error_In, Hi.
      * rewrite (IH i Hrest Hi).
        destruct (Z.ltb_spec (Z.of_nat i) 0); lia.
Qed.

Lemma nextMessage_nth (messages : list string) (i : nat) :
  NoDup messages -> (i < List.length messages)%nat ->
  nextMessage messages (nth_error messages i)
  = nth_error messages (S i mod List.length messages).
Proof.
  intros Hnd Hi.
  destruct (nth_error messages i) as [m|] eqn:Em;
    [| apply nth_error_None in Em; lia].
  unfold nextMessage, jsRem, at_index.
  rewrite (indexOf_nth _ _ _ Hnd Em).
  destruct (Z.eqb_spec (Z.of_nat (List.length messages)) 0); [lia |].
  rewrite Z.rem_mod_nonneg by lia.
  replace (Z.of_nat i + 1) with (Z.of_nat (S i)) by lia.
  rewrite <- Nat2Z.inj_mod.
  destruct (Z.ltb_spec (Z.of_nat (S i mod List.length messages)) 0); [lia |].
  now rewrite Nat2Z.id.
Qed.

(** X29.  When the messages are pairwise different, the [k]-th tick shows
    message number [k mod length]: the rotation goes through all messages in
    order and starts again; a current message that is not in the list is
    followed by the first message. *)
Theorem loading_messages_rotate (messages : list string) :
  NoDup messages -> messages <> [] ->
  (forall k, afterTicks messages k
             = nth_error messages (k mod List.length messages)) /\
  (forall prev, indexOf messages prev = -1 ->
                nextMessage messages prev = nth_error messages 0).
Proof.
  intros Hnd Hne.
  assert (Hlen : (0 < List.length messages)%nat)
    by (destruct messages; [contradiction | cbn; lia]).
  split.
  - induction k as [|k IH].
    + unfold afterTicks. cbn [Nat.iter].
      now rewrite Nat.Div0.mod_0_l.
    + change (afterTicks messages (S k))
        with (nextMessage messages (afterTicks messages k)).
      rewrite IH.
      rewrite nextMessage_nth
        by (assumption || (apply Nat.mod_upper_bound; lia)).
      f_equal.
      replace (S (k mod List.length messages))
        with (k mod List.length messages + 1)%nat by lia.
      replace (S k) with (k + 1)%nat by lia.
      now rewrite Nat.Div0.add_mod_idemp_l.
  - intros prev E. unfold nextMessage, jsRem, at_index. rewrite E.
    destruct (Z.eqb_spec (Z.of_nat (List.length messages)) 0); [lia |].
    change (-1 + 1) with 0. rewrite Z.rem_0_l by lia. reflexivity.
Qed.

Lemma loadingMessages_NoDup :
  NoDup loadingMessages /\ NoDup noteMessages /\
  NoDup databaseMessages /\ NoDup imageMessages.
Proof.
  repeat split;
    repeat (constructor; [cbn; intuition discriminate |]); constructor.
Qed.

Lemma loading_messages_rotate_witness :
  afterTicks loadingMessages 5 = Some "Mapping your ideas..."%string /\
  afterTicks imageMessages 4 = Some "Painting with pixels..."%string.
Proof.
  split.
  - apply (proj1 (loading_messages_rotate loadingMessages
                    (proj1 loadingMessages_NoDup) ltac:(discriminate)) 5%nat).
  - apply (proj1 (loading_messages_rotate imageMessages
                    (proj2 (proj2 (proj2 loadingMessages_NoDup)))
                    ltac:(discriminate)) 4%nat).
Defined.

End Loading.
